(** * DIGIPIN hierarchical grid codec: a verification development

    Shallow embedding of the JavaScript library
    - [lib/core/constants.js]  (alphabet grid, root bounds),
    - [lib/core/encoder.js]    ([encode]),
    - [lib/core/decoder.js]    ([decode]),
    - [lib/utils/neighbors.js] ([getNeighbors], [getChildren], [getParent]),
    - [lib/utils/grid.js]      ([generateGrid]).

    Modelling conventions.
    - A JavaScript number is a value of [number]: an exact rational, one of
      the two infinities, or NaN.  Arithmetic on rationals is exact and its
      results are kept in lowest terms, so that the definitions evaluate;
      binary64 rounding and the sign of zero are not modelled.  For the
      decoder nothing is lost: every bound it computes is an integer
      multiple of 2^-18 with at most 25 significant bits
      ([decoded_bounds_dyadic]), which binary64 represents exactly.
    - A string is a list of 8-bit characters; [toUpperCase] maps the ASCII
      letters a-z and leaves every other character alone (JavaScript's case
      mapping outside ASCII is not modelled).
    - A thrown exception is the [Err] case of [result]; the payload records
      which [throw] statement fired.  The [typeof] guards of [encode] and
      [decode] cannot fire on the argument types of the model and are left
      out; NaN and the infinities, which pass [typeof x === 'number'], are
      values of [number].
    - [precision] is an integer. *)

From Stdlib Require Import Ascii String.
From Stdlib Require Import ZArith QArith Qround Qabs Qreals Reals Lra Lia Lqa.
From Stdlib Require Import Bool List Permutation.
Import ListNotations.

Local Open Scope Z_scope.
Local Open Scope Q_scope.

(* ================================================================== *)
(** ** Strings *)

Definition str := list ascii.

(** String literals. *)
Definition lit (s : string) : str := list_ascii_of_string s.

Definition hyphen : ascii := "-"%char.

(** [s.replace(/-/g, '')] *)
Definition stripHyphens (s : str) : str :=
  filter (fun c => negb (Ascii.eqb c hyphen)) s.

Definition upperChar (c : ascii) : ascii :=
  let n := nat_of_ascii c in
  if (97 <=? n)%nat && (n <=? 122)%nat then ascii_of_nat (n - 32) else c.

(** [s.toUpperCase()] on a string of ASCII characters: the letters [a-z]
    become [A-Z] and nothing else changes.  On other characters the
    built-in follows the Unicode case mapping, which can also change the
    length of the string; what depends on that is stated with the
    upper-casing as a parameter ([decodeWith]) or for ASCII input
    ([isASCII]). *)
Definition toUpperCase (s : str) : str := map upperChar s.

(** Every character of the string is an ASCII character. *)
Definition isASCII (s : str) : bool :=
  forallb (fun c => (nat_of_ascii c <? 128)%nat) s.

(** [s.slice(a, b)] for [0 <= a <= b]. *)
Definition slice (a b : nat) (s : str) : str := firstn (b - a) (skipn a s).

(** [s.slice(a)] for [0 <= a]. *)
Definition sliceFrom (a : nat) (s : str) : str := skipn a s.

(** [s.slice(0, -1)] *)
Definition dropLast (s : str) : str := firstn (List.length s - 1) s.

(* ================================================================== *)
(** ** Errors and results *)

Inductive error : Type :=
| PrecisionRange                       (* 'Precision must be between 1 and 10' *)
| LatitudeOutOfRange                   (* `Latitude ... out of range ...` *)
| LongitudeOutOfRange                  (* `Longitude ... out of range ...` *)
| TypeError                            (* property read on [undefined] *)
| InvalidLength (len : nat)            (* `Invalid DIGIPIN length: ...` *)
| InvalidCharacter (c : ascii) (pos : Z) (* `Invalid character '..' at position ..` *)
| MaxPrecision                         (* 'Cannot get children of maximum precision DIGIPIN' *)
| MinPrecision                         (* 'Cannot get parent of minimum precision DIGIPIN' *)
| InvalidBoundingBox                   (* 'Invalid bounding box coordinates' *)
| OutsideCoverage.                     (* 'Bounding box extends outside DIGIPIN coverage area' *)

Inductive result (A : Type) : Type :=
| OK (a : A)
| Err (e : error).
Arguments OK {A} a.
Arguments Err {A} e.

(** The error kinds of the specification's taxonomy.  No [throw] of the
    library is a [CoordinatesError]: the only guard of [encode] on the
    type of its coordinates is [typeof], which NaN and the infinities
    pass. *)
Inductive errorKind := CoordinatesError | BoundsError | PrecisionError | FormatError | OtherError.

Definition kindOf (e : error) : errorKind :=
  match e with
  | PrecisionRange | MaxPrecision | MinPrecision => PrecisionError
  | LatitudeOutOfRange | LongitudeOutOfRange => BoundsError
  | InvalidLength _ | InvalidCharacter _ _ => FormatError
  | TypeError | InvalidBoundingBox | OutsideCoverage => OtherError
  end.

(* ================================================================== *)
(** ** JavaScript numbers *)

Inductive number : Type :=
| Num (q : Q)
| PosInf
| NegInf
| NaN.

Definition Qltb (x y : Q) : bool := negb (Qle_bool y x).

(** Exact arithmetic on finite numbers, results in lowest terms. *)
Definition qadd (a b : Q) : Q := Qred (a + b).
Definition qsub (a b : Q) : Q := Qred (a - b).
Definition qmul (a b : Q) : Q := Qred (a * b).
Definition qdiv (a b : Q) : Q := Qred (a / b).
Definition qneg (a : Q) : Q := Qred (- a).

Infix "+!" := qadd (at level 50, left associativity).
Infix "-!" := qsub (at level 50, left associativity).
Infix "*!" := qmul (at level 40, left associativity).
Infix "/!" := qdiv (at level 40, left associativity).

Module JS.

Definition isFinite (x : number) : bool :=
  match x with Num _ => true | _ => false end.

Definition neg (x : number) : number :=
  match x with
  | Num q => Num (qneg q)
  | PosInf => NegInf
  | NegInf => PosInf
  | NaN => NaN
  end.

Definition add (x y : number) : number :=
  match x, y with
  | NaN, _ | _, NaN => NaN
  | Num a, Num b => Num (a +! b)
  | PosInf, NegInf | NegInf, PosInf => NaN
  | PosInf, _ | _, PosInf => PosInf
  | NegInf, _ | _, NegInf => NegInf
  end.

Definition sub (x y : number) : number :=
  match x, y with
  | Num a, Num b => Num (a -! b)
  | _, _ => add x (neg y)
  end.

(** Sign of a number as seen by multiplication and division:
    [Some true] positive, [Some false] negative, [None] zero or NaN. *)
Definition sign (x : number) : option bool :=
  match x with
  | Num q => if Qltb 0 q then Some true else if Qltb q 0 then Some false else None
  | PosInf => Some true
  | NegInf => Some false
  | NaN => None
  end.

Definition signedInf (s t : bool) : number :=
  if Bool.eqb s t then PosInf else NegInf.

Definition mul (x y : number) : number :=
  match x, y with
  | NaN, _ | _, NaN => NaN
  | Num a, Num b => Num (a *! b)
  | _, _ =>
      match sign x, sign y with
      | Some s, Some t => signedInf s t
      | _, _ => NaN
      end
  end.

Definition div (x y : number) : number :=
  match x, y with
  | NaN, _ | _, NaN => NaN
  | Num a, Num b =>
      if Qeq_bool b 0 then
        match sign x with
        | Some s => signedInf s true
        | None => NaN
        end
      else Num (a /! b)
  | Num _, _ => Num 0
  | _, Num _ =>
      match sign x, sign y with
      | Some s, Some t => signedInf s t
      | Some s, None => signedInf s true
      | _, _ => NaN
      end
  | _, _ => NaN
  end.

(** [x < y] *)
Definition ltb (x y : number) : bool :=
  match x, y with
  | NaN, _ | _, NaN => false
  | Num a, Num b => Qltb a b
  | NegInf, NegInf => false
  | NegInf, _ => true
  | _, NegInf => false
  | PosInf, _ => false
  | _, PosInf => true
  end.

(** [x > y] *)
Definition gtb (x y : number) : bool := ltb y x.

(** [Math.floor] *)
Definition floor (x : number) : number :=
  match x with
  | Num q => Num (inject_Z (Qfloor q))
  | _ => x
  end.

(** [Math.min] *)
Definition min (x y : number) : number :=
  match x, y with
  | NaN, _ | _, NaN => NaN
  | _, _ => if ltb y x then y else x
  end.

(** [Math.max] *)
Definition max (x y : number) : number :=
  match x, y with
  | NaN, _ | _, NaN => NaN
  | _, _ => if ltb x y then y else x
  end.

(** [a[i]] on an array: the element when [i] is an integer index inside
    the array, [undefined] ([None]) otherwise. *)
Definition index {A} (a : list A) (i : number) : option A :=
  match i with
  | Num q =>
      let z := Qfloor q in
      if Qeq_bool q (inject_Z z) && (0 <=? z)%Z then nth_error a (Z.to_nat z)
      else None
  | _ => None
  end.

End JS.

(* ================================================================== *)
(** ** Constants ([lib/core/constants.js]) *)

Definition DIGIPIN_GRID : list (list ascii) :=
  [ [ "F"; "C"; "9"; "8" ];
    [ "J"; "3"; "2"; "7" ];
    [ "K"; "4"; "5"; "6" ];
    [ "L"; "M"; "P"; "T" ] ]%char.

(** [DIGIPIN_GRID.flat()] *)
Definition DIGIPIN_CHARS : list ascii := concat DIGIPIN_GRID.

(** The object [CHAR_TO_POSITION], filled by the two nested [forEach]
    loops; a later assignment to a key shadows an earlier one. *)
Definition positionTable := list (ascii * (Z * Z)).

Fixpoint fillRow (row : list ascii) (r c : Z) (tbl : positionTable) : positionTable :=
  match row with
  | [] => tbl
  | ch :: rest => fillRow rest r (c + 1)%Z ((ch, (r, c)) :: tbl)
  end.

Fixpoint fillGrid (grid : list (list ascii)) (r : Z) (tbl : positionTable) : positionTable :=
  match grid with
  | [] => tbl
  | row :: rest => fillGrid rest (r + 1)%Z (fillRow row r 0%Z tbl)
  end.

Definition CHAR_TO_POSITION_table : positionTable := fillGrid DIGIPIN_GRID 0%Z [].

Fixpoint lookup (tbl : positionTable) (ch : ascii) : option (Z * Z) :=
  match tbl with
  | [] => None
  | (k, v) :: rest => if Ascii.eqb k ch then Some v else lookup rest ch
  end.

(** [CHAR_TO_POSITION[char]] *)
Definition CHAR_TO_POSITION (ch : ascii) : option (Z * Z) :=
  lookup CHAR_TO_POSITION_table ch.

Record Box : Type := mkBox {
  minLat : Q;
  maxLat : Q;
  minLon : Q;
  maxLon : Q
}.

Definition BOUNDS : Box :=
  {| minLat := 2.5; maxLat := 38.5; minLon := 63.5; maxLon := 99.5 |}.

(** The table [GRID_SIZES]: level, cell width in degrees, approximate
    distance in metres. *)
Definition GRID_SIZES : list (Z * Q * Q) :=
  [ (1%Z, 9, 1000000); (2%Z, 2.25, 250000); (3%Z, 0.5625, 62500);
    (4%Z, 0.140625, 15600); (5%Z, 0.0351563, 3900); (6%Z, 0.0087891, 1000);
    (7%Z, 0.0021973, 250); (8%Z, 0.0005493, 60); (9%Z, 0.0001373, 15);
    (10%Z, 0.0000343, 3.8) ].

(* ================================================================== *)
(** ** Encoder ([lib/core/encoder.js]) *)

Section Encoder.

Import JS.

(** The body of the [for] loop of [encode], run [n] more times starting at
    [level].  The four bounds and [digiPin] are the loop's mutable
    variables. *)
Fixpoint encode_loop (n : nat) (level precision : Z) (lat lon : number)
    (minLat maxLat minLon maxLon : number) (digiPin : str) : result str :=
  match n with
  | O => OK digiPin
  | S n' =>
      let latDiv := div (sub maxLat minLat) (Num 4) in
      let lonDiv := div (sub maxLon minLon) (Num 4) in
      let row := sub (Num 3) (floor (div (sub lat minLat) latDiv)) in
      let col := floor (div (sub lon minLon) lonDiv) in
      let row := max (Num 0) (min row (Num 3)) in
      let col := max (Num 0) (min col (Num 3)) in
      match index DIGIPIN_GRID row with
      | None => Err TypeError
      | Some gridRow =>
          let digiPin :=
            (digiPin ++ match index gridRow col with
                        | Some ch => [ch]
                        | None => lit "undefined"
                        end)%list in
          let digiPin :=
            if (precision =? 10)%Z && ((level =? 3)%Z || (level =? 6)%Z)
            then (digiPin ++ [hyphen])%list else digiPin in
          let maxLat' := add minLat (mul latDiv (sub (Num 4) row)) in
          let minLat' := add minLat (mul latDiv (sub (Num 3) row)) in
          let minLon' := add minLon (mul lonDiv col) in
          let maxLon' := add minLon' lonDiv in
          encode_loop n' (level + 1)%Z precision lat lon
                      minLat' maxLat' minLon' maxLon' digiPin
      end
  end.

Definition encode (lat lon : number) (precision : Z) : result str :=
  if (precision <? 1)%Z || (precision >? 10)%Z then Err PrecisionRange
  else if ltb lat (Num (minLat BOUNDS)) || gtb lat (Num (maxLat BOUNDS))
  then Err LatitudeOutOfRange
  else if ltb lon (Num (minLon BOUNDS)) || gtb lon (Num (maxLon BOUNDS))
  then Err LongitudeOutOfRange
  else
    encode_loop (Z.to_nat precision) 1%Z precision lat lon
                (Num (minLat BOUNDS)) (Num (maxLat BOUNDS))
                (Num (minLon BOUNDS)) (Num (maxLon BOUNDS)) [].

End Encoder.

(* ================================================================== *)
(** ** Decoder ([lib/core/decoder.js]) *)

Record Bounds : Type := mkBounds {
  north : Q;
  south : Q;
  east : Q;
  west : Q
}.

Record Accuracy : Type := mkAccuracy {
  latDegrees : Q;
  lonDegrees : Q
}.

(** The object [decode] returns.  The field [accuracy.approximateMeters]
    involves [Math.cos] and is given apart, as the real-valued function
    [approximateMeters] of this record. *)
Record Decoded : Type := mkDecoded {
  latitude : Q;
  longitude : Q;
  precision : Z;
  bounds : Bounds;
  accuracy : Accuracy
}.

(** One pass through the body of decode's [for] loop, for a symbol found
    at ([ri], [ci]) in the grid. *)
Definition narrow (b : Box) (ri ci : Z) : Box :=
  let latDiv := (maxLat b -! minLat b) /! 4 in
  let lonDiv := (maxLon b -! minLon b) /! 4 in
  let lat1 := maxLat b -! latDiv *! inject_Z (ri + 1) in
  let lat2 := maxLat b -! latDiv *! inject_Z ri in
  let lon1 := minLon b +! lonDiv *! inject_Z ci in
  let lon2 := minLon b +! lonDiv *! inject_Z (ci + 1) in
  {| minLat := lat1; maxLat := lat2; minLon := lon1; maxLon := lon2 |}.

(** decode's [for] loop over the characters [pin[i]], [pin[i+1]], ... *)
Fixpoint decode_loop (pin : str) (i : Z) (b : Box) : result Box :=
  match pin with
  | [] => OK b
  | char :: rest =>
      match CHAR_TO_POSITION char with
      | None => Err (InvalidCharacter char (i + 1))
      | Some (ri, ci) => decode_loop rest (i + 1)%Z (narrow b ri ci)
      end
  end.

(** [decode], with the built-in [String.prototype.toUpperCase] as the
    parameter [upper]. *)
Definition decodeWith (upper : str -> str) (digiPin : str) : result Decoded :=
  let pin := upper (stripHyphens digiPin) in
  if (length pin =? 0)%nat || (10 <? length pin)%nat
  then Err (InvalidLength (length pin))
  else
    match decode_loop pin 0%Z BOUNDS with
    | Err e => Err e
    | OK b =>
        let centerLat := (minLat b +! maxLat b) /! 2 in
        let centerLon := (minLon b +! maxLon b) /! 2 in
        OK {| latitude := centerLat;
              longitude := centerLon;
              precision := Z.of_nat (length pin);
              bounds := {| north := maxLat b; south := minLat b;
                           east := maxLon b; west := minLon b |};
              accuracy := {| latDegrees := maxLat b -! minLat b;
                             lonDegrees := maxLon b -! minLon b |} |}
    end.

(** [decode] on strings of ASCII characters. *)
Definition decode (digiPin : str) : result Decoded :=
  decodeWith toUpperCase digiPin.


(** [accuracy.approximateMeters] of a decoded cell. *)
Definition approximateMeters (d : Decoded) : R :=
  (Rmax (Q2R (latDegrees (accuracy d)) * 111000)
        (Q2R (lonDegrees (accuracy d)) * 111000
         * cos (Q2R (latitude d) * PI / 180)))%R.

(* ================================================================== *)
(** ** Hierarchy navigation ([lib/utils/neighbors.js]) *)

Definition inBOUNDS (lat lon : Q) : bool :=
  Qle_bool (minLat BOUNDS) lat && Qle_bool lat (maxLat BOUNDS) &&
  Qle_bool (minLon BOUNDS) lon && Qle_bool lon (maxLon BOUNDS).

(** The eight compass offsets N, NE, E, SE, S, SW, W, NW. *)
Definition directions (latStep lonStep : Q) : list (Q * Q) :=
  [ (latStep, 0); (latStep, lonStep); (0, lonStep); (qneg latStep, lonStep);
    (qneg latStep, 0); (qneg latStep, qneg lonStep); (0, qneg lonStep);
    (latStep, qneg lonStep) ].

(** The callback of [directions.forEach] in [getNeighbors]; an exception
    of [encode] is caught and the offset skipped. *)
Definition visitOffset (centerLat centerLon : Q) (precision : Z)
    (neighbors : list str) (d : Q * Q) : list str :=
  let newLat := centerLat +! fst d in
  let newLon := centerLon +! snd d in
  if inBOUNDS newLat newLon then
    match encode (Num newLat) (Num newLon) precision with
    | OK neighborPin => neighbors ++ [neighborPin]
    | Err _ => neighbors
    end
  else neighbors.

Definition getNeighbors (digipin : str) : result (list str) :=
  match decode digipin with
  | Err e => Err e
  | OK decoded =>
      let latStep := north (bounds decoded) -! south (bounds decoded) in
      let lonStep := east (bounds decoded) -! west (bounds decoded) in
      OK (fold_left
            (visitOffset (latitude decoded) (longitude decoded) (precision decoded))
            (directions latStep lonStep) [])
  end.

Definition getChildren (digipin : str) : result (list str) :=
  let cleanPin := stripHyphens digipin in
  if (10 <=? length cleanPin)%nat then Err MaxPrecision
  else
    OK (map (fun char =>
               let childPin := cleanPin ++ [char] in
               if (length childPin =? 10)%nat
               then slice 0 3 childPin ++ [hyphen] ++ slice 3 6 childPin
                    ++ [hyphen] ++ sliceFrom 6 childPin
               else childPin)
            (concat DIGIPIN_GRID)).

Definition getParent (digipin : str) : result str :=
  let cleanPin := stripHyphens digipin in
  if (length cleanPin <=? 1)%nat then Err MinPrecision
  else OK (dropLast cleanPin).

(* ================================================================== *)
(** ** Bounded grid enumeration ([lib/utils/grid.js]) *)

(** [for (let i = 1; i < precision; i++) cellSize /= 4], run [n] times. *)
Fixpoint cellSize_loop (n : nat) (cellSize : Q) : Q :=
  match n with
  | O => cellSize
  | S n' => cellSize_loop n' (cellSize /! 4)
  end.

(** The lattice pitch [generateGrid] computes for [precision]. *)
Definition gridCellSize (precision : Z) : Q :=
  cellSize_loop (Z.to_nat (precision - 1)) 36.

(** [for (let x = start; x <= stop; x += step) s = body x s], at most
    [fuel] passes, with [x += step] computed exactly.  That is the
    binary64 sum as long as [x] is an integer below 2^53 times [step];
    in [generateGrid], with the pitch [9 * 2^(4 - 2 * precision)] and
    coordinates up to 99.5, that holds up to precision 25.  From
    precision 28 on the binary64 sum leaves [x] unchanged and the loop
    of the source does not end; this definition says nothing of it. *)
Fixpoint forRange {S : Type} (fuel : nat) (x stop step : Q)
    (body : Q -> S -> S) (s : S) : S :=
  match fuel with
  | O => s
  | Datatypes.S fuel' =>
      if Qle_bool x stop
      then forRange fuel' (x +! step) stop step body (body x s)
      else s
  end.

(** Number of passes of such a loop when [step] is positive. *)
Definition passes (start stop step : Q) : nat :=
  Z.to_nat (Qfloor ((stop - start) / step) + 1).

Definition str_eqb (a b : str) : bool :=
  if list_eq_dec ascii_dec a b then true else false.

(** [set.add(x)] on a [Set] kept in insertion order. *)
Definition setAdd (x : str) (set : list str) : list str :=
  if existsb (str_eqb x) set then set else set ++ [x].

Definition generateGrid (bounds : Bounds) (precision : Z) : result (list str) :=
  if Qle_bool (north bounds) (south bounds) || Qle_bool (east bounds) (west bounds)
  then Err InvalidBoundingBox
  else if Qltb (south bounds) (minLat BOUNDS) || Qltb (maxLat BOUNDS) (north bounds)
          || Qltb (west bounds) (minLon BOUNDS) || Qltb (maxLon BOUNDS) (east bounds)
  then Err OutsideCoverage
  else
    let cellSize := gridCellSize precision in
    let latStart := inject_Z (Qfloor (south bounds /! cellSize)) *! cellSize in
    let lonStart := inject_Z (Qfloor (west bounds /! cellSize)) *! cellSize in
    OK (forRange (passes latStart (north bounds) cellSize) latStart (north bounds) cellSize
          (fun lat digipins =>
             forRange (passes lonStart (east bounds) cellSize) lonStart (east bounds) cellSize
               (fun lon digipins =>
                  if inBOUNDS lat lon then
                    match encode (Num lat) (Num lon) precision with
                    | OK digipin => setAdd digipin digipins
                    | Err _ => digipins
                    end
                  else digipins)
               digipins)
          []).

(* ================================================================== *)
(** ** Vocabulary of the properties *)

(** A string without separators. *)
Definition sanitized (s : str) : Prop := ~ In hyphen s.

Definition inAlphabet (c : ascii) : Prop := In c DIGIPIN_CHARS.

(** The display form [AAA-BBB-CCCC] of a string. *)
Definition grouped (s : str) : str :=
  slice 0 3 s ++ [hyphen] ++ slice 3 6 s ++ [hyphen] ++ sliceFrom 6 s.

(** Extent in degrees, along either axis, of a cell of level [n]. *)
Definition cellWidth (n : nat) : Q := 36 / inject_Z (4 ^ Z.of_nat n).

Definition wellFormed (b : Box) : Prop :=
  minLat b < maxLat b /\ minLon b < maxLon b.

Definition sameBox (a b : Box) : Prop :=
  minLat a == minLat b /\ maxLat a == maxLat b /\
  minLon a == minLon b /\ maxLon a == maxLon b.

Definition contains (b : Box) (lat lon : Q) : Prop :=
  minLat b <= lat /\ lat <= maxLat b /\ minLon b <= lon /\ lon <= maxLon b.

Definition boundsContain (b : Bounds) (lat lon : Q) : Prop :=
  south b <= lat /\ lat <= north b /\ west b <= lon /\ lon <= east b.

Definition boundsInside (inner outer : Bounds) : Prop :=
  south outer <= south inner /\ north inner <= north outer /\
  west outer <= west inner /\ east inner <= east outer.

Definition someEdgeStrict (inner outer : Bounds) : Prop :=
  south outer < south inner \/ north inner < north outer \/
  west outer < west inner \/ east inner < east outer.

(** The cell touches no edge of the root rectangle. *)
Definition interior (b : Bounds) : Prop :=
  minLat BOUNDS < south b /\ north b < maxLat BOUNDS /\
  minLon BOUNDS < west b /\ east b < maxLon BOUNDS.

(** Clamping of an integer index into [0, 3]. *)
Definition clampZ (z : Z) : Z := Z.max 0 (Z.min z 3).

(** The same clamp on a finite number, as [Math.max(0, Math.min(q, 3))]
    evaluates it. *)
Definition qclamp (q : Q) : Q :=
  let m := if Qltb 3 q then 3 else q in
  if Qltb 0 m then m else 0.

(** Row and column the encoder picks inside the box [b]. *)
Definition rowZ (b : Box) (lat : Q) : Z :=
  clampZ (3 - Qfloor ((lat - minLat b) / ((maxLat b - minLat b) / 4))).

Definition colZ (b : Box) (lon : Q) : Z :=
  clampZ (Qfloor ((lon - minLon b) / ((maxLon b - minLon b) / 4))).

(** [DIGIPIN_GRID[r][c]] for indices inside the grid. *)
Definition symbolAt (r c : Z) : ascii :=
  nth (Z.to_nat c) (nth (Z.to_nat r) DIGIPIN_GRID []) "F"%char.

(** The symbols the encoder emits over [n] levels starting in box [b],
    without separators, and the box it ends in. *)
Fixpoint symbols (n : nat) (lat lon : Q) (b : Box) : str :=
  match n with
  | O => []
  | S n' =>
      let r := rowZ b lat in
      let c := colZ b lon in
      symbolAt r c :: symbols n' lat lon (narrow b r c)
  end.

Fixpoint cellOf (n : nat) (lat lon : Q) (b : Box) : Box :=
  match n with
  | O => b
  | S n' => cellOf n' lat lon (narrow b (rowZ b lat) (colZ b lon))
  end.

(** Separators as the encoder places them: after the symbol of level 3
    and of level 6 when [precision] is 10. *)
Fixpoint withHyphens (precision level : Z) (syms : str) : str :=
  match syms with
  | [] => []
  | ch :: rest =>
      ch :: (if (precision =? 10)%Z && ((level =? 3)%Z || (level =? 6)%Z)
             then [hyphen] else [])
         ++ withHyphens precision (level + 1)%Z rest
  end.

(** A box is a cell of level [n]: it sits on the lattice of pitch
    [cellWidth n] anchored at the south-west corner of the root. *)
Definition aligned (n : nat) (b : Box) : Prop :=
  exists k j : Z,
    (0 <= k < 4 ^ Z.of_nat n)%Z /\ (0 <= j < 4 ^ Z.of_nat n)%Z /\
    minLat b == minLat BOUNDS + inject_Z k * cellWidth n /\
    maxLat b == minLat BOUNDS + inject_Z (k + 1) * cellWidth n /\
    minLon b == minLon BOUNDS + inject_Z j * cellWidth n /\
    maxLon b == minLon BOUNDS + inject_Z (j + 1) * cellWidth n.

(** A number of the form [z / 2^18] with [0 <= z < 2^25]: such a number
    has at most 25 significant bits and is exactly representable in
    binary64. *)
Definition dyadic18 (x : Q) : Prop :=
  exists z : Z, (0 <= z < 2 ^ 25)%Z /\ x == inject_Z z / inject_Z (2 ^ 18).

(** What [decode] returns, in terms of the box its loop ends in. *)
Definition decodedOf (pin : str) (b : Box) : Decoded :=
  {| latitude := (minLat b +! maxLat b) /! 2;
     longitude := (minLon b +! maxLon b) /! 2;
     precision := Z.of_nat (length pin);
     bounds := {| north := maxLat b; south := minLat b;
                  east := maxLon b; west := minLon b |};
     accuracy := {| latDegrees := maxLat b -! minLat b;
                    lonDegrees := maxLon b -! minLon b |} |}.

(** The form in which [encode] emits a string of symbols: grouped when
    there are ten of them, bare otherwise. *)
Definition canonical (pin : str) : str :=
  if (length pin =? 10)%nat then grouped pin else pin.

(** A point strictly inside a box, and a box inside another. *)
Definition strictlyContains (b : Box) (lat lon : Q) : Prop :=
  minLat b < lat /\ lat < maxLat b /\ minLon b < lon /\ lon < maxLon b.

Definition boxInside (inner outer : Box) : Prop :=
  minLat outer <= minLat inner /\ maxLat inner <= maxLat outer /\
  minLon outer <= minLon inner /\ maxLon inner <= maxLon outer.

(* ================================================================== *)
(** ** More of the library *)

(** Exceptions of the functions below: an exception of the codec that
    passes through, or one of their own [throw] statements. *)
Inductive libError : Type :=
| Codec (e : error)
| TargetPrecisionTooLow     (* 'Target precision must be greater than current DIGIPIN precision' *)
| GridSizeEven              (* 'Grid size must be odd to have a center' *)
| EmptyDigipins             (* 'DIGIPINs array cannot be empty' *)
| DecodeAtIndex (index : Z) (e : error)
                            (* `Error decoding DIGIPIN at index ${index}: ...` *)
| InvalidArrayLength.       (* RangeError of [push] on an array that is full *)

(** The largest length of an array. *)
Definition MAX_ARRAY_LENGTH : Z := 2 ^ 32 - 1.

Inductive outcome (A : Type) : Type :=
| Returns (a : A)
| Throws (e : libError).
Arguments Returns {A} a.
Arguments Throws {A} e.

(** [for (let i = from; ...; i++) s = body i s], [n] passes. *)
Fixpoint forUp {S : Type} (n : nat) (i : Z) (body : Z -> S -> S) (s : S) : S :=
  match n with
  | O => s
  | Datatypes.S n' => forUp n' (i + 1)%Z body (body i s)
  end.

(** [for (let i = from; ...; i--) s = body i s], [n] passes. *)
Fixpoint forDown {S : Type} (n : nat) (i : Z) (body : Z -> S -> S) (s : S) : S :=
  match n with
  | O => s
  | Datatypes.S n' => forDown n' (i - 1)%Z body (body i s)
  end.

(** Number of integers [i] with [from <= i <= to]. *)
Definition span (from to : Z) : nat := Z.to_nat (to - from + 1).

(** *** [lib/utils/neighbors.js] *)

(** The body of the inner loop is the callback of [getNeighbors], at the
    offset ([latOffset * latStep], [lonOffset * lonStep]). *)
Definition getNeighborsInRadius (digipin : str) (radius : Z) : result (list str) :=
  match decode digipin with
  | Err e => Err e
  | OK decoded =>
      let latStep := north (bounds decoded) -! south (bounds decoded) in
      let lonStep := east (bounds decoded) -! west (bounds decoded) in
      OK (forUp (span (- radius) radius) (- radius)%Z
            (fun latOffset neighbors =>
               forUp (span (- radius) radius) (- radius)%Z
                 (fun lonOffset neighbors =>
                    if (latOffset =? 0)%Z && (lonOffset =? 0)%Z then neighbors
                    else visitOffset (latitude decoded) (longitude decoded)
                           (precision decoded) neighbors
                           (inject_Z latOffset *! latStep, inject_Z lonOffset *! lonStep))
                 neighbors)
            [])
  end.

Definition getSiblings (digipin : str) : list str :=
  match getParent digipin with
  | Err _ => []
  | OK parent =>
      match getChildren parent with
      | Err _ => []
      | OK children =>
          filter (fun child =>
                    negb (str_eqb (stripHyphens child) (stripHyphens digipin)))
                 children
      end
  end.

Definition areNeighbors (digipin1 digipin2 : str) : result bool :=
  match getNeighbors digipin1 with
  | Err e => Err e
  | OK neighbors => OK (existsb (str_eqb digipin2) neighbors)
  end.

(** [getGrid]; an entry [None] is JavaScript's [null]. *)
Definition getGrid (centerDigipin : str) (gridSize : Z)
  : outcome (list (list (option str))) :=
  if (Z.rem gridSize 2 =? 0)%Z then Throws GridSizeEven
  else
    match decode centerDigipin with
    | Err e => Throws (Codec e)
    | OK decoded =>
        let latStep := north (bounds decoded) -! south (bounds decoded) in
        let lonStep := east (bounds decoded) -! west (bounds decoded) in
        let radius := (gridSize / 2)%Z in
        Returns
          (forDown (span (- radius) radius) radius
             (fun latOffset grid =>
                grid ++
                [ forUp (span (- radius) radius) (- radius)%Z
                    (fun lonOffset row =>
                       let newLat := latitude decoded +! (inject_Z latOffset *! latStep) in
                       let newLon := longitude decoded +! (inject_Z lonOffset *! lonStep) in
                       if inBOUNDS newLat newLon then
                         match encode (Num newLat) (Num newLon) (precision decoded) with
                         | OK gridPin => row ++ [Some gridPin]
                         | Err _ => row ++ [None]
                         end
                       else row ++ [None])
                    [] ])
             [])
    end.

(** *** [lib/core/encoder.js] *)

(** The nested search of a character in the grid, with its [break]s:
    the first match in row-major order, (-1, -1) when there is none. *)
Fixpoint scanRow (row : list ascii) (char : ascii) (c : Z) : option Z :=
  match row with
  | [] => None
  | x :: rest => if Ascii.eqb x char then Some c else scanRow rest char (c + 1)%Z
  end.

Fixpoint scanGrid (grid : list (list ascii)) (char : ascii) (r : Z) : Z * Z :=
  match grid with
  | [] => ((-1)%Z, (-1)%Z)
  | row :: rest =>
      match scanRow row char 0%Z with
      | Some c => (r, c)
      | None => scanGrid rest char (r + 1)%Z
      end
  end.

Record EncodedWithBounds : Type := mkEncodedWithBounds {
  ewb_digipin : str;
  ewb_bounds : Bounds;
  ewb_center_lat : Q;
  ewb_center_lon : Q;
  ewb_area : Q
}.

Definition encodeWithBounds (lat lon : number) (precision : Z)
  : result EncodedWithBounds :=
  match encode lat lon precision with
  | Err e => Err e
  | OK pin =>
      let cleanPin := stripHyphens pin in
      let passes := Z.to_nat (Z.min (Z.of_nat (length cleanPin)) precision) in
      let b :=
        fold_left (fun b char =>
                     let '(ri, ci) := scanGrid DIGIPIN_GRID char 0%Z in
                     narrow b ri ci)
                  (firstn passes cleanPin) BOUNDS in
      OK {| ewb_digipin := pin;
            ewb_bounds := {| north := maxLat b; south := minLat b;
                             east := maxLon b; west := minLon b |};
            ewb_center_lat := (minLat b +! maxLat b) /! 2;
            ewb_center_lon := (minLon b +! maxLon b) /! 2;
            ewb_area := (maxLat b -! minLat b) *! (maxLon b -! minLon b) |}
  end.

(** *** [lib/core/decoder.js] *)

(** [digipins.map((pin, index) => ...)] of [decodeBatch]: the first
    exception of [decode] ends the map, wrapped with its index. *)
Fixpoint decodeBatch_from (index : Z) (digipins : list str) : outcome (list Decoded) :=
  match digipins with
  | [] => Returns []
  | pin :: rest =>
      match decode pin with
      | Err e => Throws (DecodeAtIndex index e)
      | OK d =>
          match decodeBatch_from (index + 1)%Z rest with
          | Returns ds => Returns (d :: ds)
          | Throws e => Throws e
          end
      end
  end.

Definition decodeBatch (digipins : list str) : outcome (list Decoded) :=
  decodeBatch_from 0%Z digipins.

(** The inner loop of [getSubDivisions]: the digits of [temp] in base 16,
    least significant first, as grid symbols. *)
Fixpoint extension_loop (levels : nat) (temp : Z) (extension : str) : str :=
  match levels with
  | O => extension
  | S levels' =>
      let gridIndex := (temp mod 16)%Z in
      let row := (gridIndex / 4)%Z in
      let col := (gridIndex mod 4)%Z in
      extension_loop levels' (temp / 16)%Z (extension ++ [symbolAt row col])
  end.

(** The outer loop of [getSubDivisions], [n] passes from [i] on;
    [subdivisions.push] throws once the array holds [MAX_ARRAY_LENGTH]
    elements. *)
Fixpoint subdivisions_loop (n : nat) (i : Z) (pin : str) (remainingLevels : nat)
    (subdivisions : list Decoded) : outcome (list Decoded) :=
  match n with
  | O => Returns subdivisions
  | S n' =>
      let fullPin := pin ++ extension_loop remainingLevels i [] in
      match decode fullPin with
      | Err e => Throws (Codec e)
      | OK d =>
          if (MAX_ARRAY_LENGTH <=? Z.of_nat (length subdivisions))%Z
          then Throws InvalidArrayLength
          else subdivisions_loop n' (i + 1)%Z pin remainingLevels (subdivisions ++ [d])
      end
  end.

(** [getSubDivisions], for a code of ASCII characters and an integer
    target precision. *)
Definition getSubDivisions (digiPin : str) (targetPrecision : Z)
  : outcome (list Decoded) :=
  let pin := toUpperCase (stripHyphens digiPin) in
  if (targetPrecision <=? Z.of_nat (length pin))%Z then Throws TargetPrecisionTooLow
  else
    match decode pin with
    | Err e => Throws (Codec e)
    | OK baseDecoded =>
        let remainingLevels := Z.to_nat (targetPrecision - Z.of_nat (length pin)) in
        let totalCombinations := (16 ^ Z.of_nat remainingLevels)%Z in
        subdivisions_loop (Z.to_nat totalCombinations) 0%Z pin remainingLevels []
    end.

(** *** [lib/utils/geometry.js] *)

Definition digipinContains (outerDigipin innerDigipin : str) : result bool :=
  match decode outerDigipin with
  | Err e => Err e
  | OK outer =>
      match decode innerDigipin with
      | Err e => Err e
      | OK inner =>
          OK (Qle_bool (south (bounds outer)) (south (bounds inner)) &&
              Qle_bool (north (bounds inner)) (north (bounds outer)) &&
              Qle_bool (west (bounds outer)) (west (bounds inner)) &&
              Qle_bool (east (bounds inner)) (east (bounds outer)))
      end
  end.

Definition digipinsIntersect (digipin1 digipin2 : str) : result bool :=
  match decode digipin1 with
  | Err e => Err e
  | OK decoded1 =>
      match decode digipin2 with
      | Err e => Err e
      | OK decoded2 =>
          let bounds1 := bounds decoded1 in
          let bounds2 := bounds decoded2 in
          OK (negb (Qltb (east bounds1) (west bounds2) || Qltb (east bounds2) (west bounds1) ||
                    Qltb (north bounds1) (south bounds2) || Qltb (north bounds2) (south bounds1)))
      end
  end.

Record BoundingBox : Type := mkBoundingBox {
  bb_north : number;
  bb_south : number;
  bb_east : number;
  bb_west : number;
  bb_center_latitude : number;
  bb_center_longitude : number
}.

(** The [forEach] of [getBoundingBox] over the running extremes
    ([minLat], [maxLat], [minLon], [maxLon]). *)
Fixpoint boundingBox_loop (digipins : list str) (minLat maxLat minLon maxLon : number)
  : outcome (number * number * number * number) :=
  match digipins with
  | [] => Returns (minLat, maxLat, minLon, maxLon)
  | digipin :: rest =>
      match decode digipin with
      | Err e => Throws (Codec e)
      | OK decoded =>
          boundingBox_loop rest
            (JS.min minLat (Num (south (bounds decoded))))
            (JS.max maxLat (Num (north (bounds decoded))))
            (JS.min minLon (Num (west (bounds decoded))))
            (JS.max maxLon (Num (east (bounds decoded))))
      end
  end.

Definition getBoundingBox (digipins : list str) : outcome BoundingBox :=
  if (length digipins =? 0)%nat then Throws EmptyDigipins
  else
    match boundingBox_loop digipins PosInf NegInf PosInf NegInf with
    | Throws e => Throws e
    | Returns (minLat, maxLat, minLon, maxLon) =>
        Returns {| bb_north := maxLat; bb_south := minLat;
                   bb_east := maxLon; bb_west := minLon;
                   bb_center_latitude := JS.div (JS.add minLat maxLat) (Num 2);
                   bb_center_longitude := JS.div (JS.add minLon maxLon) (Num 2) |}
    end.

(** *** [lib/core/validator.js] *)

Inductive coordinateError := LatitudeOutOfBounds | LongitudeOutOfBounds.
Inductive coordinateWarning := LatitudeNearBoundary | LongitudeNearBoundary.

Record CoordinateValidation : Type := mkCoordinateValidation {
  cv_isValid : bool;
  cv_errors : list coordinateError;
  cv_warnings : list coordinateWarning
}.

(** The sums of [validateCoordinates] are not exact in binary64 (0.1 is
    no binary fraction), so its arithmetic is rounded: [binary64 q] is the
    double nearest to [q], ties to the even significand, for magnitudes in
    the normal range. *)

(** Nearest integer, ties to even. *)
Definition roundHalfEven (q : Q) : Z :=
  let f := Qfloor q in
  match Qcompare (q - inject_Z f) (1 # 2) with
  | Lt => f
  | Gt => (f + 1)%Z
  | Eq => if Z.even f then f else (f + 1)%Z
  end.

(** The exponent [e] with [2^e <= q < 2^(e+1)], for [0 < q]. *)
Definition binade (q : Q) : Z :=
  let e := (Z.log2 (Qnum q) - Z.log2 (Zpos (Qden q)))%Z in
  if Qle_bool (2 ^ e) q then e else (e - 1)%Z.

Definition binary64 (q : Q) : Q :=
  if Qeq_bool q 0 then 0
  else
    let ulp := 2 ^ (binade (Qabs q) - 52) in
    let r := inject_Z (roundHalfEven (Qabs q / ulp)) * ulp in
    Qred (if Qle_bool 0 q then r else - r).

(** A number as binary64 holds it. *)
Definition fl (x : number) : number :=
  match x with
  | Num q => Num (binary64 q)
  | _ => x
  end.

Definition validateCoordinates (lat lon : number) : CoordinateValidation :=
  let latBad := JS.ltb lat (Num (minLat BOUNDS)) || JS.gtb lat (Num (maxLat BOUNDS)) in
  let lonBad := JS.ltb lon (Num (minLon BOUNDS)) || JS.gtb lon (Num (maxLon BOUNDS)) in
  let buffer := fl (Num 0.1) in
  let latNear := JS.ltb lat (fl (JS.add (Num (minLat BOUNDS)) buffer))
                 || JS.gtb lat (fl (JS.sub (Num (maxLat BOUNDS)) buffer)) in
  let lonNear := JS.ltb lon (fl (JS.add (Num (minLon BOUNDS)) buffer))
                 || JS.gtb lon (fl (JS.sub (Num (maxLon BOUNDS)) buffer)) in
  {| cv_isValid := negb latBad && negb lonBad;
     cv_errors := (if latBad then [LatitudeOutOfBounds] else [])
                  ++ (if lonBad then [LongitudeOutOfBounds] else []);
     cv_warnings := (if latNear then [LatitudeNearBoundary] else [])
                    ++ (if lonNear then [LongitudeNearBoundary] else []) |}.

(** One child as [getChildren] builds it. *)
Definition childOf (cleanPin : str) (char : ascii) : str :=
  let childPin := cleanPin ++ [char] in
  if (length childPin =? 10)%nat
  then slice 0 3 childPin ++ [hyphen] ++ slice 3 6 childPin
       ++ [hyphen] ++ sliceFrom 6 childPin
  else childPin.

(** The integers [i], [i + 1], ..., [n] of them. *)
Fixpoint zrange (n : nat) (i : Z) : list Z :=
  match n with
  | O => []
  | S n' => i :: zrange n' (i + 1)%Z
  end.

(** What one pass of the inner loop of [getNeighborsInRadius] adds to the
    result, at the offsets ([latOffset], [lonOffset]). *)
Definition cellAt (decoded : Decoded) (latOffset lonOffset : Z) : list str :=
  if (latOffset =? 0)%Z && (lonOffset =? 0)%Z then []
  else visitOffset (latitude decoded) (longitude decoded) (precision decoded) []
         (inject_Z latOffset *! (north (bounds decoded) -! south (bounds decoded)),
          inject_Z lonOffset *! (east (bounds decoded) -! west (bounds decoded))).

(** The eight compass offsets in cells, in the order of [directions], and
    in the order in which the loops of [getNeighborsInRadius] visit them
    at radius 1. *)
Definition compass : list (Z * Z) :=
  [ (1, 0); (1, 1); (0, 1); (-1, 1); (-1, 0); (-1, -1); (0, -1); (1, -1) ]%Z.

Definition ring : list (Z * Z) :=
  [ (-1, -1); (-1, 0); (-1, 1); (0, -1); (0, 1); (1, -1); (1, 0); (1, 1) ]%Z.



(** [decode] accepts the code. *)
Definition decodable (code : str) : Prop := exists d, decode code = OK d.

(** Some code of the list has a cell whose edge, read by [edge], is [x]. *)
Definition attained (edge : Bounds -> Q) (x : Q) (digipins : list str) : Prop :=
  exists c d, In c digipins /\ decode c = OK d /\ x = edge (bounds d).

(** Value of the variable of [for (x = start; x <= stop; x += step)] on
    pass [k] (passes counted from 0). *)
Fixpoint stepped (start step : Q) (k : nat) : Q :=
  match k with
  | O => start
  | S k' => stepped start step k' +! step
  end.

(** The first latitude and longitude [generateGrid] visits. *)
Definition latStart (bounds : Bounds) (precision : Z) : Q :=
  inject_Z (Qfloor (south bounds /! gridCellSize precision)) *! gridCellSize precision.

Definition lonStart (bounds : Bounds) (precision : Z) : Q :=
  inject_Z (Qfloor (west bounds /! gridCellSize precision)) *! gridCellSize precision.

(** [generateGrid] reaches the lattice point number [(i, j)] of the
    rectangle and encodes it to [code]. *)
Definition visited (bounds : Bounds) (precision : Z) (i j : nat) (code : str) : Prop :=
  let lat := stepped (latStart bounds precision) (gridCellSize precision) i in
  let lon := stepped (lonStart bounds precision) (gridCellSize precision) j in
  lat <= north bounds /\ lon <= east bounds /\
  inBOUNDS lat lon = true /\
  encode (Num lat) (Num lon) precision = OK code.

(** A rectangle [generateGrid] accepts. *)
Definition validBox (bounds : Bounds) : Prop :=
  south bounds < north bounds /\ west bounds < east bounds /\
  minLat BOUNDS <= south bounds /\ north bounds <= maxLat BOUNDS /\
  minLon BOUNDS <= west bounds /\ east bounds <= maxLon BOUNDS.

(* ================================================================== *)
(** ** Fixtures of the reference implementation *)

Example encode_delhi :
  encode (Num 28.6139) (Num 77.2090) 10 = OK (lit "39J-438-TJC7").
Proof. vm_compute. reflexivity. Qed.

Example encode_mumbai :
  encode (Num 19.0760) (Num 72.8777) 10 = OK (lit "4FK-595-8823").
Proof. vm_compute. reflexivity. Qed.

Example decode_bangalore :
  match decode (lit "4P3-JK8-52C9") with
  | OK d => Qabs (latitude d - 12.9716) < 0.0001 /\ Qabs (longitude d - 77.5946) < 0.0001
  | Err _ => False
  end.
Proof. vm_compute. split; reflexivity. Qed.

Example children_39J :
  match getChildren (lit "39J") with
  | OK l => length l = 16%nat /\ NoDup l /\ Forall (fun k => firstn 3 k = lit "39J") l
  | Err _ => False
  end.
Proof.
  vm_compute. split; [reflexivity|]. split.
  - repeat (constructor; [simpl; intuition discriminate|]). constructor.
  - repeat constructor.
Qed.

Example grid_fixture :
  generateGrid {| north := 28.7; south := 28.6; east := 77.3; west := 77.2 |} 6
  = OK (map lit ["39J4K8"; "39J448"; "39J458"; "39J468"; "39J4J8"; "39J438"; "39J428";
                 "39J478"; "39J4F8"; "39J4C8"; "39J498"; "39J488"; "39J3L8"; "39J3M8";
                 "39J3P8"; "39J3T8"]%string).
Proof. vm_compute. reflexivity. Qed.

(** The widths of the table [GRID_SIZES] are the cell extents of each
    level, rounded to seven decimals. *)
Example GRID_SIZES_widths :
  Forall (fun e => Qabs (snd (fst e) - cellWidth (Z.to_nat (fst (fst e)))) < 0.0000001)
         GRID_SIZES.
Proof. repeat constructor. Qed.

(* ================================================================== *)
(** ** Strings: basic facts *)

Lemma stripHyphens_app (a b : str) :
  stripHyphens (a ++ b) = stripHyphens a ++ stripHyphens b.
Proof. apply filter_app. Qed.

Lemma stripHyphens_sanitized (s : str) : sanitized s -> stripHyphens s = s.
Proof.
  unfold sanitized, stripHyphens. induction s as [|c s IH]; intros H; [reflexivity|].
  simpl. destruct (Ascii.eqb c hyphen) eqn:E.
  - apply Ascii.eqb_eq in E. exfalso. apply H. left. exact E.
  - simpl. f_equal. apply IH. intros Hin. apply H. right. exact Hin.
Qed.

Lemma stripHyphens_is_sanitized (s : str) : sanitized (stripHyphens s).
Proof.
  unfold sanitized, stripHyphens. intros H. apply filter_In in H.
  destruct H as [_ H]. rewrite Ascii.eqb_refl in H. discriminate.
Qed.

Lemma alphabet_cases (c : ascii) (P : ascii -> Prop) :
  inAlphabet c ->
  Forall P DIGIPIN_CHARS -> P c.
Proof. intros Hin HP. rewrite Forall_forall in HP. apply HP. exact Hin. Qed.

Lemma alphabet_not_hyphen (c : ascii) : inAlphabet c -> c <> hyphen.
Proof.
  intros H. apply (alphabet_cases c (fun c => c <> hyphen) H).
  repeat constructor; discriminate.
Qed.

Lemma alphabet_upper (c : ascii) : inAlphabet c -> upperChar c = c.
Proof.
  intros H. apply (alphabet_cases c (fun c => upperChar c = c) H).
  repeat constructor.
Qed.

Lemma sanitized_alphabet (s : str) : Forall inAlphabet s -> sanitized s.
Proof.
  intros H Hin. rewrite Forall_forall in H.
  apply (alphabet_not_hyphen hyphen (H _ Hin)). reflexivity.
Qed.

Lemma toUpperCase_alphabet (s : str) : Forall inAlphabet s -> toUpperCase s = s.
Proof.
  induction 1 as [|c s Hc _ IH]; [reflexivity|].
  unfold toUpperCase in *. simpl. rewrite IH, (alphabet_upper c Hc). reflexivity.
Qed.

Lemma dropLast_snoc (s : str) (c : ascii) : dropLast (s ++ [c]) = s.
Proof.
  unfold dropLast. rewrite length_app. simpl.
  replace (length s + 1 - 1)%nat with (length s + 0)%nat by lia.
  rewrite firstn_app_2. simpl. apply app_nil_r.
Qed.

Lemma regroup (s : str) :
  slice 0 3 s ++ slice 3 6 s ++ sliceFrom 6 s = s.
Proof.
  unfold slice, sliceFrom. simpl Nat.sub. change (skipn 0 s) with s.
  replace (skipn 6 s) with (skipn 3 (skipn 3 s)) by (rewrite skipn_skipn; reflexivity).
  rewrite (firstn_skipn 3 (skipn 3 s)). apply firstn_skipn.
Qed.

Lemma sanitized_firstn (n : nat) (s : str) : sanitized s -> sanitized (firstn n s).
Proof.
  unfold sanitized. intros H Hin. apply H.
  rewrite <- (firstn_skipn n s). apply in_or_app. left. exact Hin.
Qed.

Lemma sanitized_skipn (n : nat) (s : str) : sanitized s -> sanitized (skipn n s).
Proof.
  unfold sanitized. intros H Hin. apply H.
  rewrite <- (firstn_skipn n s). apply in_or_app. right. exact Hin.
Qed.

Lemma stripHyphens_grouped (s : str) : sanitized s -> stripHyphens (grouped s) = s.
Proof.
  intros H. unfold grouped. rewrite !stripHyphens_app.
  change (stripHyphens [hyphen]) with (@nil ascii). rewrite !app_nil_l.
  unfold slice, sliceFrom.
  rewrite !stripHyphens_sanitized
    by auto using sanitized_firstn, sanitized_skipn.
  apply (regroup s).
Qed.

(* ================================================================== *)
(** ** Exact arithmetic: basic facts *)

Lemma qadd_eq (a b : Q) : a +! b == a + b.
Proof. apply Qred_correct. Qed.

Lemma qsub_eq (a b : Q) : a -! b == a - b.
Proof. apply Qred_correct. Qed.

Lemma qmul_eq (a b : Q) : a *! b == a * b.
Proof. apply Qred_correct. Qed.

Lemma qdiv_eq (a b : Q) : a /! b == a / b.
Proof. apply Qred_correct. Qed.

Lemma qneg_eq (a : Q) : qneg a == - a.
Proof. apply Qred_correct. Qed.

Ltac qexact :=
  repeat first [ rewrite qadd_eq | rewrite qsub_eq | rewrite qmul_eq
               | rewrite qdiv_eq | rewrite qneg_eq ].

Lemma Qltb_lt (x y : Q) : Qltb x y = true <-> x < y.
Proof.
  unfold Qltb. rewrite negb_true_iff. split.
  - intros H. apply Qnot_le_lt. intros Hle. apply Qle_bool_iff in Hle. congruence.
  - intros H. destruct (Qle_bool y x) eqn:E; [|reflexivity].
    apply Qle_bool_iff in E. exfalso. apply (Qlt_not_le _ _ H E).
Qed.

Lemma Qltb_ge (x y : Q) : Qltb x y = false <-> y <= x.
Proof.
  unfold Qltb. rewrite negb_false_iff. apply Qle_bool_iff.
Qed.

Lemma Qeq_bool_false (x y : Q) : ~ x == y -> Qeq_bool x y = false.
Proof.
  intros H. destruct (Qeq_bool x y) eqn:E; [|reflexivity].
  apply Qeq_bool_iff in E. contradiction.
Qed.

Lemma inject_Z_succ (z : Z) : inject_Z (z + 1) == inject_Z z + 1.
Proof. rewrite inject_Z_plus. reflexivity. Qed.

Lemma qclamp_int (q : Q) (z : Z) :
  q == inject_Z z -> qclamp q == inject_Z (clampZ z).
Proof.
  intros Hq. unfold qclamp, clampZ.
  destruct (Qltb 3 q) eqn:E3.
  - apply Qltb_lt in E3. rewrite Hq in E3. change 3 with (inject_Z 3) in E3.
    rewrite <- Zlt_Qlt in E3.
    replace (Z.max 0 (Z.min z 3)) with 3%Z by lia. reflexivity.
  - apply Qltb_ge in E3. rewrite Hq in E3. change 3 with (inject_Z 3) in E3.
    rewrite <- Zle_Qle in E3.
    destruct (Qltb 0 q) eqn:E0.
    + apply Qltb_lt in E0. rewrite Hq in E0. change 0 with (inject_Z 0) in E0.
      rewrite <- Zlt_Qlt in E0.
      replace (Z.max 0 (Z.min z 3)) with z by lia. exact Hq.
    + apply Qltb_ge in E0. rewrite Hq in E0. change 0 with (inject_Z 0) in E0.
      rewrite <- Zle_Qle in E0.
      replace (Z.max 0 (Z.min z 3)) with 0%Z by lia. reflexivity.
Qed.

Lemma clampZ_range (z : Z) : (0 <= clampZ z <= 3)%Z.
Proof. unfold clampZ. lia. Qed.

(* ================================================================== *)
(** ** JavaScript operations on finite numbers *)

Lemma div_Num (a b : Q) : ~ b == 0 -> JS.div (Num a) (Num b) = Num (a /! b).
Proof. intros H. unfold JS.div. rewrite (Qeq_bool_false _ _ H). reflexivity. Qed.

Lemma clamp_Num (q : Q) :
  JS.max (Num 0) (JS.min (Num q) (Num 3)) = Num (qclamp q).
Proof.
  unfold JS.min, JS.max, JS.ltb, qclamp.
  destruct (Qltb 3 q); destruct (Qltb 0 _); reflexivity.
Qed.

Lemma index_int {A} (l : list A) (q : Q) (z : Z) :
  q == inject_Z z -> (0 <= z)%Z ->
  JS.index l (Num q) = nth_error l (Z.to_nat z).
Proof.
  intros Hq Hz. unfold JS.index.
  rewrite (Qfloor_comp _ _ Hq), Qfloor_Z.
  apply Qeq_bool_iff in Hq. rewrite Hq.
  apply Z.leb_le in Hz. rewrite Hz. reflexivity.
Qed.

Lemma grid_lookup (r c : Z) :
  (0 <= r <= 3)%Z -> (0 <= c <= 3)%Z ->
  exists row,
    nth_error DIGIPIN_GRID (Z.to_nat r) = Some row /\
    nth_error row (Z.to_nat c) = Some (symbolAt r c) /\
    CHAR_TO_POSITION (symbolAt r c) = Some (r, c) /\
    inAlphabet (symbolAt r c).
Proof.
  intros Hr Hc.
  assert (Er : (r = 0 \/ r = 1 \/ r = 2 \/ r = 3)%Z) by lia.
  assert (Ec : (c = 0 \/ c = 1 \/ c = 2 \/ c = 3)%Z) by lia.
  destruct Er as [-> | [-> | [-> | ->]]];
    destruct Ec as [-> | [-> | [-> | ->]]];
    (eexists; split; [reflexivity | split; [reflexivity | split; [reflexivity |]]];
     unfold inAlphabet; vm_compute; tauto).
Qed.

Lemma quarter_nonzero (a b : Q) : a < b -> ~ (b -! a) /! 4 == 0.
Proof.
  intros H. qexact. intros E.
  assert (E4 : b - a == (b - a) / 4 * 4) by field.
  rewrite E in E4. lra.
Qed.

Lemma sub_Num (a b : Q) : JS.sub (Num a) (Num b) = Num (a -! b).
Proof. reflexivity. Qed.

Lemma add_Num (a b : Q) : JS.add (Num a) (Num b) = Num (a +! b).
Proof. reflexivity. Qed.

Lemma mul_Num (a b : Q) : JS.mul (Num a) (Num b) = Num (a *! b).
Proof. reflexivity. Qed.

Lemma floor_Num (a : Q) : JS.floor (Num a) = Num (inject_Z (Qfloor a)).
Proof. reflexivity. Qed.

Ltac jsnum :=
  repeat first [ rewrite sub_Num | rewrite add_Num | rewrite mul_Num
               | rewrite floor_Num | rewrite clamp_Num ].

Lemma inject_Z_sub (x y : Z) : inject_Z (x - y) == inject_Z x - inject_Z y.
Proof. unfold Z.sub. rewrite inject_Z_plus, inject_Z_opp. ring. Qed.

Lemma encode_loop_step (n : nat) (level p : Z) (lat lon a b c d : Q)
    (acc : str) (bx : Box) :
  sameBox (mkBox a b c d) bx -> wellFormed bx ->
  exists a' b' c' d',
    sameBox (mkBox a' b' c' d') (narrow bx (rowZ bx lat) (colZ bx lon)) /\
    encode_loop (S n) level p (Num lat) (Num lon) (Num a) (Num b) (Num c) (Num d) acc
    = encode_loop n (level + 1) p (Num lat) (Num lon)
        (Num a') (Num b') (Num c') (Num d')
        (acc ++ withHyphens p level [symbolAt (rowZ bx lat) (colZ bx lon)]).
Proof.
  intros (Ha & Hb & Hc & Hd) (Wlat & Wlon). simpl in Ha, Hb, Hc, Hd.
  assert (Hab : a < b) by (rewrite Ha, Hb; exact Wlat).
  assert (Hcd : c < d) by (rewrite Hc, Hd; exact Wlon).
  cbn [encode_loop].
  rewrite !sub_Num.
  rewrite (div_Num (b -! a) 4), (div_Num (d -! c) 4) by discriminate.
  rewrite (div_Num _ _ (quarter_nonzero a b Hab)), (div_Num _ _ (quarter_nonzero c d Hcd)).
  jsnum.
  set (rq := qclamp (3 -! inject_Z (Qfloor ((lat -! a) /! ((b -! a) /! 4))))).
  set (cq := qclamp (inject_Z (Qfloor ((lon -! c) /! ((d -! c) /! 4))))).
  assert (Hrq : rq == inject_Z (rowZ bx lat)).
  { unfold rq, rowZ. apply qclamp_int. qexact. rewrite inject_Z_sub.
    apply Qplus_comp; [reflexivity|]. apply Qopp_comp.
    rewrite (Qfloor_comp ((lat - a) / ((b - a) / 4))
                         ((lat - minLat bx) / ((maxLat bx - minLat bx) / 4)));
      [reflexivity | rewrite Ha, Hb; reflexivity]. }
  assert (Hcq : cq == inject_Z (colZ bx lon)).
  { unfold cq, colZ. apply qclamp_int. qexact.
    rewrite (Qfloor_comp ((lon - c) / ((d - c) / 4))
                         ((lon - minLon bx) / ((maxLon bx - minLon bx) / 4)));
      [reflexivity | rewrite Hc, Hd; reflexivity]. }
  clearbody rq cq.
  pose proof (clampZ_range (3 - Qfloor ((lat - minLat bx) / ((maxLat bx - minLat bx) / 4)))) as Rr.
  pose proof (clampZ_range (Qfloor ((lon - minLon bx) / ((maxLon bx - minLon bx) / 4)))) as Rc.
  fold (rowZ bx lat) in Rr. fold (colZ bx lon) in Rc.
  destruct (grid_lookup _ _ Rr Rc) as (row & Hrow & Hsym & _).
  rewrite (index_int _ _ _ Hrq (proj1 Rr)), Hrow.
  rewrite (index_int _ _ _ Hcq (proj1 Rc)), Hsym.
  do 4 eexists. split; [|f_equal].
  - unfold sameBox, narrow. cbn [minLat maxLat minLon maxLon].
    repeat split; qexact; rewrite ?inject_Z_succ, ?Hrq, ?Hcq, ?Ha, ?Hb, ?Hc, ?Hd; field.
  - cbn [withHyphens].
    destruct ((p =? 10)%Z && ((level =? 3)%Z || (level =? 6)%Z));
      rewrite ?app_nil_r, <- ?app_assoc; reflexivity.
Qed.

(* ================================================================== *)
(** ** Narrowing a box *)

Lemma quarter_pos (a b : Q) : a < b -> 0 < (b - a) / 4.
Proof. intros H. apply Qlt_shift_div_l; lra. Qed.

Lemma narrow_wellFormed (b : Box) (r c : Z) :
  wellFormed b -> wellFormed (narrow b r c).
Proof.
  intros (Hlat & Hlon). unfold wellFormed, narrow. cbn [minLat maxLat minLon maxLon].
  pose proof (quarter_pos _ _ Hlat) as Wlat. pose proof (quarter_pos _ _ Hlon) as Wlon.
  split; qexact; rewrite ?inject_Z_succ.
  - set (w := (maxLat b - minLat b) / 4) in *. lra.
  - set (w := (maxLon b - minLon b) / 4) in *. lra.
Qed.

(** Where the quotient of the encoder falls, for a point of the closed
    interval [[A, B]] cut in four bands of width [w]. *)
Lemma band_floor (A B x : Q) :
  A < B -> A <= x -> x <= B ->
  let w := (B - A) / 4 in
  let f := Qfloor ((x - A) / w) in
  (0 <= f <= 4)%Z /\ A + inject_Z f * w <= x /\ x < A + (inject_Z f + 1) * w.
Proof.
  intros HAB HA HB w f.
  assert (Hw : 0 < w) by (apply quarter_pos; exact HAB).
  assert (H4 : 4 * w == B - A) by (unfold w; field).
  set (t := (x - A) / w) in *.
  assert (Ht : t * w == x - A) by (unfold t; field; lra).
  assert (Ht0 : 0 <= t) by (apply Qle_shift_div_l; lra).
  assert (Ht4 : t <= 4) by (apply Qle_shift_div_r; lra).
  pose proof (Qfloor_le t) as Hlo. pose proof (Qlt_floor t) as Hhi.
  fold f in Hlo, Hhi. rewrite inject_Z_succ in Hhi.
  split; [|split].
  - split.
    + change 0%Z with (Qfloor 0). apply Qfloor_resp_le. exact Ht0.
    + change 4%Z with (Qfloor 4). apply Qfloor_resp_le. exact Ht4.
  - apply (Qmult_le_compat_r _ _ w) in Hlo; lra.
  - apply (Qmult_lt_compat_r _ _ w) in Hhi; lra.
Qed.

Lemma row_band (A B x : Q) :
  A < B -> A <= x -> x <= B ->
  let w := (B - A) / 4 in
  let r := clampZ (3 - Qfloor ((x - A) / w)) in
  B - w * (inject_Z r + 1) <= x /\ x <= B - w * inject_Z r.
Proof.
  intros HAB HA HB w r.
  destruct (band_floor A B x HAB HA HB) as (Hf & Hlo & Hhi).
  fold w in Hf, Hlo, Hhi. unfold r. clear r.
  assert (H4 : 4 * w == B - A) by (unfold w; field).
  set (f := Qfloor ((x - A) / w)) in *. clearbody f.
  assert (Ef : (f = 0 \/ f = 1 \/ f = 2 \/ f = 3 \/ f = 4)%Z) by lia.
  destruct Ef as [-> | [-> | [-> | [-> | ->]]]];
    vm_compute (clampZ _); vm_compute (inject_Z _) in *; split; lra.
Qed.

Lemma col_band (A B x : Q) :
  A < B -> A <= x -> x <= B ->
  let w := (B - A) / 4 in
  let c := clampZ (Qfloor ((x - A) / w)) in
  A + w * inject_Z c <= x /\ x <= A + w * (inject_Z c + 1).
Proof.
  intros HAB HA HB w c.
  destruct (band_floor A B x HAB HA HB) as (Hf & Hlo & Hhi).
  fold w in Hf, Hlo, Hhi. unfold c. clear c.
  assert (H4 : 4 * w == B - A) by (unfold w; field).
  set (f := Qfloor ((x - A) / w)) in *. clearbody f.
  assert (Ef : (f = 0 \/ f = 1 \/ f = 2 \/ f = 3 \/ f = 4)%Z) by lia.
  destruct Ef as [-> | [-> | [-> | [-> | ->]]]];
    vm_compute (clampZ _); vm_compute (inject_Z _) in *; split; lra.
Qed.

Lemma narrow_contains (b : Box) (lat lon : Q) :
  wellFormed b -> contains b lat lon ->
  contains (narrow b (rowZ b lat) (colZ b lon)) lat lon.
Proof.
  intros (Wlat & Wlon) (H1 & H2 & H3 & H4).
  destruct (row_band _ _ _ Wlat H1 H2) as (R1 & R2).
  destruct (col_band _ _ _ Wlon H3 H4) as (C1 & C2).
  unfold contains, narrow, rowZ, colZ. cbn [minLat maxLat minLon maxLon].
  repeat split; qexact; rewrite ?inject_Z_succ; assumption.
Qed.

(* ================================================================== *)
(** ** The encoder on finite coordinates *)

Lemma rowZ_range (b : Box) (lat : Q) : (0 <= rowZ b lat <= 3)%Z.
Proof. apply clampZ_range. Qed.

Lemma colZ_range (b : Box) (lon : Q) : (0 <= colZ b lon <= 3)%Z.
Proof. apply clampZ_range. Qed.

Lemma withHyphens_cons (p level : Z) (ch : ascii) (rest : str) :
  withHyphens p level (ch :: rest)
  = withHyphens p level [ch] ++ withHyphens p (level + 1) rest.
Proof.
  cbn [withHyphens]. rewrite app_nil_r.
  destruct ((p =? 10)%Z && ((level =? 3)%Z || (level =? 6)%Z)); reflexivity.
Qed.

Lemma encode_loop_symbols (n : nat) :
  forall (level p : Z) (lat lon a b c d : Q) (acc : str) (bx : Box),
    sameBox (mkBox a b c d) bx -> wellFormed bx ->
    encode_loop n level p (Num lat) (Num lon) (Num a) (Num b) (Num c) (Num d) acc
    = OK (acc ++ withHyphens p level (symbols n lat lon bx)).
Proof.
  induction n as [|n IH]; intros level p lat lon a b c d acc bx Hsame Hwf.
  - simpl. rewrite app_nil_r. reflexivity.
  - destruct (encode_loop_step n level p lat lon a b c d acc bx Hsame Hwf)
      as (a' & b' & c' & d' & Hsame' & ->).
    rewrite (IH _ _ _ _ _ _ _ _ _ _ Hsame' (narrow_wellFormed _ _ _ Hwf)).
    cbn [symbols]. rewrite <- app_assoc, <- withHyphens_cons. reflexivity.
Qed.

Lemma BOUNDS_wellFormed : wellFormed BOUNDS.
Proof. split; reflexivity. Qed.

Lemma sameBox_refl (b : Box) :
  sameBox (mkBox (minLat b) (maxLat b) (minLon b) (maxLon b)) b.
Proof. repeat split; reflexivity. Qed.

Lemma encode_finite (lat lon : Q) (p : Z) :
  contains BOUNDS lat lon -> (1 <= p <= 10)%Z ->
  encode (Num lat) (Num lon) p
  = OK (withHyphens p 1 (symbols (Z.to_nat p) lat lon BOUNDS)).
Proof.
  intros (H1 & H2 & H3 & H4) Hp. unfold encode.
  replace ((p <? 1)%Z || (p >? 10)%Z) with false
    by (symmetry; apply orb_false_iff; split; [apply Z.ltb_ge | rewrite Z.gtb_ltb; apply Z.ltb_ge]; lia).
  unfold JS.gtb, JS.ltb.
  rewrite (proj2 (Qltb_ge _ _) H1), (proj2 (Qltb_ge _ _) H2),
          (proj2 (Qltb_ge _ _) H3), (proj2 (Qltb_ge _ _) H4).
  cbn [orb].
  rewrite (encode_loop_symbols _ _ _ _ _ _ _ _ _ _ BOUNDS (sameBox_refl BOUNDS) BOUNDS_wellFormed).
  reflexivity.
Qed.

Lemma symbols_length (n : nat) (lat lon : Q) (b : Box) :
  length (symbols n lat lon b) = n.
Proof.
  revert b. induction n as [|n IH]; intros b; [reflexivity|].
  cbn [symbols length]. rewrite IH. reflexivity.
Qed.

Lemma symbolAt_alphabet (r c : Z) :
  (0 <= r <= 3)%Z -> (0 <= c <= 3)%Z -> inAlphabet (symbolAt r c).
Proof. intros Hr Hc. destruct (grid_lookup r c Hr Hc) as (_ & _ & _ & _ & H). exact H. Qed.

Lemma symbols_alphabet (n : nat) (lat lon : Q) (b : Box) :
  Forall inAlphabet (symbols n lat lon b).
Proof.
  revert b. induction n as [|n IH]; intros b; [constructor|].
  cbn [symbols]. constructor; [|apply IH].
  apply symbolAt_alphabet; [apply rowZ_range | apply colZ_range].
Qed.

Lemma stripHyphens_withHyphens (p level : Z) (syms : str) :
  sanitized syms -> stripHyphens (withHyphens p level syms) = syms.
Proof.
  revert level. induction syms as [|ch rest IH]; intros level Hs; [reflexivity|].
  assert (Hch : ch <> hyphen) by (intros ->; apply Hs; left; reflexivity).
  assert (Hrest : sanitized rest) by (intros Hin; apply Hs; right; exact Hin).
  apply Ascii.eqb_neq in Hch.
  cbn [withHyphens]. unfold stripHyphens in *. cbn [filter]. rewrite Hch. cbn [negb].
  f_equal. rewrite filter_app, (IH _ Hrest).
  destruct ((p =? 10)%Z && ((level =? 3)%Z || (level =? 6)%Z)); reflexivity.
Qed.

Lemma withHyphens_short (p level : Z) (syms : str) :
  p <> 10%Z -> withHyphens p level syms = syms.
Proof.
  intros Hp. apply Z.eqb_neq in Hp.
  revert level. induction syms as [|ch rest IH]; intros level; [reflexivity|].
  cbn [withHyphens]. rewrite Hp, IH. reflexivity.
Qed.

Lemma withHyphens_full (syms : str) :
  length syms = 10%nat -> withHyphens 10 1 syms = grouped syms.
Proof.
  intros H.
  do 10 (destruct syms as [|? syms]; [discriminate|]).
  destruct syms; [reflexivity | discriminate].
Qed.

(* ================================================================== *)
(** ** The decoder on the encoder's symbols *)

Lemma decode_loop_symbols (n : nat) (lat lon : Q) :
  forall (i : Z) (b : Box),
    decode_loop (symbols n lat lon b) i b = OK (cellOf n lat lon b).
Proof.
  induction n as [|n IH]; intros i b; [reflexivity|].
  cbn [symbols cellOf decode_loop].
  destruct (grid_lookup _ _ (rowZ_range b lat) (colZ_range b lon)) as (_ & _ & _ & -> & _).
  apply IH.
Qed.

Lemma cellOf_contains (n : nat) (lat lon : Q) :
  forall b : Box, wellFormed b -> contains b lat lon ->
    contains (cellOf n lat lon b) lat lon.
Proof.
  induction n as [|n IH]; intros b Hwf Hc; [exact Hc|].
  cbn [cellOf]. apply IH; [apply narrow_wellFormed | apply narrow_contains]; assumption.
Qed.

Lemma decode_encoded (lat lon : Q) (p : Z) :
  (1 <= p <= 10)%Z ->
  let b := cellOf (Z.to_nat p) lat lon BOUNDS in
  decode (withHyphens p 1 (symbols (Z.to_nat p) lat lon BOUNDS))
  = OK {| latitude := (minLat b +! maxLat b) /! 2;
          longitude := (minLon b +! maxLon b) /! 2;
          precision := p;
          bounds := {| north := maxLat b; south := minLat b;
                       east := maxLon b; west := minLon b |};
          accuracy := {| latDegrees := maxLat b -! minLat b;
                         lonDegrees := maxLon b -! minLon b |} |}.
Proof.
  intros Hp b. unfold decode, decodeWith.
  pose proof (symbols_alphabet (Z.to_nat p) lat lon BOUNDS) as Halpha.
  rewrite (stripHyphens_withHyphens _ _ _ (sanitized_alphabet _ Halpha)).
  rewrite (toUpperCase_alphabet _ Halpha), symbols_length.
  replace ((Z.to_nat p =? 0)%nat || (10 <? Z.to_nat p)%nat) with false
    by (symmetry; apply orb_false_iff; split; [apply Nat.eqb_neq | apply Nat.ltb_ge]; lia).
  rewrite decode_loop_symbols. fold b. rewrite Z2Nat.id by lia. reflexivity.
Qed.

(* ================================================================== *)
(** ** Round trip and separator grouping *)

Lemma roundtrip_containment_aux (lat lon : Q) (p : Z) :
  contains BOUNDS lat lon -> (1 <= p <= 10)%Z ->
  exists code d,
    encode (Num lat) (Num lon) p = OK code /\
    decode code = OK d /\
    precision d = p /\
    boundsContain (bounds d) lat lon.
Proof.
  intros Hin Hp.
  eexists. eexists. split; [apply (encode_finite lat lon p Hin Hp)|].
  split; [apply (decode_encoded lat lon p Hp)|].
  split; [reflexivity|].
  pose proof (cellOf_contains (Z.to_nat p) lat lon BOUNDS BOUNDS_wellFormed Hin) as Hc.
  unfold contains in Hc. unfold boundsContain. cbn [bounds north south east west].
  tauto.
Qed.

(** C1 -- Round-trip containment.  For every finite coordinate in the
    closed root rectangle (in particular every point strictly inside it,
    away from the quadrant boundaries) and every precision in [1,10],
    [encode] returns a code, [decode] accepts it, and the bounds [decode]
    returns contain the coordinate. *)
Theorem roundtrip_containment (lat lon : Q) (p : Z) :
  contains BOUNDS lat lon -> (1 <= p <= 10)%Z ->
  exists code d,
    encode (Num lat) (Num lon) p = OK code /\
    decode code = OK d /\
    boundsContain (bounds d) lat lon.
Proof.
  intros Hin Hp.
  destruct (roundtrip_containment_aux lat lon p Hin Hp) as (code & d & H1 & H2 & _ & H3).
  exists code, d. auto.
Qed.

Lemma roundtrip_containment_witness :
  contains BOUNDS 28.6139 77.2090 /\
  exists code d,
    encode (Num 28.6139) (Num 77.2090) 10 = OK code /\
    decode code = OK d /\
    boundsContain (bounds d) 28.6139 77.2090.
Proof.
  assert (H : contains BOUNDS 28.6139 77.2090)
    by (unfold contains; repeat split; vm_compute; discriminate).
  split; [exact H|].
  apply (roundtrip_containment 28.6139 77.2090 10 H). lia.
Defined.

(** C4 -- Separator grouping.  On a valid coordinate, [encode] at a
    precision in [1,9] returns that many alphabet symbols and no
    separator; at precision 10 it returns ten alphabet symbols grouped
    [AAA-BBB-CCCC], a separator after the 3rd and after the 6th symbol. *)
Theorem separator_grouping (lat lon : Q) (p : Z) :
  contains BOUNDS lat lon -> (1 <= p <= 10)%Z ->
  exists syms,
    length syms = Z.to_nat p /\ Forall inAlphabet syms /\ sanitized syms /\
    ((p <= 9)%Z -> encode (Num lat) (Num lon) p = OK syms) /\
    (p = 10%Z ->
       encode (Num lat) (Num lon) p
       = OK (slice 0 3 syms ++ [hyphen] ++ slice 3 6 syms ++ [hyphen] ++ sliceFrom 6 syms)).
Proof.
  intros Hin Hp.
  exists (symbols (Z.to_nat p) lat lon BOUNDS).
  pose proof (symbols_alphabet (Z.to_nat p) lat lon BOUNDS) as Halpha.
  split; [apply symbols_length|]. split; [exact Halpha|].
  split; [apply sanitized_alphabet; exact Halpha|].
  rewrite (encode_finite lat lon p Hin Hp). split.
  - intros H9. rewrite withHyphens_short by lia. reflexivity.
  - intros ->. rewrite withHyphens_full by apply symbols_length. reflexivity.
Qed.

Lemma separator_grouping_witness :
  contains BOUNDS 19.0760 72.8777 /\
  exists syms,
    length syms = Z.to_nat 10 /\ Forall inAlphabet syms /\ sanitized syms /\
    ((10 <= 9)%Z -> encode (Num 19.0760) (Num 72.8777) 10 = OK syms) /\
    (10%Z = 10%Z ->
       encode (Num 19.0760) (Num 72.8777) 10
       = OK (slice 0 3 syms ++ [hyphen] ++ slice 3 6 syms ++ [hyphen] ++ sliceFrom 6 syms)).
Proof.
  assert (H : contains BOUNDS 19.0760 72.8777)
    by (unfold contains; repeat split; vm_compute; discriminate).
  split; [exact H|].
  apply (separator_grouping 19.0760 72.8777 10 H). lia.
Defined.

(* ================================================================== *)
(** ** The reverse alphabet map *)

Lemma lookup_In (tbl : positionTable) (ch : ascii) (v : Z * Z) :
  lookup tbl ch = Some v -> In (ch, v) tbl.
Proof.
  induction tbl as [|[k w] tbl IH]; [discriminate|].
  cbn [lookup]. destruct (Ascii.eqb k ch) eqn:E.
  - apply Ascii.eqb_eq in E. intros [= ->]. left. rewrite E. reflexivity.
  - intros H. right. apply IH. exact H.
Qed.

Lemma CHAR_TO_POSITION_Some (ch : ascii) (r c : Z) :
  CHAR_TO_POSITION ch = Some (r, c) ->
  (0 <= r <= 3)%Z /\ (0 <= c <= 3)%Z /\ ch = symbolAt r c.
Proof.
  intros H. apply lookup_In in H. vm_compute in H.
  repeat (destruct H as [[= <- <- <-] | H]; [repeat split; lia|]).
  destruct H.
Qed.

Lemma CHAR_TO_POSITION_alphabet (ch : ascii) :
  inAlphabet ch <-> exists r c, CHAR_TO_POSITION ch = Some (r, c).
Proof.
  split.
  - intros H.
    apply (alphabet_cases ch (fun ch => exists r c, CHAR_TO_POSITION ch = Some (r, c)) H).
    repeat (constructor; [do 2 eexists; reflexivity|]). constructor.
  - intros (r & c & H). apply CHAR_TO_POSITION_Some in H.
    destruct H as (Hr & Hc & ->). apply symbolAt_alphabet; assumption.
Qed.

Lemma CHAR_TO_POSITION_None (ch : ascii) :
  ~ inAlphabet ch <-> CHAR_TO_POSITION ch = None.
Proof.
  rewrite CHAR_TO_POSITION_alphabet. split.
  - intros H. destruct (CHAR_TO_POSITION ch) as [[r c]|]; [|reflexivity].
    exfalso. apply H. eauto.
  - intros -> (r & c & H). discriminate.
Qed.

(* ================================================================== *)
(** ** The decoder's loop *)

Lemma decode_loop_app (s t : str) :
  forall (i : Z) (b : Box),
    decode_loop (s ++ t) i b
    = match decode_loop s i b with
      | OK b' => decode_loop t (i + Z.of_nat (length s)) b'
      | Err e => Err e
      end.
Proof.
  induction s as [|ch s IH]; intros i b.
  - cbn [app decode_loop length]. rewrite Z.add_0_r. reflexivity.
  - cbn [app decode_loop]. destruct (CHAR_TO_POSITION ch) as [[r c]|]; [|reflexivity].
    rewrite IH. replace (i + 1 + Z.of_nat (length s))%Z with (i + Z.of_nat (length (ch :: s)))%Z
      by (cbn [length]; lia).
    reflexivity.
Qed.

(** The loop succeeds exactly on strings over the alphabet. *)
Lemma decode_loop_OK (pin : str) :
  forall (i : Z) (b : Box),
    (exists b', decode_loop pin i b = OK b') <-> Forall inAlphabet pin.
Proof.
  induction pin as [|ch pin IH]; intros i b.
  - split; [constructor | intros _; eexists; reflexivity].
  - cbn [decode_loop]. split.
    + intros (b' & H). destruct (CHAR_TO_POSITION ch) as [[r c]|] eqn:E; [|discriminate].
      constructor.
      * apply CHAR_TO_POSITION_alphabet. eauto.
      * apply (IH (i + 1)%Z (narrow b r c)). eauto.
    + intros H. inversion H as [|? ? Hch Hpin]; subst.
      apply CHAR_TO_POSITION_alphabet in Hch. destruct Hch as (r & c & ->).
      apply IH. exact Hpin.
Qed.

(** A failure of the loop names the first symbol outside the alphabet and
    its position, counted from [i + 1]. *)
Lemma decode_loop_Err (pin : str) :
  forall (i : Z) (b : Box) (e : error),
    decode_loop pin i b = Err e ->
    exists (pre : str) (ch : ascii) (post : str),
      pin = pre ++ ch :: post /\ Forall inAlphabet pre /\ ~ inAlphabet ch /\
      e = InvalidCharacter ch (i + Z.of_nat (length pre) + 1).
Proof.
  induction pin as [|ch pin IH]; intros i b e; [discriminate|].
  cbn [decode_loop]. destruct (CHAR_TO_POSITION ch) as [[r c]|] eqn:E.
  - intros H. destruct (IH _ _ _ H) as (pre & ch' & post & -> & Hpre & Hch & ->).
    exists (ch :: pre), ch', post. split; [reflexivity|]. split.
    + constructor; [apply CHAR_TO_POSITION_alphabet; eauto | exact Hpre].
    + split; [exact Hch|]. f_equal. cbn [length]. lia.
  - intros [= <-]. exists [], ch, pin. split; [reflexivity|]. split; [constructor|].
    split; [apply CHAR_TO_POSITION_None; exact E|]. f_equal. cbn [length]. lia.
Qed.

Lemma decode_loop_wellFormed (pin : str) :
  forall (i : Z) (b b' : Box),
    decode_loop pin i b = OK b' -> wellFormed b -> wellFormed b'.
Proof.
  induction pin as [|ch pin IH]; intros i b b'; cbn [decode_loop].
  - intros [= <-] H. exact H.
  - destruct (CHAR_TO_POSITION ch) as [[r c]|]; [|discriminate].
    intros H Hwf. apply (IH _ _ _ H). apply narrow_wellFormed. exact Hwf.
Qed.

Lemma decode_OK_inv (digiPin : str) (d : Decoded) :
  decode digiPin = OK d ->
  let pin := toUpperCase (stripHyphens digiPin) in
  (1 <= length pin <= 10)%nat /\
  exists b, decode_loop pin 0 BOUNDS = OK b /\ d = decodedOf pin b.
Proof.
  intros H pin. unfold decode, decodeWith in H. fold pin in H.
  destruct ((length pin =? 0)%nat || (10 <? length pin)%nat) eqn:E; [discriminate|].
  apply orb_false_iff in E. destruct E as (E0 & E10).
  apply Nat.eqb_neq in E0. apply Nat.ltb_ge in E10.
  split; [lia|].
  destruct (decode_loop pin 0 BOUNDS) as [b|e]; [|discriminate].
  exists b. split; [reflexivity|]. injection H as <-. reflexivity.
Qed.

Lemma decode_OK_intro (digiPin : str) (b : Box) :
  let pin := toUpperCase (stripHyphens digiPin) in
  (1 <= length pin <= 10)%nat ->
  decode_loop pin 0 BOUNDS = OK b ->
  decode digiPin = OK (decodedOf pin b).
Proof.
  intros pin Hlen Hloop. unfold decode, decodeWith. fold pin.
  replace ((length pin =? 0)%nat || (10 <? length pin)%nat) with false
    by (symmetry; apply orb_false_iff; split; [apply Nat.eqb_neq | apply Nat.ltb_ge]; lia).
  rewrite Hloop. reflexivity.
Qed.

(* ================================================================== *)
(** ** Preconditions of decode *)

Lemma decode_loop_first_invalid (pre : str) (ch : ascii) (post : str) (i : Z) (b : Box) :
  Forall inAlphabet pre -> ~ inAlphabet ch ->
  decode_loop (pre ++ ch :: post) i b
  = Err (InvalidCharacter ch (i + Z.of_nat (length pre) + 1)).
Proof.
  intros Hpre Hch. rewrite decode_loop_app.
  destruct (proj2 (decode_loop_OK pre i b) Hpre) as (b' & ->).
  cbn [decode_loop]. apply CHAR_TO_POSITION_None in Hch. rewrite Hch. reflexivity.
Qed.

(** C6 -- Decode preconditions, for every input string.  With [pin] the
    input after separator removal and upper-casing, whatever the built-in
    upper-casing does to the string (on the sharp s, U+00DF, it gives
    'SS', one character more): [decode] succeeds exactly when [pin] has length 1..10 and every
    symbol is in the alphabet; every failure is a format error; a [pin]
    of another length is refused with that length; and when the length is
    valid the error names the first symbol outside the alphabet and its
    1-based position. *)
Theorem decode_preconditions (upper : str -> str) (digiPin : str) :
  let pin := upper (stripHyphens digiPin) in
  ((exists d, decodeWith upper digiPin = OK d) <->
   ((1 <= length pin <= 10)%nat /\ Forall inAlphabet pin)) /\
  (forall e, decodeWith upper digiPin = Err e -> kindOf e = FormatError) /\
  (~ (1 <= length pin <= 10)%nat ->
   decodeWith upper digiPin = Err (InvalidLength (length pin))) /\
  (forall pre ch post,
     (1 <= length pin <= 10)%nat ->
     pin = pre ++ ch :: post -> Forall inAlphabet pre -> ~ inAlphabet ch ->
     decodeWith upper digiPin = Err (InvalidCharacter ch (Z.of_nat (length pre) + 1))) /\
  decode digiPin = decodeWith toUpperCase digiPin.
Proof.
  intros pin.
  assert (Hguard : (1 <= length pin <= 10)%nat ->
                   (length pin =? 0)%nat || (10 <? length pin)%nat = false).
  { intros H. apply orb_false_iff. split; [apply Nat.eqb_neq | apply Nat.ltb_ge]; lia. }
  assert (Hrefuse : ~ (1 <= length pin <= 10)%nat ->
                    (length pin =? 0)%nat || (10 <? length pin)%nat = true).
  { intros H. apply orb_true_iff.
    destruct (Nat.eqb_spec (length pin) 0); [left; reflexivity|].
    right. apply Nat.ltb_lt. lia. }
  split; [|split; [|split; [|split; [|reflexivity]]]].
  - unfold decodeWith. fold pin. split.
    + intros (d & H).
      destruct ((length pin =? 0)%nat || (10 <? length pin)%nat) eqn:E; [discriminate H|].
      apply orb_false_iff in E. destruct E as (E0 & E10).
      apply Nat.eqb_neq in E0. apply Nat.ltb_ge in E10. split; [lia|].
      destruct (decode_loop pin 0 BOUNDS) as [b|e] eqn:Hloop; [|discriminate H].
      apply (decode_loop_OK pin 0 BOUNDS). eauto.
    + intros (Hlen & Halpha). rewrite (Hguard Hlen).
      destruct (proj2 (decode_loop_OK pin 0 BOUNDS) Halpha) as (b & ->).
      eexists. reflexivity.
  - intros e. unfold decodeWith. fold pin.
    destruct ((length pin =? 0)%nat || (10 <? length pin)%nat); [intros [= <-]; reflexivity|].
    destruct (decode_loop pin 0 BOUNDS) as [b|e'] eqn:E; [discriminate|].
    intros [= <-]. destruct (decode_loop_Err _ _ _ _ E) as (pre & ch & post & _ & _ & _ & ->).
    reflexivity.
  - intros Hlen. unfold decodeWith. fold pin. rewrite (Hrefuse Hlen). reflexivity.
  - intros pre ch post Hlen Hpin Hpre Hch. unfold decodeWith. fold pin.
    rewrite (Hguard Hlen), Hpin, (decode_loop_first_invalid pre ch post 0 BOUNDS Hpre Hch).
    reflexivity.
Qed.

(** An upper-casing that, beyond the ASCII letters, knows the mapping of
    the sharp s (character 223) to 'SS'. *)
Example decode_sharp_s :
  decodeWith (flat_map (fun c => if Ascii.eqb c (ascii_of_nat 223) then lit "SS"
                                 else [upperChar c]))
             (lit "39J438TJC" ++ [ascii_of_nat 223])
  = Err (InvalidLength 11).
Proof. reflexivity. Qed.

Example decode_invalid_symbol :
  decode (lit "39-x") = Err (InvalidCharacter "X" 3).
Proof. reflexivity. Qed.

Example decode_empty : decode (lit "--") = Err (InvalidLength 0).
Proof. reflexivity. Qed.

Example decode_too_long : decode (lit "39J-438-TJC7-F") = Err (InvalidLength 11).
Proof. reflexivity. Qed.

(* ================================================================== *)
(** ** Parent and children *)

(** C10 -- [getParent] and [getChildren] look at the length of the
    separator-stripped code and at nothing else: [getParent] throws
    exactly when that length is at most 1 and otherwise returns the
    stripped code without its last character, whatever the characters
    are; [getChildren] throws exactly when the length is at least 10. *)
Theorem parent_children_length_only (code : str) :
  let cleanPin := stripHyphens code in
  ((exists e, getParent code = Err e) <-> (length cleanPin <= 1)%nat) /\
  ((1 < length cleanPin)%nat -> getParent code = OK (dropLast cleanPin)) /\
  ((exists e, getChildren code = Err e) <-> (10 <= length cleanPin)%nat) /\
  ((length cleanPin < 10)%nat -> exists l, getChildren code = OK l).
Proof.
  intros cleanPin. unfold getParent, getChildren. fold cleanPin.
  destruct (Nat.leb_spec (length cleanPin) 1) as [H1|H1];
    destruct (Nat.leb_spec 10 (length cleanPin)) as [H10|H10];
    repeat split; try solve [intros; lia | intros; eauto | intros (e & [=])].
Qed.

Example parent_outside_alphabet : getParent (lit "x-y?z") = OK (lit "xy?").
Proof. reflexivity. Qed.

Lemma getParent_snoc (s : str) (ch : ascii) :
  sanitized s -> ch <> hyphen -> (1 <= length s)%nat ->
  getParent (s ++ [ch]) = OK s.
Proof.
  intros Hs Hch Hlen. unfold getParent.
  assert (Hsan : sanitized (s ++ [ch])).
  { intros Hin. apply in_app_or in Hin. destruct Hin as [Hin | [-> | []]]; [exact (Hs Hin) | exact (Hch eq_refl)]. }
  rewrite (stripHyphens_sanitized _ Hsan), length_app. cbn [length].
  destruct (Nat.leb_spec (length s + 1) 1); [lia|].
  rewrite dropLast_snoc. reflexivity.
Qed.

Lemma getParent_grouped (s : str) (ch : ascii) :
  sanitized s -> ch <> hyphen -> (1 <= length s)%nat ->
  getParent (grouped (s ++ [ch])) = OK s.
Proof.
  intros Hs Hch Hlen.
  assert (Hsan : sanitized (s ++ [ch])).
  { intros Hin. apply in_app_or in Hin. destruct Hin as [Hin | [-> | []]]; [exact (Hs Hin) | exact (Hch eq_refl)]. }
  pose proof (getParent_snoc s ch Hs Hch Hlen) as H.
  unfold getParent in *. rewrite (stripHyphens_grouped _ Hsan).
  rewrite (stripHyphens_sanitized _ Hsan) in H. exact H.
Qed.

(** C2 (as the code has it) -- For a code [C] without separators, of
    length 1..9, [getChildren] returns 16 codes, one per alphabet symbol
    in row-major order: [C] followed by the symbol, and, when that makes
    ten symbols, in the display form [AAA-BBB-CCCC].  Stripped of
    separators the k-th child is [C] followed by the k-th symbol, and
    [getParent] of every child is [C]. *)
Theorem children_parent (C : str) :
  sanitized C -> (1 <= length C <= 9)%nat ->
  exists l,
    getChildren C = OK l /\
    length l = 16%nat /\
    l = map (fun ch => if (length C =? 9)%nat then grouped (C ++ [ch]) else C ++ [ch])
            DIGIPIN_CHARS /\
    map stripHyphens l = map (fun ch => C ++ [ch]) DIGIPIN_CHARS /\
    (forall K, In K l -> getParent K = OK C).
Proof.
  intros Hs Hlen. unfold getChildren. rewrite (stripHyphens_sanitized _ Hs).
  destruct (Nat.leb_spec 10 (length C)); [lia|].
  eexists. split; [reflexivity|].
  assert (Hcond : forall ch, (length (C ++ [ch]) =? 10)%nat = (length C =? 9)%nat).
  { intros ch. rewrite length_app. cbn [length].
    destruct (Nat.eqb_spec (length C) 9); [apply Nat.eqb_eq | apply Nat.eqb_neq]; lia. }
  assert (Hsan : forall ch, In ch DIGIPIN_CHARS -> sanitized (C ++ [ch])).
  { intros ch Hch Hin. apply in_app_or in Hin.
    destruct Hin as [Hin | [-> | []]]; [exact (Hs Hin)|].
    exact (alphabet_not_hyphen _ Hch eq_refl). }
  split; [rewrite length_map; reflexivity|]. split; [|split].
  - apply map_ext. intros ch. rewrite Hcond. reflexivity.
  - rewrite map_map. apply map_ext_in. intros ch Hch. rewrite Hcond.
    destruct (length C =? 9)%nat.
    + apply (stripHyphens_grouped _ (Hsan ch Hch)).
    + apply (stripHyphens_sanitized _ (Hsan ch Hch)).
  - intros K HK. apply in_map_iff in HK. destruct HK as (ch & <- & Hch).
    rewrite Hcond. pose proof (alphabet_not_hyphen ch Hch) as Hne.
    destruct (length C =? 9)%nat.
    + apply (getParent_grouped C ch Hs Hne). lia.
    + apply (getParent_snoc C ch Hs Hne). lia.
Qed.

Ltac not_in_list :=
  let H := fresh in
  intros H; cbn in H; repeat (destruct H as [H|H]; [discriminate H|]); exact H.

Lemma children_parent_witness :
  sanitized (lit "39J438TJC") /\
  exists l,
    getChildren (lit "39J438TJC") = OK l /\
    length l = 16%nat /\
    l = map (fun ch => if (length (lit "39J438TJC") =? 9)%nat
                       then grouped (lit "39J438TJC" ++ [ch]) else lit "39J438TJC" ++ [ch])
            DIGIPIN_CHARS /\
    map stripHyphens l = map (fun ch => lit "39J438TJC" ++ [ch]) DIGIPIN_CHARS /\
    (forall K, In K l -> getParent K = OK (lit "39J438TJC")).
Proof.
  assert (H : sanitized (lit "39J438TJC")) by (unfold sanitized; not_in_list).
  split; [exact H|].
  apply (children_parent (lit "39J438TJC") H). cbn. lia.
Defined.

(** C2, counterexample to the claim as stated: the children of a
    9-symbol code are not the code with a symbol appended but carry two
    separators. *)
Lemma children_level9_not_appended :
  sanitized (lit "39J438TJC") /\ length (lit "39J438TJC") = 9%nat /\
  getChildren (lit "39J438TJC")
  <> OK (map (fun ch => lit "39J438TJC" ++ [ch]) DIGIPIN_CHARS).
Proof.
  split; [unfold sanitized; not_in_list|]. split; [reflexivity|].
  vm_compute. discriminate.
Qed.

(* ================================================================== *)
(** ** Monotonic nesting *)

Lemma narrow_inside (b : Box) (r c : Z) :
  wellFormed b -> (0 <= r <= 3)%Z -> (0 <= c <= 3)%Z ->
  let b' := narrow b r c in
  minLat b <= minLat b' /\ maxLat b' <= maxLat b /\
  minLon b <= minLon b' /\ maxLon b' <= maxLon b /\
  (minLat b < minLat b' \/ maxLat b' < maxLat b).
Proof.
  intros (Hlat & Hlon) Hr Hc b'. unfold b', narrow. cbn [minLat maxLat minLon maxLon].
  pose proof (quarter_pos _ _ Hlat) as Wlat. pose proof (quarter_pos _ _ Hlon) as Wlon.
  assert (Elat : 4 * ((maxLat b - minLat b) / 4) == maxLat b - minLat b) by field.
  assert (Elon : 4 * ((maxLon b - minLon b) / 4) == maxLon b - minLon b) by field.
  qexact. rewrite !inject_Z_succ.
  set (w := (maxLat b - minLat b) / 4) in *. set (v := (maxLon b - minLon b) / 4) in *.
  clearbody w v.
  assert (Er : (r = 0 \/ r = 1 \/ r = 2 \/ r = 3)%Z) by lia.
  assert (Ec : (c = 0 \/ c = 1 \/ c = 2 \/ c = 3)%Z) by lia.
  destruct Er as [-> | [-> | [-> | ->]]];
    destruct Ec as [-> | [-> | [-> | ->]]];
    vm_compute (inject_Z _); repeat split; try lra; (left; lra) || (right; lra).
Qed.

Lemma dropLast_split (s : str) :
  (1 <= length s)%nat -> exists ch, s = dropLast s ++ [ch].
Proof.
  intros H. unfold dropLast.
  pose proof (firstn_skipn (length s - 1) s) as E.
  pose proof (length_skipn (length s - 1) s) as L.
  destruct (skipn (length s - 1) s) as [|ch [|? ?]] eqn:K; cbn [length] in L; try lia.
  exists ch. symmetry. exact E.
Qed.

Lemma dropLast_length (s : str) : length (dropLast s) = (length s - 1)%nat.
Proof. unfold dropLast. rewrite length_firstn. lia. Qed.

Lemma toUpperCase_length (s : str) : length (toUpperCase s) = length s.
Proof. apply length_map. Qed.

Lemma toUpperCase_dropLast (s : str) : toUpperCase (dropLast s) = dropLast (toUpperCase s).
Proof.
  unfold dropLast, toUpperCase. rewrite length_map. symmetry. apply firstn_map.
Qed.

Lemma decode_loop_snoc (s : str) (ch : ascii) (i : Z) (b b' : Box) :
  decode_loop (s ++ [ch]) i b = OK b' ->
  exists b1 r c,
    decode_loop s i b = OK b1 /\ CHAR_TO_POSITION ch = Some (r, c) /\
    b' = narrow b1 r c.
Proof.
  rewrite decode_loop_app. destruct (decode_loop s i b) as [b1|e]; [|discriminate].
  cbn [decode_loop]. destruct (CHAR_TO_POSITION ch) as [[r c]|]; [|discriminate].
  intros [= <-]. eauto 6.
Qed.

(** C7 -- Monotonic nesting.  For every code [decode] accepts whose
    sanitized length is at least 2, [getParent] returns its prefix one
    symbol shorter, [decode] accepts the prefix, the bounds of the code
    lie inside the bounds of the prefix, and at least one edge lies
    strictly inside. *)
Theorem monotonic_nesting (C : str) (d : Decoded) :
  decode C = OK d -> (2 <= precision d)%Z ->
  exists P dP,
    getParent C = OK P /\
    decode P = OK dP /\
    precision dP = (precision d - 1)%Z /\
    boundsInside (bounds d) (bounds dP) /\
    someEdgeStrict (bounds d) (bounds dP).
Proof.
  intros Hdec Hprec.
  destruct (decode_OK_inv _ _ Hdec) as (Hlen & b & Hloop & ->).
  set (pin := toUpperCase (stripHyphens C)) in *.
  cbn [precision decodedOf] in Hprec.
  assert (Hclean : length (stripHyphens C) = length pin)
    by (unfold pin; rewrite toUpperCase_length; reflexivity).
  exists (dropLast (stripHyphens C)).
  assert (Hpar : getParent C = OK (dropLast (stripHyphens C))).
  { unfold getParent. destruct (Nat.leb_spec (length (stripHyphens C)) 1); [lia | reflexivity]. }
  assert (HpinP : toUpperCase (stripHyphens (dropLast (stripHyphens C))) = dropLast pin).
  { rewrite stripHyphens_sanitized
      by (apply sanitized_firstn, stripHyphens_is_sanitized).
    apply toUpperCase_dropLast. }
  destruct (dropLast_split pin) as (ch & Hsplit); [lia|].
  rewrite Hsplit in Hloop.
  destruct (decode_loop_snoc _ _ _ _ _ Hloop) as (b1 & r & c & Hloop1 & Hpos & ->).
  pose proof (decode_loop_wellFormed _ _ _ _ Hloop1 BOUNDS_wellFormed) as Hwf.
  destruct (CHAR_TO_POSITION_Some _ _ _ Hpos) as (Hr & Hc & _).
  destruct (narrow_inside b1 r c Hwf Hr Hc) as (I1 & I2 & I3 & I4 & Istrict).
  exists (decodedOf (dropLast pin) b1).
  split; [exact Hpar|]. split.
  - rewrite <- HpinP. apply decode_OK_intro; rewrite HpinP.
    + rewrite dropLast_length. lia.
    + exact Hloop1.
  - split.
    + cbn [precision decodedOf]. rewrite dropLast_length. lia.
    + unfold boundsInside, someEdgeStrict. cbn [bounds decodedOf north south east west].
      split; [tauto|]. tauto.
Qed.

Lemma monotonic_nesting_witness :
  exists d,
    decode (lit "39J-438-TJC7") = OK d /\ (2 <= precision d)%Z /\
    exists P dP,
      getParent (lit "39J-438-TJC7") = OK P /\
      decode P = OK dP /\
      precision dP = (precision d - 1)%Z /\
      boundsInside (bounds d) (bounds dP) /\
      someEdgeStrict (bounds d) (bounds dP).
Proof.
  destruct (decode (lit "39J-438-TJC7")) as [d|e] eqn:H;
    [|vm_compute in H; discriminate H].
  assert (Hp : (2 <= precision d)%Z)
    by (vm_compute in H; injection H as <-; vm_compute; discriminate).
  exists d. split; [reflexivity|]. split; [exact Hp|].
  apply (monotonic_nesting _ d H Hp).
Defined.

(* ================================================================== *)
(** ** Cells sit on the lattice of their level *)

Lemma pow4_pos (n : nat) : (0 < 4 ^ Z.of_nat n)%Z.
Proof. apply Z.pow_pos_nonneg; lia. Qed.

Lemma pow4_succ (n : nat) : (4 ^ Z.of_nat (S n) = 4 * 4 ^ Z.of_nat n)%Z.
Proof. rewrite Nat2Z.inj_succ, Z.pow_succ_r by lia. reflexivity. Qed.

Lemma inject_pow4_pos (n : nat) : 0 < inject_Z (4 ^ Z.of_nat n).
Proof. change 0 with (inject_Z 0). rewrite <- Zlt_Qlt. apply pow4_pos. Qed.

Lemma cellWidth_pos (n : nat) : 0 < cellWidth n.
Proof.
  unfold cellWidth. apply Qlt_shift_div_l; [apply inject_pow4_pos|]. lra.
Qed.

Lemma cellWidth_total (n : nat) : inject_Z (4 ^ Z.of_nat n) * cellWidth n == 36.
Proof.
  unfold cellWidth. field. pose proof (inject_pow4_pos n). lra.
Qed.

Lemma cellWidth_succ (n : nat) : cellWidth n == 4 * cellWidth (S n).
Proof.
  unfold cellWidth. rewrite pow4_succ, inject_Z_mult. field.
  pose proof (inject_pow4_pos n). lra.
Qed.

Lemma cellWidth_antitone (n m : nat) : (n < m)%nat -> cellWidth m < cellWidth n.
Proof.
  induction 1 as [|m _ IH].
  - pose proof (cellWidth_succ n). pose proof (cellWidth_pos (S n)). lra.
  - pose proof (cellWidth_succ m). pose proof (cellWidth_pos (S m)). lra.
Qed.

Lemma BOUNDS_aligned : aligned 0 BOUNDS.
Proof.
  exists 0%Z, 0%Z. repeat split; try (cbn; lia); vm_compute; reflexivity.
Qed.

Lemma narrow_aligned (n : nat) (b : Box) (r c : Z) :
  aligned n b -> (0 <= r <= 3)%Z -> (0 <= c <= 3)%Z ->
  aligned (S n) (narrow b r c).
Proof.
  intros (k & j & Hk & Hj & E1 & E2 & E3 & E4) Hr Hc.
  exists (4 * k + 3 - r)%Z, (4 * j + c)%Z.
  rewrite pow4_succ. split; [lia|]. split; [lia|].
  unfold narrow. cbn [minLat maxLat minLon maxLon].
  pose proof (cellWidth_succ n) as Ew.
  repeat split; qexact; rewrite E1, E2 || rewrite E3, E4;
    rewrite ?inject_Z_succ, ?inject_Z_sub, ?inject_Z_plus, ?inject_Z_mult, ?inject_Z_succ, Ew;
    change (inject_Z 4) with 4; change (inject_Z 3) with 3; field.
Qed.

Lemma decode_loop_aligned (pin : str) :
  forall (i : Z) (n : nat) (b b' : Box),
    decode_loop pin i b = OK b' -> aligned n b -> aligned (n + length pin) b'.
Proof.
  induction pin as [|ch pin IH]; intros i n b b'; cbn [decode_loop length].
  - intros [= <-] H. rewrite Nat.add_0_r. exact H.
  - destruct (CHAR_TO_POSITION ch) as [[r c]|] eqn:E; [|discriminate].
    intros H Ha. destruct (CHAR_TO_POSITION_Some _ _ _ E) as (Hr & Hc & _).
    rewrite Nat.add_succ_r. apply (IH _ (S n) _ _ H).
    apply narrow_aligned; assumption.
Qed.

(** Extents and margins of an aligned box. *)
Lemma aligned_extent (n : nat) (b : Box) :
  aligned n b ->
  maxLat b - minLat b == cellWidth n /\ maxLon b - minLon b == cellWidth n.
Proof.
  intros (k & j & _ & _ & E1 & E2 & E3 & E4).
  rewrite E1, E2, E3, E4, !inject_Z_succ. split; ring.
Qed.

Lemma lattice_margin (n : nat) (k : Z) (origin x y : Q) :
  (0 <= k < 4 ^ Z.of_nat n)%Z ->
  x == origin + inject_Z k * cellWidth n ->
  y == origin + inject_Z (k + 1) * cellWidth n ->
  (origin < x -> origin + cellWidth n <= x) /\
  (y < origin + 36 -> y <= origin + 36 - cellWidth n).
Proof.
  intros Hk Ex Ey.
  pose proof (cellWidth_pos n) as Hw. pose proof (cellWidth_total n) as Ht.
  rewrite inject_Z_succ in Ey. split.
  - intros H. rewrite Ex in H. rewrite Ex.
    assert (Hk1 : (1 <= k)%Z).
    { destruct (Z.le_gt_cases 1 k) as [|Hlt]; [assumption|]. exfalso.
      assert (Hk0 : inject_Z k <= 0) by (change 0 with (inject_Z 0); rewrite <- Zle_Qle; lia).
      apply (Qmult_le_compat_r _ _ (cellWidth n)) in Hk0; lra. }
    assert (Hq : 1 <= inject_Z k) by (change 1 with (inject_Z 1); rewrite <- Zle_Qle; lia).
    apply (Qmult_le_compat_r _ _ (cellWidth n)) in Hq; lra.
  - intros H. rewrite Ey in H. rewrite Ey.
    assert (Hk1 : (k + 2 <= 4 ^ Z.of_nat n)%Z).
    { destruct (Z.le_gt_cases (k + 2) (4 ^ Z.of_nat n)) as [|Hlt]; [assumption|]. exfalso.
      assert (Hk0 : inject_Z (4 ^ Z.of_nat n) <= inject_Z k + 1)
        by (rewrite <- inject_Z_succ, <- Zle_Qle; lia).
      apply (Qmult_le_compat_r _ _ (cellWidth n)) in Hk0; lra. }
    assert (Hq : inject_Z k + 2 <= inject_Z (4 ^ Z.of_nat n)).
    { change 2 with (inject_Z 2). rewrite <- inject_Z_plus, <- Zle_Qle. lia. }
    apply (Qmult_le_compat_r _ _ (cellWidth n)) in Hq; lra.
Qed.

(* ================================================================== *)
(** ** Neighbours *)

Lemma inBOUNDS_contains (lat lon : Q) :
  inBOUNDS lat lon = true <-> contains BOUNDS lat lon.
Proof.
  unfold inBOUNDS, contains. rewrite !andb_true_iff, !Qle_bool_iff. tauto.
Qed.

Lemma visitOffset_length (cLat cLon : Q) (p : Z) (acc : list str) (d : Q * Q) :
  (length (visitOffset cLat cLon p acc d) <= length acc + 1)%nat.
Proof.
  unfold visitOffset. destruct (inBOUNDS _ _); [|lia].
  destruct (encode _ _ _); [rewrite length_app; cbn [length]|]; lia.
Qed.

Lemma visitOffset_inside (cLat cLon : Q) (p : Z) (acc : list str) (d : Q * Q) :
  contains BOUNDS (cLat +! fst d) (cLon +! snd d) -> (1 <= p <= 10)%Z ->
  length (visitOffset cLat cLon p acc d) = (length acc + 1)%nat.
Proof.
  intros Hin Hp. unfold visitOffset.
  rewrite (proj2 (inBOUNDS_contains _ _) Hin), (encode_finite _ _ _ Hin Hp).
  rewrite length_app. reflexivity.
Qed.

Lemma visit_all_length (cLat cLon : Q) (p : Z) (ds : list (Q * Q)) :
  forall acc : list str,
    (length (fold_left (visitOffset cLat cLon p) ds acc) <= length acc + length ds)%nat.
Proof.
  induction ds as [|d ds IH]; intros acc; cbn [fold_left length]; [lia|].
  specialize (IH (visitOffset cLat cLon p acc d)).
  pose proof (visitOffset_length cLat cLon p acc d). lia.
Qed.

Lemma visit_all_inside (cLat cLon : Q) (p : Z) (ds : list (Q * Q)) :
  (1 <= p <= 10)%Z ->
  Forall (fun d => contains BOUNDS (cLat +! fst d) (cLon +! snd d)) ds ->
  forall acc : list str,
    length (fold_left (visitOffset cLat cLon p) ds acc) = (length acc + length ds)%nat.
Proof.
  intros Hp. induction 1 as [|d ds Hd _ IH]; intros acc; cbn [fold_left length]; [lia|].
  rewrite IH, (visitOffset_inside _ _ _ _ _ Hd Hp). lia.
Qed.

Lemma interior_offsets (n : nat) (b : Box) :
  aligned n b ->
  minLat BOUNDS < minLat b -> maxLat b < maxLat BOUNDS ->
  minLon BOUNDS < minLon b -> maxLon b < maxLon BOUNDS ->
  Forall (fun d => contains BOUNDS ((minLat b +! maxLat b) /! 2 +! fst d)
                                   ((minLon b +! maxLon b) /! 2 +! snd d))
         (directions (maxLat b -! minLat b) (maxLon b -! minLon b)).
Proof.
  intros Ha S1 N1 W1 E1.
  destruct (aligned_extent n b Ha) as (Xlat & Xlon).
  destruct Ha as (k & j & Hk & Hj & A1 & A2 & A3 & A4).
  destruct (lattice_margin n k _ _ _ Hk A1 A2) as (Mlo & Mhi).
  destruct (lattice_margin n j _ _ _ Hj A3 A4) as (Nlo & Nhi).
  specialize (Mlo S1). specialize (Nlo W1).
  change (maxLat BOUNDS) with 38.5 in *. change (minLat BOUNDS) with 2.5 in *.
  change (maxLon BOUNDS) with 99.5 in *. change (minLon BOUNDS) with 63.5 in *.
  assert (Mhi' : maxLat b <= 2.5 + 36 - cellWidth n) by (apply Mhi; lra).
  assert (Nhi' : maxLon b <= 63.5 + 36 - cellWidth n) by (apply Nhi; lra).
  pose proof (cellWidth_pos n) as Hw.
  unfold directions.
  assert (Clat : 2 * ((minLat b + maxLat b) / 2) == minLat b + maxLat b) by field.
  assert (Clon : 2 * ((minLon b + maxLon b) / 2) == minLon b + maxLon b) by field.
  repeat (constructor;
          [unfold contains; cbn [fst snd minLat maxLat minLon maxLon BOUNDS];
           qexact;
           set (cLat := (minLat b + maxLat b) / 2) in *;
           set (cLon := (minLon b + maxLon b) / 2) in *;
           repeat split; lra|]).
  constructor.
Qed.

Lemma visit_all_members (cLat cLon : Q) (p : Z) (ds : list (Q * Q)) :
  forall (acc : list str) (K : str),
    In K (fold_left (visitOffset cLat cLon p) ds acc) ->
    In K acc \/
    exists dir, In dir ds /\
      contains BOUNDS (cLat +! fst dir) (cLon +! snd dir) /\
      encode (Num (cLat +! fst dir)) (Num (cLon +! snd dir)) p = OK K.
Proof.
  induction ds as [|d ds IH]; intros acc K; cbn [fold_left]; [tauto|].
  intros H. destruct (IH _ _ H) as [Hin | (dir & Hdir & Hc & He)].
  - unfold visitOffset in Hin.
    destruct (inBOUNDS _ _) eqn:Eb; [|left; exact Hin].
    destruct (encode _ _ _) as [pin|e] eqn:Ee; [|left; exact Hin].
    apply in_app_or in Hin. destruct Hin as [Hin | [<- | []]]; [left; exact Hin|].
    right. exists d. split; [left; reflexivity|].
    split; [apply inBOUNDS_contains; exact Eb | exact Ee].
  - right. exists dir. split; [right; exact Hdir|]. split; assumption.
Qed.

(** C8 -- Neighbour count bound.  On every code [decode] accepts,
    [getNeighbors] raises nothing and returns at most 8 codes, each the
    encoding, at the precision of the code, of a compass offset of the
    cell centre that lies in the root rectangle (offsets outside it, or
    on which [encode] fails, are dropped); it returns exactly 8 when the
    cell of the code touches no edge of the root rectangle. *)
Theorem neighbor_count (code : str) (d : Decoded) :
  decode code = OK d ->
  exists l,
    getNeighbors code = OK l /\
    (length l <= 8)%nat /\
    (interior (bounds d) -> length l = 8%nat) /\
    (forall K, In K l ->
       exists dir,
         In dir (directions (north (bounds d) -! south (bounds d))
                            (east (bounds d) -! west (bounds d))) /\
         contains BOUNDS (latitude d +! fst dir) (longitude d +! snd dir) /\
         encode (Num (latitude d +! fst dir)) (Num (longitude d +! snd dir))
                (precision d) = OK K).
Proof.
  intros Hdec. unfold getNeighbors. rewrite Hdec.
  eexists. split; [reflexivity|]. split; [|split].
  - apply (visit_all_length _ _ _ (directions _ _) []).
  - intros (I1 & I2 & I3 & I4).
    destruct (decode_OK_inv _ _ Hdec) as (Hlen & b & Hloop & ->).
    cbn [bounds decodedOf north south east west latitude longitude precision] in *.
    pose proof (decode_loop_aligned _ _ 0 _ _ Hloop BOUNDS_aligned) as Ha.
    set (pin := toUpperCase (stripHyphens code)) in *.
    assert (Hp : (1 <= Z.of_nat (length pin) <= 10)%Z) by lia.
    rewrite (visit_all_inside _ _ _ _ Hp (interior_offsets _ b Ha I1 I2 I3 I4)).
    reflexivity.
  - intros K HK. destruct (visit_all_members _ _ _ _ _ _ HK) as [[] | H]. exact H.
Qed.

Lemma neighbor_count_witness :
  exists d l,
    decode (lit "39J") = OK d /\
    getNeighbors (lit "39J") = OK l /\
    interior (bounds d) /\
    length l = 8%nat.
Proof.
  destruct (decode (lit "39J")) as [d|e] eqn:H;
    [|vm_compute in H; discriminate H].
  destruct (neighbor_count _ d H) as (l & Hl & _ & H8 & _).
  assert (Hi : interior (bounds d))
    by (vm_compute in H; injection H as <-; repeat split; vm_compute; reflexivity).
  exists d, l. split; [reflexivity|]. split; [exact Hl|]. split; [exact Hi|].
  exact (H8 Hi).
Defined.

Example neighbors_corner :
  getNeighbors (lit "F") = OK [lit "C"; lit "3"; lit "J"].
Proof. vm_compute. reflexivity. Qed.

Example neighbors_interior :
  getNeighbors (lit "39J")
  = OK (map lit ["39F"; "39C"; "393"; "394"; "39K"; "3C6"; "3C7"; "3C8"]%string).
Proof. vm_compute. reflexivity. Qed.

(* ================================================================== *)
(** ** Accuracy *)

Lemma decoded_extent (code : str) (d : Decoded) :
  decode code = OK d ->
  exists n : nat,
    precision d = Z.of_nat n /\ (1 <= n <= 10)%nat /\
    latDegrees (accuracy d) == cellWidth n /\
    lonDegrees (accuracy d) == cellWidth n.
Proof.
  intros Hdec. destruct (decode_OK_inv _ _ Hdec) as (Hlen & b & Hloop & ->).
  set (pin := toUpperCase (stripHyphens code)) in *.
  exists (length pin). split; [reflexivity|]. split; [exact Hlen|].
  pose proof (decode_loop_aligned _ _ 0 _ _ Hloop BOUNDS_aligned) as Ha.
  destruct (aligned_extent _ _ Ha) as (Xlat & Xlon).
  cbn [accuracy decodedOf latDegrees lonDegrees]. qexact. split; assumption.
Qed.

(** The longitude term never exceeds the latitude term, so the reported
    value is the latitude extent in metres. *)
Lemma approximateMeters_formula (code : str) (d : Decoded) :
  decode code = OK d ->
  exists n : nat,
    precision d = Z.of_nat n /\ (1 <= n <= 10)%nat /\
    approximateMeters d = (Q2R (cellWidth n) * 111000)%R.
Proof.
  intros Hdec. destruct (decoded_extent _ _ Hdec) as (n & Hp & Hn & Elat & Elon).
  exists n. split; [exact Hp|]. split; [exact Hn|].
  unfold approximateMeters.
  rewrite (Qeq_eqR _ _ Elat), (Qeq_eqR _ _ Elon).
  pose proof (Qlt_Rlt _ _ (cellWidth_pos n)) as Hw. rewrite RMicromega.Q2R_0 in Hw.
  apply Rmax_left.
  pose proof (COS_bound (Q2R (latitude d) * PI / 180)) as (_ & Hcos).
  set (w := Q2R (cellWidth n)) in *. clearbody w.
  set (c := cos (Q2R (latitude d) * PI / 180)) in *. clearbody c.
  set (a := (w * 111000)%R).
  assert (Ha : (0 <= a)%R) by (unfold a; Lra.lra).
  rewrite <- (Rmult_1_r a) at 2.
  apply Rmult_le_compat_l; assumption.
Qed.

(** C9 -- Accuracy monotonicity.  For a fixed valid coordinate and
    precisions [p < q] in [1,10], the [approximateMeters] that [decode]
    reports for the code of precision [q] is strictly smaller than for the
    code of precision [p]; at precision 6 the value lies between 975 and
    976 metres (about 1 km) and at precision 10 between 3.81 and 3.82
    metres (about 3.8 m). *)
Theorem accuracy_monotonicity (lat lon : Q) (p q : Z) :
  contains BOUNDS lat lon -> (1 <= p)%Z -> (p < q)%Z -> (q <= 10)%Z ->
  exists cp cq dp dq,
    encode (Num lat) (Num lon) p = OK cp /\ decode cp = OK dp /\
    encode (Num lat) (Num lon) q = OK cq /\ decode cq = OK dq /\
    (approximateMeters dq < approximateMeters dp)%R /\
    (p = 6%Z -> (975 < approximateMeters dp < 976)%R) /\
    (q = 10%Z -> (3.81 < approximateMeters dq < 3.82)%R).
Proof.
  intros Hin Hp Hpq Hq.
  destruct (roundtrip_containment_aux lat lon p Hin) as (cp & dp & Ecp & Edp & Pp & _); [lia|].
  destruct (roundtrip_containment_aux lat lon q Hin) as (cq & dq & Ecq & Edq & Pq & _); [lia|].
  exists cp, cq, dp, dq. repeat (split; [assumption|]).
  destruct (approximateMeters_formula _ _ Edp) as (n & Hn & _ & ->).
  destruct (approximateMeters_formula _ _ Edq) as (m & Hm & _ & ->).
  assert (n = Z.to_nat p) by lia. assert (m = Z.to_nat q) by lia. subst n m.
  split; [|split].
  - assert (Hnm : (Z.to_nat p < Z.to_nat q)%nat) by lia.
    pose proof (Qlt_Rlt _ _ (cellWidth_antitone _ _ Hnm)) as Hlt.
    set (wp := Q2R (cellWidth (Z.to_nat p))) in *.
    set (wq := Q2R (cellWidth (Z.to_nat q))) in *.
    clearbody wp wq. Lra.lra.
  - intros ->. change (Z.to_nat 6) with 6%nat.
    assert (L : 975 < cellWidth 6 * 111000) by reflexivity.
    assert (U : cellWidth 6 * 111000 < 976) by reflexivity.
    apply Qlt_Rlt in L, U. rewrite Q2R_mult in L, U.
    replace (Q2R 975) with 975%R in L by (unfold Q2R; simpl; Lra.lra).
    replace (Q2R 976) with 976%R in U by (unfold Q2R; simpl; Lra.lra).
    replace (Q2R 111000) with 111000%R in L, U by (unfold Q2R; simpl; Lra.lra).
    set (w := Q2R (cellWidth 6)) in *. clearbody w. Lra.lra.
  - intros ->. change (Z.to_nat 10) with 10%nat.
    assert (L : 3.81 < cellWidth 10 * 111000) by reflexivity.
    assert (U : cellWidth 10 * 111000 < 3.82) by reflexivity.
    apply Qlt_Rlt in L, U. rewrite Q2R_mult in L, U.
    replace (Q2R 3.81) with 3.81%R in L by (unfold Q2R; simpl; Lra.lra).
    replace (Q2R 3.82) with 3.82%R in U by (unfold Q2R; simpl; Lra.lra).
    replace (Q2R 111000) with 111000%R in L, U by (unfold Q2R; simpl; Lra.lra).
    set (w := Q2R (cellWidth 10)) in *. clearbody w. Lra.lra.
Qed.

Lemma accuracy_monotonicity_witness :
  contains BOUNDS 28.6139 77.2090 /\
  exists cp cq dp dq,
    encode (Num 28.6139) (Num 77.2090) 6 = OK cp /\ decode cp = OK dp /\
    encode (Num 28.6139) (Num 77.2090) 10 = OK cq /\ decode cq = OK dq /\
    (approximateMeters dq < approximateMeters dp)%R /\
    (6%Z = 6%Z -> (975 < approximateMeters dp < 976)%R) /\
    (10%Z = 10%Z -> (3.81 < approximateMeters dq < 3.82)%R).
Proof.
  assert (H : contains BOUNDS 28.6139 77.2090)
    by (unfold contains; repeat split; vm_compute; discriminate).
  split; [exact H|].
  apply (accuracy_monotonicity 28.6139 77.2090 6 10 H); lia.
Defined.

(* ================================================================== *)
(** ** Preconditions of encode *)

Lemma encode_precision_error (lat lon : number) (p : Z) :
  (p < 1 \/ 10 < p)%Z -> encode lat lon p = Err PrecisionRange.
Proof.
  intros Hp. unfold encode.
  replace ((p <? 1)%Z || (p >? 10)%Z) with true; [reflexivity|].
  symmetry. apply orb_true_iff. rewrite Z.gtb_ltb, !Z.ltb_lt. exact Hp.
Qed.

Lemma encode_latitude_error (lat lon : Q) (p : Z) :
  (1 <= p <= 10)%Z -> lat < minLat BOUNDS \/ maxLat BOUNDS < lat ->
  encode (Num lat) (Num lon) p = Err LatitudeOutOfRange.
Proof.
  intros Hp Hlat. unfold encode.
  replace ((p <? 1)%Z || (p >? 10)%Z) with false
    by (symmetry; apply orb_false_iff; split; [apply Z.ltb_ge | rewrite Z.gtb_ltb; apply Z.ltb_ge]; lia).
  unfold JS.gtb, JS.ltb.
  replace (Qltb lat (minLat BOUNDS) || Qltb (maxLat BOUNDS) lat) with true; [reflexivity|].
  symmetry. apply orb_true_iff. rewrite !Qltb_lt. exact Hlat.
Qed.

Lemma encode_longitude_error (lat lon : Q) (p : Z) :
  (1 <= p <= 10)%Z -> minLat BOUNDS <= lat -> lat <= maxLat BOUNDS ->
  lon < minLon BOUNDS \/ maxLon BOUNDS < lon ->
  encode (Num lat) (Num lon) p = Err LongitudeOutOfRange.
Proof.
  intros Hp H1 H2 Hlon. unfold encode.
  replace ((p <? 1)%Z || (p >? 10)%Z) with false
    by (symmetry; apply orb_false_iff; split; [apply Z.ltb_ge | rewrite Z.gtb_ltb; apply Z.ltb_ge]; lia).
  unfold JS.gtb, JS.ltb.
  rewrite (proj2 (Qltb_ge _ _) H1), (proj2 (Qltb_ge _ _) H2). cbn [orb].
  replace (Qltb lon (minLon BOUNDS) || Qltb (maxLon BOUNDS) lon) with true; [reflexivity|].
  symmetry. apply orb_true_iff. rewrite !Qltb_lt. exact Hlon.
Qed.

Example encode_precision_11 (lat lon : number) : encode lat lon 11 = Err PrecisionRange.
Proof. reflexivity. Qed.

Example encode_latitude_91 : encode (Num 91) (Num 77) 10 = Err LatitudeOutOfRange.
Proof. reflexivity. Qed.

Example encode_infinite_latitude : encode PosInf (Num 77) 10 = Err LatitudeOutOfRange.
Proof. reflexivity. Qed.

Example encode_NaN_latitude : encode NaN (Num 77) 10 = Err TypeError.
Proof. reflexivity. Qed.

(** C5 -- the encoder at a longitude that is not a finite number.  NaN is
    a number for [typeof] and fails both range comparisons, so [encode]
    reaches its loop, where [DIGIPIN_GRID[row][NaN]] is [undefined]: it
    raises nothing and returns a string. *)
Theorem encode_NaN_longitude_returns :
  JS.isFinite NaN = false /\
  encode (Num 28.6139) NaN 10
  = OK (lit ("undefinedundefinedundefined-undefinedundefinedundefined-"
             ++ "undefinedundefinedundefinedundefined")).
Proof. split; [reflexivity | vm_compute; reflexivity]. Qed.

(* ================================================================== *)
(** ** The lattice of generateGrid *)

Lemma cellSize_loop_eq (n : nat) :
  forall x : Q, cellSize_loop n x == x / inject_Z (4 ^ Z.of_nat n).
Proof.
  induction n as [|n IH]; intros x.
  - cbn. field.
  - cbn [cellSize_loop]. rewrite IH, qdiv_eq, pow4_succ, inject_Z_mult.
    change (inject_Z 4) with 4. field.
    pose proof (inject_pow4_pos n). lra.
Qed.

Lemma gridCellSize_eq (n : nat) :
  gridCellSize (Z.of_nat (S n)) == 36 / inject_Z (4 ^ Z.of_nat n).
Proof.
  unfold gridCellSize.
  replace (Z.to_nat (Z.of_nat (S n) - 1)) with n by lia.
  apply cellSize_loop_eq.
Qed.

Lemma gridCellSize_pos (p : Z) : 0 < gridCellSize p.
Proof.
  unfold gridCellSize. rewrite cellSize_loop_eq.
  apply Qlt_shift_div_l; [apply inject_pow4_pos | lra].
Qed.

(** C3 -- the pitch [generateGrid] computes.  Its loop divides the root
    extent by 4 only [precision - 1] times: the pitch is the extent of a
    cell of the level above, four times the extent [rootExtent / 4^p] of a
    cell of level [p]; at precision 6 it is 36/4^5 degrees while the cells
    [decode] returns at that level are 36/4^6 degrees wide. *)
Theorem generateGrid_pitch (n : nat) :
  gridCellSize (Z.of_nat (S n)) == 4 * cellWidth (S n) /\
  ~ gridCellSize (Z.of_nat (S n)) == cellWidth (S n) /\
  gridCellSize 6 == 36 / 4 ^ 5 /\
  cellWidth 6 == 36 / 4 ^ 6.
Proof.
  assert (H : gridCellSize (Z.of_nat (S n)) == 4 * cellWidth (S n)).
  { rewrite gridCellSize_eq, <- cellWidth_succ. reflexivity. }
  split; [exact H|]. split; [|split; reflexivity].
  rewrite H. pose proof (cellWidth_pos (S n)). lra.
Qed.

Lemma Qfloor_unique (x : Q) (z : Z) :
  inject_Z z <= x -> x < inject_Z (z + 1) -> Qfloor x = z.
Proof.
  intros Hlo Hhi.
  pose proof (Qfloor_resp_le _ _ Hlo) as H1. rewrite Qfloor_Z in H1.
  pose proof (Qfloor_le x) as H2.
  assert (H3 : inject_Z (Qfloor x) < inject_Z (z + 1)) by lra.
  rewrite <- Zlt_Qlt in H3. lia.
Qed.

Lemma passes_stop (start stop step : Q) :
  0 < step -> stop < start -> passes start stop step = 0%nat.
Proof.
  intros Hstep H. unfold passes.
  assert (Hneg : (stop - start) / step < 0).
  { apply Qlt_shift_div_r; [exact Hstep | lra]. }
  pose proof (Qfloor_le ((stop - start) / step)) as Hf.
  assert (Hz : inject_Z (Qfloor ((stop - start) / step)) < inject_Z 0)
    by (change (inject_Z 0) with 0; lra).
  rewrite <- Zlt_Qlt in Hz. lia.
Qed.

Lemma passes_step (start stop step : Q) :
  0 < step -> start <= stop ->
  passes start stop step = S (passes (start +! step) stop step).
Proof.
  intros Hstep H. unfold passes.
  set (t := (stop - start) / step).
  assert (Ht : 0 <= t) by (apply Qle_shift_div_l; [exact Hstep | lra]).
  assert (Hf0 : (0 <= Qfloor t)%Z)
    by (change 0%Z with (Qfloor 0); apply Qfloor_resp_le; exact Ht).
  assert (E : (stop - (start +! step)) / step == t - 1)
    by (qexact; unfold t; field; lra).
  rewrite (Qfloor_comp _ _ E).
  rewrite (Qfloor_unique (t - 1) (Qfloor t - 1)).
  - lia.
  - rewrite inject_Z_sub. change (inject_Z 1) with 1.
    pose proof (Qfloor_le t). lra.
  - replace (Qfloor t - 1 + 1)%Z with (Qfloor t) by lia.
    pose proof (Qlt_floor t) as Hl. rewrite inject_Z_succ in Hl. lra.
Qed.

(** The fuel [passes] is enough: with any larger fuel the loop makes the
    same passes, so it always leaves through its guard.  The pitch of
    [generateGrid] is positive ([gridCellSize_pos]), so this covers both
    of its loops. *)
Lemma forRange_fuel {S : Type} (step stop : Q) (body : Q -> S -> S) :
  0 < step ->
  forall (fuel : nat) (x : Q) (s : S),
    (passes x stop step <= fuel)%nat ->
    forRange fuel x stop step body s
    = forRange (passes x stop step) x stop step body s.
Proof.
  intros Hstep. induction fuel as [|fuel IH]; intros x s Hfuel.
  - replace (passes x stop step) with 0%nat by lia. reflexivity.
  - cbn [forRange]. destruct (Qle_bool x stop) eqn:E.
    + apply Qle_bool_iff in E.
      rewrite (passes_step x stop step Hstep E) in Hfuel |- *.
      cbn [forRange]. rewrite (proj2 (Qle_bool_iff _ _) E).
      apply IH. lia.
    + assert (Hgt : stop < x).
      { apply Qnot_le_lt. intros Hle. apply Qle_bool_iff in Hle. congruence. }
      rewrite (passes_stop x stop step Hstep Hgt). reflexivity.
Qed.

(* ================================================================== *)
(** ** The decoder's bounds are exact in binary64 *)

Lemma cellWidth_dyadic (n : nat) :
  (n <= 10)%nat ->
  cellWidth n == inject_Z (9 * 4 ^ Z.of_nat (10 - n)) / inject_Z (2 ^ 18).
Proof.
  intros Hn. unfold cellWidth.
  assert (HPP : inject_Z (4 ^ Z.of_nat n) * inject_Z (4 ^ Z.of_nat (10 - n))
                == inject_Z (4 ^ 10)).
  { rewrite <- inject_Z_mult, <- Z.pow_add_r by lia.
    replace (Z.of_nat n + Z.of_nat (10 - n))%Z with 10%Z by lia. reflexivity. }
  pose proof (inject_pow4_pos n) as HP.
  set (P := inject_Z (4 ^ Z.of_nat n)) in *.
  assert (EPc : inject_Z (4 ^ Z.of_nat (10 - n)) == inject_Z (4 ^ 10) / P).
  { rewrite <- HPP. field. lra. }
  rewrite inject_Z_mult, EPc. change (inject_Z (4 ^ 10)) with 1048576.
  change (inject_Z (2 ^ 18)) with 262144. change (inject_Z 9) with 9.
  field. lra.
Qed.

Lemma lattice_dyadic (n : nat) (k base : Z) (origin x : Q) :
  (n <= 10)%nat -> (0 <= k <= 4 ^ Z.of_nat n)%Z ->
  (0 <= base <= 127 * 2 ^ 17)%Z ->
  origin == inject_Z base / inject_Z (2 ^ 18) ->
  x == origin + inject_Z k * cellWidth n ->
  dyadic18 x.
Proof.
  intros Hn Hk Hbase Eo Ex.
  exists (base + k * (9 * 4 ^ Z.of_nat (10 - n)))%Z. split.
  - assert (HPP : (4 ^ Z.of_nat n * 4 ^ Z.of_nat (10 - n) = 4 ^ 10)%Z).
    { rewrite <- Z.pow_add_r by lia. f_equal. lia. }
    pose proof (pow4_pos n). pose proof (pow4_pos (10 - n)).
    change (4 ^ 10)%Z with 1048576%Z in HPP.
    change (2 ^ 25)%Z with 33554432%Z. change (2 ^ 17)%Z with 131072%Z in Hbase.
    nia.
  - rewrite Ex, Eo, (cellWidth_dyadic n Hn), inject_Z_plus, !inject_Z_mult.
    change (inject_Z (2 ^ 18)) with 262144. field.
Qed.

(** Every bound [decode] returns is a multiple of 2^-18 with at most 25
    significant bits: the exact arithmetic of the model is the binary64
    arithmetic of the decoder. *)
Lemma decoded_bounds_dyadic (code : str) (d : Decoded) :
  decode code = OK d ->
  dyadic18 (south (bounds d)) /\ dyadic18 (north (bounds d)) /\
  dyadic18 (west (bounds d)) /\ dyadic18 (east (bounds d)).
Proof.
  intros Hdec. destruct (decode_OK_inv _ _ Hdec) as (Hlen & b & Hloop & ->).
  set (pin := toUpperCase (stripHyphens code)) in *.
  pose proof (decode_loop_aligned _ _ 0 _ _ Hloop BOUNDS_aligned) as Ha.
  cbn [Nat.add] in Ha.
  destruct Ha as (k & j & Hk & Hj & E1 & E2 & E3 & E4).
  cbn [bounds decodedOf north south east west].
  assert (Olat : minLat BOUNDS == inject_Z (5 * 2 ^ 17) / inject_Z (2 ^ 18)) by reflexivity.
  assert (Olon : minLon BOUNDS == inject_Z (127 * 2 ^ 17) / inject_Z (2 ^ 18)) by reflexivity.
  destruct Hlen as (_ & Hlen).
  assert (Blat : (0 <= 5 * 2 ^ 17 <= 127 * 2 ^ 17)%Z) by (split; discriminate).
  assert (Blon : (0 <= 127 * 2 ^ 17 <= 127 * 2 ^ 17)%Z) by (split; discriminate).
  repeat split.
  - apply (lattice_dyadic (length pin) k (5 * 2 ^ 17) (minLat BOUNDS) _ Hlen);
      [lia | exact Blat | exact Olat | exact E1].
  - apply (lattice_dyadic (length pin) (k + 1) (5 * 2 ^ 17) (minLat BOUNDS) _ Hlen);
      [lia | exact Blat | exact Olat | exact E2].
  - apply (lattice_dyadic (length pin) j (127 * 2 ^ 17) (minLon BOUNDS) _ Hlen);
      [lia | exact Blon | exact Olon | exact E3].
  - apply (lattice_dyadic (length pin) (j + 1) (127 * 2 ^ 17) (minLon BOUNDS) _ Hlen);
      [lia | exact Blon | exact Olon | exact E4].
Qed.

(* ================================================================== *)
(** ** From a cell back to its code *)

Lemma boxInside_refl (b : Box) : boxInside b b.
Proof. unfold boxInside. repeat split; apply Qle_refl. Qed.

Lemma boxInside_trans (a b c : Box) : boxInside a b -> boxInside b c -> boxInside a c.
Proof. unfold boxInside. intros (? & ? & ? & ?) (? & ? & ? & ?). repeat split; lra. Qed.

Lemma decode_loop_inside (pin : str) :
  forall (i : Z) (b b' : Box),
    decode_loop pin i b = OK b' -> wellFormed b -> boxInside b' b.
Proof.
  induction pin as [|ch pin IH]; intros i b b'; cbn [decode_loop].
  - intros [= <-] _. apply boxInside_refl.
  - destruct (CHAR_TO_POSITION ch) as [[r c]|] eqn:E; [|discriminate].
    intros H Hwf. destruct (CHAR_TO_POSITION_Some _ _ _ E) as (Hr & Hc & _).
    apply (boxInside_trans _ (narrow b r c)).
    + apply (IH _ _ _ H). apply narrow_wellFormed. exact Hwf.
    + destruct (narrow_inside b r c Hwf Hr Hc) as (I1 & I2 & I3 & I4 & _).
      unfold boxInside. tauto.
Qed.

(** A point strictly inside one of the four bands is assigned to it. *)
Lemma band_of_interior (A B x : Q) (z : Z) :
  A < B ->
  let w := (B - A) / 4 in
  A + inject_Z z * w < x -> x < A + (inject_Z z + 1) * w ->
  Qfloor ((x - A) / w) = z.
Proof.
  intros HAB w Hlo Hhi.
  assert (Hw : 0 < w) by (apply quarter_pos; exact HAB).
  apply Qfloor_unique.
  - apply Qle_shift_div_l; [exact Hw | lra].
  - rewrite inject_Z_succ. apply Qlt_shift_div_r; [exact Hw | lra].
Qed.

Lemma rowZ_of_interior (b : Box) (r c : Z) (lat : Q) :
  wellFormed b -> (0 <= r <= 3)%Z ->
  minLat (narrow b r c) < lat -> lat < maxLat (narrow b r c) ->
  rowZ b lat = r.
Proof.
  intros (Hlat & _) Hr. unfold narrow, rowZ. cbn [minLat maxLat].
  intros Hlo Hhi. revert Hlo Hhi. qexact. rewrite inject_Z_succ. intros Hlo Hhi.
  assert (E4 : 4 * ((maxLat b - minLat b) / 4) == maxLat b - minLat b) by field.
  rewrite (band_of_interior (minLat b) (maxLat b) lat (3 - r) Hlat).
  - unfold clampZ. lia.
  - rewrite inject_Z_sub. change (inject_Z 3) with 3.
    set (w := (maxLat b - minLat b) / 4) in *. lra.
  - rewrite inject_Z_sub. change (inject_Z 3) with 3.
    set (w := (maxLat b - minLat b) / 4) in *. lra.
Qed.

Lemma colZ_of_interior (b : Box) (r c : Z) (lon : Q) :
  wellFormed b -> (0 <= c <= 3)%Z ->
  minLon (narrow b r c) < lon -> lon < maxLon (narrow b r c) ->
  colZ b lon = c.
Proof.
  intros (_ & Hlon) Hc. unfold narrow, colZ. cbn [minLon maxLon].
  intros Hlo Hhi. revert Hlo Hhi. qexact. rewrite inject_Z_succ. intros Hlo Hhi.
  rewrite (band_of_interior (minLon b) (maxLon b) lon c Hlon).
  - unfold clampZ. lia.
  - set (w := (maxLon b - minLon b) / 4) in *. lra.
  - set (w := (maxLon b - minLon b) / 4) in *. lra.
Qed.

Lemma symbols_of_interior (pin : str) (lat lon : Q) :
  forall (i : Z) (b b' : Box),
    decode_loop pin i b = OK b' -> wellFormed b ->
    strictlyContains b' lat lon ->
    symbols (length pin) lat lon b = pin.
Proof.
  induction pin as [|ch pin IH]; intros i b b'; cbn [decode_loop length symbols];
    [reflexivity|].
  destruct (CHAR_TO_POSITION ch) as [[r c]|] eqn:E; [|discriminate].
  intros H Hwf Hin. destruct (CHAR_TO_POSITION_Some _ _ _ E) as (Hr & Hc & ->).
  pose proof (narrow_wellFormed b r c Hwf) as Hwf'.
  pose proof (decode_loop_inside _ _ _ _ H Hwf') as (I1 & I2 & I3 & I4).
  destruct Hin as (P1 & P2 & P3 & P4).
  assert (Er : rowZ b lat = r) by (apply (rowZ_of_interior b r c lat Hwf Hr); lra).
  assert (Ec : colZ b lon = c) by (apply (colZ_of_interior b r c lon Hwf Hc); lra).
  rewrite Er, Ec. f_equal. apply (IH _ _ _ H Hwf'). repeat split; assumption.
Qed.

Lemma withHyphens_canonical (pin : str) :
  withHyphens (Z.of_nat (length pin)) 1 pin = canonical pin.
Proof.
  unfold canonical. destruct (Nat.eqb_spec (length pin) 10) as [E|E].
  - rewrite E. apply withHyphens_full. exact E.
  - apply withHyphens_short. lia.
Qed.

Lemma encode_interior (code : str) (d : Decoded) (lat lon : Q) :
  decode code = OK d ->
  south (bounds d) < lat -> lat < north (bounds d) ->
  west (bounds d) < lon -> lon < east (bounds d) ->
  encode (Num lat) (Num lon) (precision d)
  = OK (canonical (toUpperCase (stripHyphens code))).
Proof.
  intros Hdec P1 P2 P3 P4.
  destruct (decode_OK_inv _ _ Hdec) as (Hlen & b & Hloop & ->).
  set (pin := toUpperCase (stripHyphens code)) in *.
  cbn [bounds decodedOf north south east west precision] in *.
  pose proof (decode_loop_inside _ _ _ _ Hloop BOUNDS_wellFormed) as (I1 & I2 & I3 & I4).
  rewrite encode_finite; [| unfold contains; repeat split; lra | lia].
  rewrite Nat2Z.id.
  rewrite (symbols_of_interior pin lat lon 0 BOUNDS b Hloop BOUNDS_wellFormed)
    by (repeat split; assumption).
  rewrite withHyphens_canonical. reflexivity.
Qed.

Lemma centre_strictly_inside (b : Box) :
  wellFormed b ->
  strictlyContains b ((minLat b +! maxLat b) /! 2) ((minLon b +! maxLon b) /! 2).
Proof.
  intros (Hlat & Hlon). unfold strictlyContains. qexact.
  assert (Clat : 2 * ((minLat b + maxLat b) / 2) == minLat b + maxLat b) by field.
  assert (Clon : 2 * ((minLon b + maxLon b) / 2) == minLon b + maxLon b) by field.
  set (cLat := (minLat b + maxLat b) / 2) in *.
  set (cLon := (minLon b + maxLon b) / 2) in *.
  repeat split; lra.
Qed.

Lemma encode_centre (code : str) (d : Decoded) :
  decode code = OK d ->
  encode (Num (latitude d)) (Num (longitude d)) (precision d)
  = OK (canonical (toUpperCase (stripHyphens code))).
Proof.
  intros Hdec.
  destruct (decode_OK_inv _ _ Hdec) as (Hlen & b & Hloop & E).
  pose proof (decode_loop_wellFormed _ _ _ _ Hloop BOUNDS_wellFormed) as Hwf.
  destruct (centre_strictly_inside b Hwf) as (P1 & P2 & P3 & P4).
  apply (encode_interior code d _ _ Hdec); rewrite E; assumption.
Qed.

(** X1 -- Every point strictly inside the bounds [decode] returns for a
    code encodes, at the precision of the code, to that code in the form
    [encode] emits (upper case, grouped when it has ten symbols). *)
Theorem interior_point_encodes_to_code (code : str) (d : Decoded) (lat lon : Q) :
  decode code = OK d ->
  south (bounds d) < lat -> lat < north (bounds d) ->
  west (bounds d) < lon -> lon < east (bounds d) ->
  encode (Num lat) (Num lon) (precision d)
  = OK (canonical (toUpperCase (stripHyphens code))).
Proof. apply encode_interior. Qed.

Lemma interior_point_encodes_to_code_witness :
  exists d,
    decode (lit "39j-438") = OK d /\
    encode (Num 28.6139) (Num 77.2090) (precision d) = OK (lit "39J438").
Proof.
  destruct (decode (lit "39j-438")) as [d|e] eqn:H;
    [|vm_compute in H; discriminate H].
  exists d. split; [reflexivity|].
  apply (interior_point_encodes_to_code (lit "39j-438") d 28.6139 77.2090 H);
    vm_compute in H; injection H as <-; vm_compute; reflexivity.
Defined.

(** X2 -- Decode then encode: re-encoding the centre [decode] returns, at
    the precision it returns, gives back the code in the form [encode]
    emits. *)
Theorem decode_encode_roundtrip (code : str) (d : Decoded) :
  decode code = OK d ->
  encode (Num (latitude d)) (Num (longitude d)) (precision d)
  = OK (canonical (toUpperCase (stripHyphens code))).
Proof. apply encode_centre. Qed.

Lemma decode_encode_roundtrip_witness :
  exists d,
    decode (lit "4p3jk852c9") = OK d /\
    encode (Num (latitude d)) (Num (longitude d)) (precision d)
    = OK (lit "4P3-JK8-52C9").
Proof.
  destruct (decode (lit "4p3jk852c9")) as [d|e] eqn:H;
    [|vm_compute in H; discriminate H].
  exists d. split; [reflexivity|].
  apply (decode_encode_roundtrip (lit "4p3jk852c9") d H).
Defined.

Lemma stripHyphens_canonical (pin : str) :
  sanitized pin -> stripHyphens (canonical pin) = pin.
Proof.
  intros H. unfold canonical. destruct (length pin =? 10)%nat.
  - apply stripHyphens_grouped. exact H.
  - apply stripHyphens_sanitized. exact H.
Qed.

Lemma toUpperCase_sanitized (s : str) : sanitized s -> sanitized (toUpperCase s).
Proof.
  unfold sanitized, toUpperCase. intros H Hin. apply in_map_iff in Hin.
  destruct Hin as (c & Hc & Hin). apply H.
  assert (c = hyphen); [|subst; exact Hin].
  revert Hc. unfold upperChar.
  destruct ((97 <=? nat_of_ascii c)%nat && (nat_of_ascii c <=? 122)%nat) eqn:E;
    [|intros ->; reflexivity].
  intros Hc. exfalso. apply andb_true_iff in E. destruct E as (E1 & E2).
  apply Nat.leb_le in E1, E2.
  apply (f_equal nat_of_ascii) in Hc. rewrite nat_ascii_embedding in Hc by lia.
  change (nat_of_ascii hyphen) with 45%nat in Hc. lia.
Qed.

Lemma decode_injective_aux (c1 c2 : str) (d : Decoded) :
  decode c1 = OK d -> decode c2 = OK d ->
  toUpperCase (stripHyphens c1) = toUpperCase (stripHyphens c2).
Proof.
  intros H1 H2.
  pose proof (encode_centre _ _ H1) as E1. pose proof (encode_centre _ _ H2) as E2.
  rewrite E1 in E2. injection E2 as E.
  apply (f_equal stripHyphens) in E.
  rewrite !stripHyphens_canonical in E
    by (apply toUpperCase_sanitized, stripHyphens_is_sanitized).
  exact E.
Qed.

(** X3 -- A cell has one code: two codes that [decode] to the same result
    are the same string once separators are removed and letters
    upper-cased. *)
Theorem decode_injective (c1 c2 : str) (d : Decoded) :
  decode c1 = OK d -> decode c2 = OK d ->
  toUpperCase (stripHyphens c1) = toUpperCase (stripHyphens c2).
Proof. apply decode_injective_aux. Qed.

Lemma decode_injective_witness :
  exists d,
    decode (lit "39J-438") = OK d /\ decode (lit "39j438") = OK d /\
    toUpperCase (stripHyphens (lit "39J-438")) = toUpperCase (stripHyphens (lit "39j438")).
Proof.
  destruct (decode (lit "39J-438")) as [d|e] eqn:H;
    [|vm_compute in H; discriminate H].
  assert (H2 : decode (lit "39j438") = OK d)
    by (rewrite <- H; vm_compute; reflexivity).
  exists d. split; [reflexivity|]. split; [exact H2|].
  apply (decode_injective _ _ d H H2).
Defined.

(* ================================================================== *)
(** ** Neighbours are the adjacent cells *)

Lemma lattice_index_unique (n : nat) (k k' : Z) (origin lo hi x : Q) :
  x == origin + (inject_Z k + (1 # 2)) * cellWidth n ->
  lo == origin + inject_Z k' * cellWidth n ->
  hi == origin + inject_Z (k' + 1) * cellWidth n ->
  lo <= x -> x <= hi -> k' = k.
Proof.
  intros Ex Elo Ehi Hlo Hhi.
  pose proof (cellWidth_pos n) as Hw. rewrite inject_Z_succ in Ehi.
  rewrite Ex, Elo in Hlo. rewrite Ex, Ehi in Hhi.
  assert (H1 : (k' <= k)%Z).
  { destruct (Z.le_gt_cases k' k) as [|Hgt]; [assumption|]. exfalso.
    assert (Hq : inject_Z k + 1 <= inject_Z k') by (rewrite <- inject_Z_succ, <- Zle_Qle; lia).
    apply (Qmult_le_compat_r _ _ (cellWidth n)) in Hq; lra. }
  assert (H2 : (k <= k')%Z).
  { destruct (Z.le_gt_cases k k') as [|Hgt]; [assumption|]. exfalso.
    assert (Hq : inject_Z k' + 1 <= inject_Z k) by (rewrite <- inject_Z_succ, <- Zle_Qle; lia).
    apply (Qmult_le_compat_r _ _ (cellWidth n)) in Hq; lra. }
  lia.
Qed.

(** Along one axis: the cell of level [n] that holds the centre of the
    cell [[a, b]] moved by [delta] cells has that point as its centre. *)
Lemma offset_cell_centre (n : nat) (k k' delta : Z) (origin a b lo hi off : Q) :
  a == origin + inject_Z k * cellWidth n ->
  b == origin + inject_Z (k + 1) * cellWidth n ->
  off == inject_Z delta * cellWidth n ->
  lo == origin + inject_Z k' * cellWidth n ->
  hi == origin + inject_Z (k' + 1) * cellWidth n ->
  lo <= (a +! b) /! 2 +! off -> (a +! b) /! 2 +! off <= hi ->
  (lo +! hi) /! 2 == (a +! b) /! 2 + off.
Proof.
  intros Ea Eb Eoff Elo Ehi. qexact. intros Hlo Hhi.
  assert (Ex : (a + b) / 2 + off
               == origin + (inject_Z (k + delta) + (1 # 2)) * cellWidth n).
  { rewrite Ea, Eb, Eoff, inject_Z_succ, inject_Z_plus. field. }
  assert (Ek : k' = (k + delta)%Z)
    by apply (lattice_index_unique n (k + delta) k' origin lo hi _ Ex Elo Ehi Hlo Hhi).
  subst k'. rewrite Ex, Elo, Ehi, inject_Z_succ. field.
Qed.

Lemma direction_cases (w v : Q) (dir : Q * Q) :
  In dir (directions w v) ->
  exists dlat dlon : Z,
    (-1 <= dlat <= 1)%Z /\ (-1 <= dlon <= 1)%Z /\ (dlat <> 0 \/ dlon <> 0)%Z /\
    fst dir == inject_Z dlat * w /\ snd dir == inject_Z dlon * v.
Proof.
  unfold directions. intros H.
  repeat (destruct H as [<- | H]);
    [ exists 1%Z, 0%Z | exists 1%Z, 1%Z | exists 0%Z, 1%Z | exists (-1)%Z, 1%Z
    | exists (-1)%Z, 0%Z | exists (-1)%Z, (-1)%Z | exists 0%Z, (-1)%Z
    | exists 1%Z, (-1)%Z | destruct H ];
    cbn [fst snd]; rewrite ?qneg_eq;
    (split; [lia|]; split; [lia|]; split; [lia|]; split; ring).
Qed.

Lemma no_offset (w : Q) (z : Z) : 0 < w -> inject_Z z * w == 0 -> z = 0%Z.
Proof.
  intros Hw H. apply Qmult_integral in H. destruct H as [H|H].
  - apply (proj1 (inject_Z_injective z 0)). exact H.
  - exfalso. rewrite H in Hw. exact (Qlt_irrefl 0 Hw).
Qed.

Lemma neighbour_is_adjacent (code : str) (d : Decoded) (dir : Q * Q) (K : str) :
  decode code = OK d ->
  In dir (directions (north (bounds d) -! south (bounds d))
                     (east (bounds d) -! west (bounds d))) ->
  contains BOUNDS (latitude d +! fst dir) (longitude d +! snd dir) ->
  encode (Num (latitude d +! fst dir)) (Num (longitude d +! snd dir)) (precision d) = OK K ->
  exists dK,
    decode K = OK dK /\ precision dK = precision d /\
    latitude dK == latitude d + fst dir /\
    longitude dK == longitude d + snd dir /\
    ~ (latitude dK == latitude d /\ longitude dK == longitude d).
Proof.
  intros Hdec Hdir Hin Henc.
  destruct (decode_OK_inv _ _ Hdec) as (Hlen & b & Hloop & ->).
  set (pin := toUpperCase (stripHyphens code)) in *.
  cbn [bounds decodedOf north south east west latitude longitude precision] in *.
  assert (Hp : (1 <= Z.of_nat (length pin) <= 10)%Z) by lia.
  rewrite (encode_finite _ _ _ Hin Hp) in Henc. injection Henc as <-.
  rewrite Nat2Z.id. set (lat := (minLat b +! maxLat b) /! 2 +! fst dir) in *.
  set (lon := (minLon b +! maxLon b) /! 2 +! snd dir) in *.
  pose proof (decode_encoded lat lon _ Hp) as HdK. rewrite Nat2Z.id in HdK.
  cbv zeta in HdK. eexists. split; [exact HdK|].
  cbn [precision latitude longitude]. split; [reflexivity|].
  set (bK := cellOf (length pin) lat lon BOUNDS) in *.
  pose proof (decode_loop_aligned _ _ 0 _ _ Hloop BOUNDS_aligned) as Ha.
  pose proof (decode_loop_aligned _ _ 0 _ _
                (decode_loop_symbols (length pin) lat lon 0 BOUNDS) BOUNDS_aligned) as HaK.
  rewrite symbols_length in HaK. fold bK in HaK. cbn [Nat.add] in Ha, HaK.
  destruct (aligned_extent _ _ Ha) as (Xlat & Xlon).
  destruct Ha as (k & j & Hk & Hj & A1 & A2 & A3 & A4).
  destruct HaK as (k' & j' & Hk' & Hj' & B1 & B2 & B3 & B4).
  destruct (cellOf_contains (length pin) lat lon BOUNDS BOUNDS_wellFormed Hin)
    as (C1 & C2 & C3 & C4). fold bK in C1, C2, C3, C4.
  destruct (direction_cases _ _ _ Hdir) as (dlat & dlon & Rlat & Rlon & Hne & Elat & Elon).
  rewrite qsub_eq, Xlat in Elat. rewrite qsub_eq, Xlon in Elon.
  pose proof (offset_cell_centre _ k k' dlat _ _ _ _ _ _ A1 A2 Elat B1 B2 C1 C2) as Rl.
  pose proof (offset_cell_centre _ j j' dlon _ _ _ _ _ _ A3 A4 Elon B3 B4 C3 C4) as Rn.
  split; [exact Rl|]. split; [exact Rn|].
  rewrite Rl, Rn, Elat, Elon. intros (Z1 & Z2).
  pose proof (cellWidth_pos (length pin)) as Hw.
  set (cLat := (minLat b +! maxLat b) /! 2) in *.
  set (cLon := (minLon b +! maxLon b) /! 2) in *. clearbody cLat cLon.
  assert (Q1 : inject_Z dlat * cellWidth (length pin) == 0)
    by (apply (Qplus_inj_l _ _ cLat); rewrite Z1; ring).
  assert (Q2 : inject_Z dlon * cellWidth (length pin) == 0)
    by (apply (Qplus_inj_l _ _ cLon); rewrite Z2; ring).
  apply (no_offset _ _ Hw) in Q1. apply (no_offset _ _ Hw) in Q2. lia.
Qed.

(** X4 -- Every code [getNeighbors] returns is the code of an adjacent
    cell: [decode] accepts it at the precision of the input, and its
    centre is the centre of the input cell moved by one cell extent along
    one of the eight compass offsets; in particular it is never the input
    cell itself. *)
Theorem neighbors_are_adjacent (code : str) (d : Decoded) (l : list str) :
  decode code = OK d -> getNeighbors code = OK l ->
  forall K, In K l ->
    exists dir dK,
      In dir (directions (north (bounds d) -! south (bounds d))
                         (east (bounds d) -! west (bounds d))) /\
      decode K = OK dK /\ precision dK = precision d /\
      latitude dK == latitude d + fst dir /\
      longitude dK == longitude d + snd dir /\
      ~ (latitude dK == latitude d /\ longitude dK == longitude d).
Proof.
  intros Hdec Hn K HK. unfold getNeighbors in Hn. rewrite Hdec in Hn.
  set (nb := fold_left _ _ _) in Hn. assert (E : l = nb) by congruence.
  subst l. unfold nb in HK.
  destruct (visit_all_members _ _ _ _ _ _ HK) as [[] | (dir & Hdir & Hin & Henc)].
  destruct (neighbour_is_adjacent code d dir K Hdec Hdir Hin Henc) as (dK & H).
  exists dir, dK. split; [exact Hdir | exact H].
Qed.

Lemma neighbors_are_adjacent_witness :
  exists d l,
    decode (lit "F") = OK d /\ getNeighbors (lit "F") = OK l /\
    forall K, In K l ->
      exists dir dK,
        In dir (directions (north (bounds d) -! south (bounds d))
                           (east (bounds d) -! west (bounds d))) /\
        decode K = OK dK /\ precision dK = precision d /\
        latitude dK == latitude d + fst dir /\
        longitude dK == longitude d + snd dir /\
        ~ (latitude dK == latitude d /\ longitude dK == longitude d).
Proof.
  destruct (decode (lit "F")) as [d|e] eqn:H;
    [|vm_compute in H; discriminate H].
  destruct (getNeighbors (lit "F")) as [l|e] eqn:Hl;
    [|vm_compute in Hl; discriminate Hl].
  exists d, l. split; [reflexivity|]. split; [reflexivity|].
  apply (neighbors_are_adjacent (lit "F") d l H Hl).
Defined.

(* ================================================================== *)
(** ** Siblings *)

Lemma str_eqb_eq (a b : str) : str_eqb a b = true <-> a = b.
Proof. unfold str_eqb. destruct (list_eq_dec ascii_dec a b); split; congruence. Qed.

Lemma str_eqb_neq (a b : str) : str_eqb a b = false <-> a <> b.
Proof. unfold str_eqb. destruct (list_eq_dec ascii_dec a b); split; congruence. Qed.

Lemma sanitized_snoc (s : str) (ch : ascii) :
  sanitized s -> ch <> hyphen -> sanitized (s ++ [ch]).
Proof.
  intros Hs Hch Hin. apply in_app_or in Hin.
  destruct Hin as [Hin | [-> | []]]; [exact (Hs Hin) | exact (Hch eq_refl)].
Qed.

Lemma getChildren_OK (P : str) :
  sanitized P -> (length P < 10)%nat ->
  getChildren P = OK (map (childOf P) DIGIPIN_CHARS).
Proof.
  intros Hs Hlen. unfold getChildren. rewrite (stripHyphens_sanitized _ Hs).
  destruct (Nat.leb_spec 10 (length P)); [lia | reflexivity].
Qed.

Lemma stripHyphens_childOf (P : str) (ch : ascii) :
  sanitized P -> ch <> hyphen -> stripHyphens (childOf P ch) = P ++ [ch].
Proof.
  intros Hs Hch. pose proof (sanitized_snoc P ch Hs Hch) as Hsan. unfold childOf.
  destruct (length (P ++ [ch]) =? 10)%nat.
  - apply (stripHyphens_grouped _ Hsan).
  - apply (stripHyphens_sanitized _ Hsan).
Qed.

Lemma others_in_alphabet (last : ascii) :
  inAlphabet last ->
  length (filter (fun ch => negb (Ascii.eqb ch last)) DIGIPIN_CHARS) = 15%nat.
Proof.
  intros H.
  apply (alphabet_cases last
           (fun last => length (filter (fun ch => negb (Ascii.eqb ch last)) DIGIPIN_CHARS)
                        = 15%nat) H).
  repeat constructor.
Qed.

Lemma others_outside_alphabet (last : ascii) :
  ~ inAlphabet last ->
  filter (fun ch => negb (Ascii.eqb ch last)) DIGIPIN_CHARS = DIGIPIN_CHARS.
Proof.
  intros H. apply forallb_filter_id. apply forallb_forall. intros ch Hch.
  apply negb_true_iff, Ascii.eqb_neq. intros ->. exact (H Hch).
Qed.

Lemma getSiblings_shape (code : str) (last : ascii) :
  let clean := stripHyphens code in
  (2 <= length clean <= 10)%nat -> clean = dropLast clean ++ [last] ->
  getSiblings code
  = map (childOf (dropLast clean))
        (filter (fun ch => negb (Ascii.eqb ch last)) DIGIPIN_CHARS).
Proof.
  intros clean Hlen Hsplit. unfold getSiblings, getParent. fold clean.
  destruct (Nat.leb_spec (length clean) 1); [lia|].
  set (P := dropLast clean) in *.
  assert (HsP : sanitized P) by (apply sanitized_firstn, stripHyphens_is_sanitized).
  assert (HlP : (length P < 10)%nat) by (unfold P; rewrite dropLast_length; lia).
  rewrite (getChildren_OK P HsP HlP), filter_map_swap. f_equal.
  apply filter_ext_in. intros ch Hch.
  rewrite (stripHyphens_childOf P ch HsP (alphabet_not_hyphen ch Hch)), Hsplit.
  f_equal. destruct (Ascii.eqb ch last) eqn:E.
  - apply Ascii.eqb_eq in E. subst ch. apply str_eqb_eq. reflexivity.
  - apply Ascii.eqb_neq in E. apply str_eqb_neq. intros Heq.
    apply app_inj_tail in Heq. destruct Heq as (_ & Heq). exact (E Heq).
Qed.

(** X5 -- [getSiblings] on the separator-stripped code [clean]: it
    returns the empty list when [clean] has at most 1 or more than 10
    characters; otherwise it returns the children of the parent whose
    last symbol differs from the last character of [clean] -- 15 codes
    when that character is in the alphabet, all 16 when it is not -- and
    every sibling has the parent of the code and differs from the code. *)
Theorem siblings_count (code : str) :
  let clean := stripHyphens code in
  ((length clean <= 1 \/ 11 <= length clean)%nat -> getSiblings code = []) /\
  ((2 <= length clean <= 10)%nat ->
   (forall last, clean = dropLast clean ++ [last] ->
      (inAlphabet last -> length (getSiblings code) = 15%nat) /\
      (~ inAlphabet last -> length (getSiblings code) = 16%nat)) /\
   (forall K, In K (getSiblings code) ->
      getParent K = OK (dropLast clean) /\ stripHyphens K <> clean)).
Proof.
  intros clean. split.
  - intros Hlen. unfold getSiblings, getParent. fold clean.
    destruct (Nat.leb_spec (length clean) 1); [reflexivity|].
    unfold getChildren.
    rewrite stripHyphens_sanitized by (apply sanitized_firstn, stripHyphens_is_sanitized).
    rewrite dropLast_length.
    destruct (Nat.leb_spec 10 (length clean - 1)); [reflexivity | lia].
  - intros Hlen. destruct (dropLast_split clean) as (last0 & Hsplit0); [lia|].
    assert (HsP : sanitized (dropLast clean))
      by (apply sanitized_firstn, stripHyphens_is_sanitized).
    split.
    + intros last Hsplit. rewrite (getSiblings_shape code last Hlen Hsplit), length_map.
      split; intros Hl.
      * apply others_in_alphabet. exact Hl.
      * rewrite (others_outside_alphabet last Hl). reflexivity.
    + intros K HK. rewrite (getSiblings_shape code last0 Hlen Hsplit0) in HK.
      fold clean in HK. apply in_map_iff in HK. destruct HK as (ch & <- & Hch).
      apply filter_In in Hch. destruct Hch as (Hch & Hne).
      apply negb_true_iff, Ascii.eqb_neq in Hne.
      pose proof (alphabet_not_hyphen ch Hch) as Hnh.
      split.
      * unfold getParent. rewrite (stripHyphens_childOf _ ch HsP Hnh), length_app.
        cbn [length]. rewrite dropLast_length.
        destruct (Nat.leb_spec (length clean - 1 + 1) 1); [lia|].
        rewrite dropLast_snoc. reflexivity.
      * rewrite (stripHyphens_childOf _ ch HsP Hnh). fold clean. rewrite Hsplit0 at 2.
        intros Heq. apply app_inj_tail in Heq. destruct Heq as (_ & Heq). exact (Hne Heq).
Qed.

Example siblings_outside_alphabet : length (getSiblings (lit "39x")) = 16%nat.
Proof. reflexivity. Qed.

(* ================================================================== *)
(** ** Neighbours within a radius *)

Lemma forUp_flat {A : Type} (body : Z -> list A -> list A) (c : Z -> list A) :
  (forall j s, body j s = s ++ c j) ->
  forall (n : nat) (i : Z) (s : list A),
    forUp n i body s = s ++ flat_map c (zrange n i).
Proof.
  intros Hbody. induction n as [|n IH]; intros i s; cbn [forUp zrange flat_map].
  - rewrite app_nil_r. reflexivity.
  - rewrite IH, Hbody, <- app_assoc. reflexivity.
Qed.

Lemma zrange_app (a b : nat) (i : Z) :
  zrange (a + b) i = zrange a i ++ zrange b (i + Z.of_nat a).
Proof.
  revert i. induction a as [|a IH]; intros i.
  - cbn. rewrite Z.add_0_r. reflexivity.
  - cbn [Nat.add zrange app]. rewrite IH. do 3 f_equal. lia.
Qed.

Lemma zrange_length (n : nat) (i : Z) : length (zrange n i) = n.
Proof. revert i. induction n as [|n IH]; intros i; cbn; [|rewrite IH]; reflexivity. Qed.

Lemma visitOffset_app (cLat cLon : Q) (p : Z) (acc : list str) (d : Q * Q) :
  visitOffset cLat cLon p acc d = acc ++ visitOffset cLat cLon p [] d.
Proof.
  unfold visitOffset. destruct (inBOUNDS _ _); [|rewrite app_nil_r; reflexivity].
  destruct (encode _ _ _); [reflexivity | rewrite app_nil_r; reflexivity].
Qed.

Lemma getNeighborsInRadius_flat (digipin : str) (decoded : Decoded) (radius : Z) :
  decode digipin = OK decoded ->
  getNeighborsInRadius digipin radius
  = OK (flat_map (fun latOffset =>
                    flat_map (cellAt decoded latOffset)
                             (zrange (span (- radius) radius) (- radius)))
                 (zrange (span (- radius) radius) (- radius))).
Proof.
  intros Hdec. unfold getNeighborsInRadius. rewrite Hdec. f_equal.
  rewrite (forUp_flat _ (fun latOffset =>
             flat_map (cellAt decoded latOffset)
                      (zrange (span (- radius) radius) (- radius)))).
  - reflexivity.
  - intros latOffset s. apply forUp_flat. intros lonOffset s'. unfold cellAt.
    destruct ((latOffset =? 0)%Z && (lonOffset =? 0)%Z).
    + rewrite app_nil_r. reflexivity.
    + apply visitOffset_app.
Qed.

Lemma cellAt_length (decoded : Decoded) (latOffset lonOffset : Z) :
  (length (cellAt decoded latOffset lonOffset) <= 1)%nat.
Proof.
  unfold cellAt. destruct ((latOffset =? 0)%Z && (lonOffset =? 0)%Z); [cbn; lia|].
  apply (visitOffset_length _ _ _ []).
Qed.

Lemma flat_map_length_le {A B : Type} (f : A -> list B) (k : nat) (l : list A) :
  (forall x, (length (f x) <= k)%nat) ->
  (length (flat_map f l) <= k * length l)%nat.
Proof.
  intros H. induction l as [|x l IH]; cbn [flat_map length]; [lia|].
  rewrite length_app. specialize (H x). lia.
Qed.

Lemma span_radius (radius : Z) :
  (0 <= radius)%Z ->
  span (- radius) radius = (Z.to_nat radius + (1 + Z.to_nat radius))%nat.
Proof. intros H. unfold span. lia. Qed.

Lemma radius_count (decoded : Decoded) (radius : Z) :
  (0 <= radius)%Z ->
  (Z.of_nat (length (flat_map (fun latOffset =>
                       flat_map (cellAt decoded latOffset)
                                (zrange (span (- radius) radius) (- radius)))
                    (zrange (span (- radius) radius) (- radius))))
   <= (2 * radius + 1) * (2 * radius + 1) - 1)%Z.
Proof.
  intros Hr. rewrite (span_radius radius Hr).
  set (r := Z.to_nat radius).
  set (row := zrange (r + (1 + r)) (- radius)).
  assert (Hrow : forall lat, (length (flat_map (cellAt decoded lat) row) <= 2 * r + 1)%nat).
  { intros lat.
    pose proof (flat_map_length_le (cellAt decoded lat) 1 row (cellAt_length decoded lat)) as H.
    unfold row in H at 2. rewrite zrange_length in H. lia. }
  assert (Hmid : (length (flat_map (cellAt decoded 0) row) <= 2 * r)%nat).
  { unfold row. rewrite zrange_app, (zrange_app 1 r), !flat_map_app, !length_app.
    replace (- radius + Z.of_nat r)%Z with 0%Z by lia.
    pose proof (flat_map_length_le (cellAt decoded 0) 1 (zrange r (- radius))
                  (cellAt_length decoded 0)) as H1.
    pose proof (flat_map_length_le (cellAt decoded 0) 1 (zrange r (0 + Z.of_nat 1))
                  (cellAt_length decoded 0)) as H2.
    rewrite zrange_length in H1, H2. cbn [zrange flat_map cellAt Z.eqb andb length app].
    lia. }
  unfold row at 2. rewrite zrange_app, (zrange_app 1 r), !flat_map_app, !length_app.
  replace (- radius + Z.of_nat r)%Z with 0%Z by lia.
  pose proof (flat_map_length_le (fun lat => flat_map (cellAt decoded lat) row) (2 * r + 1)
                (zrange r (- radius)) Hrow) as H1.
  pose proof (flat_map_length_le (fun lat => flat_map (cellAt decoded lat) row) (2 * r + 1)
                (zrange r (0 + Z.of_nat 1)) Hrow) as H2.
  rewrite zrange_length in H1, H2. cbn [zrange flat_map]. rewrite app_nil_r.
  assert (Er : radius = Z.of_nat r) by (unfold r; lia).
  set (above := length (flat_map _ (zrange r (- radius)))) in *.
  set (below := length (flat_map _ (zrange r (0 + Z.of_nat 1)))) in *.
  set (middle := length (flat_map (cellAt decoded 0) row)) in *.
  clearbody above below middle. nia.
Qed.

(** X6 -- [getNeighborsInRadius] on a code [decode] accepts raises
    nothing; for a radius of 0 or less it returns the empty list, and for
    a radius [r >= 0] at most [(2r+1)^2 - 1] codes. *)
Theorem neighbors_in_radius_count (code : str) (d : Decoded) (radius : Z) :
  decode code = OK d ->
  exists l,
    getNeighborsInRadius code radius = OK l /\
    ((radius <= 0)%Z -> l = []) /\
    ((0 <= radius)%Z ->
     (Z.of_nat (length l) <= (2 * radius + 1) * (2 * radius + 1) - 1)%Z).
Proof.
  intros Hdec. rewrite (getNeighborsInRadius_flat code d radius Hdec).
  eexists. split; [reflexivity|]. split.
  - intros Hr. destruct (Z.eq_dec radius 0) as [->|Hne]; [reflexivity|].
    replace (span (- radius) radius) with 0%nat by (unfold span; lia). reflexivity.
  - apply radius_count.
Qed.

Lemma neighbors_in_radius_count_witness :
  exists d l,
    decode (lit "39J") = OK d /\
    getNeighborsInRadius (lit "39J") 2 = OK l /\
    (Z.of_nat (length l) <= (2 * 2 + 1) * (2 * 2 + 1) - 1)%Z.
Proof.
  destruct (decode (lit "39J")) as [d|e] eqn:H;
    [|vm_compute in H; discriminate H].
  destruct (neighbors_in_radius_count (lit "39J") d 2 H) as (l & Hl & _ & Hb).
  exists d, l. split; [reflexivity|]. split; [exact Hl|]. apply Hb. lia.
Defined.

Lemma Permutation_flat_map {A B : Type} (f : A -> list B) (l l' : list A) :
  Permutation l l' -> Permutation (flat_map f l) (flat_map f l').
Proof.
  induction 1 as [|x l l' _ IH|x y l|l l' l'' _ IH1 _ IH2]; cbn [flat_map].
  - apply perm_nil.
  - apply Permutation_app_head. exact IH.
  - rewrite !app_assoc. apply Permutation_app_tail. apply Permutation_app_comm.
  - apply (perm_trans IH1 IH2).
Qed.

Lemma fold_visit_flat (cLat cLon : Q) (p : Z) (ds : list (Q * Q)) :
  forall acc : list str,
    fold_left (visitOffset cLat cLon p) ds acc
    = acc ++ flat_map (visitOffset cLat cLon p []) ds.
Proof.
  induction ds as [|d ds IH]; intros acc; cbn [fold_left flat_map].
  - rewrite app_nil_r. reflexivity.
  - rewrite IH, (visitOffset_app _ _ _ acc d), <- app_assoc. reflexivity.
Qed.

Lemma visitOffset_ext (cLat cLon : Q) (p : Z) (acc : list str) (d d' : Q * Q) :
  fst d == fst d' -> snd d == snd d' ->
  visitOffset cLat cLon p acc d = visitOffset cLat cLon p acc d'.
Proof.
  intros H1 H2. unfold visitOffset, qadd.
  rewrite (Qred_complete (cLat + fst d) (cLat + fst d')) by (rewrite H1; reflexivity).
  rewrite (Qred_complete (cLon + snd d) (cLon + snd d')) by (rewrite H2; reflexivity).
  reflexivity.
Qed.

Lemma getNeighbors_compass (code : str) (d : Decoded) :
  decode code = OK d ->
  getNeighbors code = OK (flat_map (fun o => cellAt d (fst o) (snd o)) compass).
Proof.
  intros Hdec. unfold getNeighbors. rewrite Hdec, fold_visit_flat. f_equal.
  unfold directions, compass. cbn [flat_map app fst snd].
  unfold cellAt. cbn [Z.eqb andb].
  repeat (apply (f_equal2 (@app str));
          [apply visitOffset_ext; cbn [fst snd]; qexact;
           change (inject_Z 1) with 1; change (inject_Z 0) with 0;
           change (inject_Z (-1)) with (- (1)); ring|]).
  reflexivity.
Qed.

Lemma getNeighborsInRadius_ring (code : str) (d : Decoded) :
  decode code = OK d ->
  getNeighborsInRadius code 1 = OK (flat_map (fun o => cellAt d (fst o) (snd o)) ring).
Proof.
  intros Hdec. rewrite (getNeighborsInRadius_flat code d 1 Hdec). f_equal.
  change (span (- (1)) 1) with 3%nat. unfold ring. cbn [zrange flat_map fst snd Z.add Z.opp Pos.add Z.pos_sub Pos.succ Z.succ_double Z.pred_double Z.double Pos.pred_double].
  change (cellAt d 0 0) with (@nil str).
  rewrite ?app_nil_r, ?app_nil_l, <- ?app_assoc. reflexivity.
Qed.

Lemma compass_ring : Permutation compass ring.
Proof.
  apply NoDup_Permutation.
  - unfold compass. repeat (constructor; [cbn; intuition discriminate|]). constructor.
  - unfold ring. repeat (constructor; [cbn; intuition discriminate|]). constructor.
  - intros x. unfold compass, ring. cbn [In]. tauto.
Qed.

(** X7 -- At radius 1 [getNeighborsInRadius] returns the codes that
    [getNeighbors] returns, in another order. *)
Theorem radius_one_is_neighbors (code : str) (d : Decoded) :
  decode code = OK d ->
  exists l1 l2,
    getNeighbors code = OK l1 /\
    getNeighborsInRadius code 1 = OK l2 /\
    Permutation l1 l2.
Proof.
  intros Hdec. do 2 eexists.
  split; [apply (getNeighbors_compass code d Hdec)|].
  split; [apply (getNeighborsInRadius_ring code d Hdec)|].
  apply Permutation_flat_map, compass_ring.
Qed.

Lemma radius_one_is_neighbors_witness :
  exists d l1 l2,
    decode (lit "F") = OK d /\
    getNeighbors (lit "F") = OK l1 /\
    getNeighborsInRadius (lit "F") 1 = OK l2 /\
    Permutation l1 l2.
Proof.
  destruct (decode (lit "F")) as [d|e] eqn:H;
    [|vm_compute in H; discriminate H].
  destruct (radius_one_is_neighbors (lit "F") d H) as (l1 & l2 & H1 & H2 & HP).
  exists d, l1, l2. split; [reflexivity|]. auto.
Defined.

(* ================================================================== *)
(** ** The grid around a cell *)













Example getGrid_corner :
  getGrid (lit "F") 3
  = Returns [ [None; None; None];
              [None; Some (lit "F"); Some (lit "C")];
              [None; Some (lit "J"); Some (lit "3")] ].
Proof. vm_compute. reflexivity. Qed.

(* ================================================================== *)
(** ** Encoding with bounds *)

Lemma scanGrid_symbolAt (r c : Z) :
  (0 <= r <= 3)%Z -> (0 <= c <= 3)%Z ->
  scanGrid DIGIPIN_GRID (symbolAt r c) 0 = (r, c).
Proof.
  intros Hr Hc.
  assert (Er : (r = 0 \/ r = 1 \/ r = 2 \/ r = 3)%Z) by lia.
  assert (Ec : (c = 0 \/ c = 1 \/ c = 2 \/ c = 3)%Z) by lia.
  destruct Er as [-> | [-> | [-> | ->]]];
    destruct Ec as [-> | [-> | [-> | ->]]]; reflexivity.
Qed.

Lemma scan_symbols (n : nat) (lat lon : Q) :
  forall b : Box,
    fold_left (fun b char => let '(ri, ci) := scanGrid DIGIPIN_GRID char 0%Z in
                             narrow b ri ci)
              (symbols n lat lon b) b
    = cellOf n lat lon b.
Proof.
  induction n as [|n IH]; intros b; [reflexivity|].
  cbn [symbols cellOf fold_left].
  rewrite (scanGrid_symbolAt _ _ (rowZ_range b lat) (colZ_range b lon)).
  apply IH.
Qed.

Lemma encodeWithBounds_finite (lat lon : Q) (p : Z) :
  contains BOUNDS lat lon -> (1 <= p <= 10)%Z ->
  let b := cellOf (Z.to_nat p) lat lon BOUNDS in
  encodeWithBounds (Num lat) (Num lon) p
  = OK {| ewb_digipin := withHyphens p 1 (symbols (Z.to_nat p) lat lon BOUNDS);
          ewb_bounds := {| north := maxLat b; south := minLat b;
                           east := maxLon b; west := minLon b |};
          ewb_center_lat := (minLat b +! maxLat b) /! 2;
          ewb_center_lon := (minLon b +! maxLon b) /! 2;
          ewb_area := (maxLat b -! minLat b) *! (maxLon b -! minLon b) |}.
Proof.
  intros Hin Hp b. unfold encodeWithBounds. rewrite (encode_finite lat lon p Hin Hp).
  pose proof (symbols_alphabet (Z.to_nat p) lat lon BOUNDS) as Halpha.
  rewrite (stripHyphens_withHyphens _ _ _ (sanitized_alphabet _ Halpha)), symbols_length.
  replace (Z.to_nat (Z.min (Z.of_nat (Z.to_nat p)) p)) with (Z.to_nat p) by lia.
  rewrite (firstn_all2 (n := Z.to_nat p) (symbols (Z.to_nat p) lat lon BOUNDS))
    by (rewrite symbols_length; lia).
  rewrite scan_symbols. reflexivity.
Qed.

(** X9 -- [encodeWithBounds] agrees with [decode]: on a valid coordinate
    and precision it returns the code [encode] returns together with the
    bounds and the centre [decode] returns for that code; the bounds
    contain the coordinate and the area (in square degrees) is the square
    of the cell extent of the level. *)
Theorem encodeWithBounds_agrees (lat lon : Q) (p : Z) :
  contains BOUNDS lat lon -> (1 <= p <= 10)%Z ->
  exists code d r,
    encode (Num lat) (Num lon) p = OK code /\
    decode code = OK d /\
    encodeWithBounds (Num lat) (Num lon) p = OK r /\
    ewb_digipin r = code /\
    ewb_bounds r = bounds d /\
    ewb_center_lat r = latitude d /\ ewb_center_lon r = longitude d /\
    boundsContain (ewb_bounds r) lat lon /\
    ewb_area r == cellWidth (Z.to_nat p) * cellWidth (Z.to_nat p).
Proof.
  intros Hin Hp. do 3 eexists.
  split; [apply (encode_finite lat lon p Hin Hp)|].
  split; [apply (decode_encoded lat lon p Hp)|].
  split; [apply (encodeWithBounds_finite lat lon p Hin Hp)|].
  cbn [ewb_digipin ewb_bounds ewb_center_lat ewb_center_lon ewb_area
       bounds latitude longitude].
  do 4 (split; [reflexivity|]).
  set (b := cellOf (Z.to_nat p) lat lon BOUNDS).
  split.
  - pose proof (cellOf_contains (Z.to_nat p) lat lon BOUNDS BOUNDS_wellFormed Hin) as Hc.
    unfold contains in Hc. unfold boundsContain. cbn [north south east west]. tauto.
  - pose proof (decode_loop_aligned _ _ 0 _ _
                  (decode_loop_symbols (Z.to_nat p) lat lon 0 BOUNDS) BOUNDS_aligned) as Ha.
    rewrite symbols_length in Ha. cbn [Nat.add] in Ha.
    destruct (aligned_extent _ _ Ha) as (Xlat & Xlon). fold b in Xlat, Xlon.
    qexact. rewrite Xlat, Xlon. reflexivity.
Qed.

Lemma encodeWithBounds_agrees_witness :
  contains BOUNDS 28.6139 77.2090 /\
  exists code d r,
    encode (Num 28.6139) (Num 77.2090) 4 = OK code /\
    decode code = OK d /\
    encodeWithBounds (Num 28.6139) (Num 77.2090) 4 = OK r /\
    ewb_digipin r = code /\
    ewb_bounds r = bounds d /\
    ewb_center_lat r = latitude d /\ ewb_center_lon r = longitude d /\
    boundsContain (ewb_bounds r) 28.6139 77.2090 /\
    ewb_area r == cellWidth (Z.to_nat 4) * cellWidth (Z.to_nat 4).
Proof.
  assert (H : contains BOUNDS 28.6139 77.2090)
    by (unfold contains; repeat split; vm_compute; discriminate).
  split; [exact H|].
  apply (encodeWithBounds_agrees 28.6139 77.2090 4 H). lia.
Defined.

(* ================================================================== *)
(** ** Batch decoding *)

Lemma decodeBatch_from_OK (digipins : list str) :
  forall (index : Z) (ds : list Decoded),
    decodeBatch_from index digipins = Returns ds <->
    map decode digipins = map OK ds.
Proof.
  induction digipins as [|pin rest IH]; intros index ds; cbn [decodeBatch_from map].
  - split.
    + intros [= <-]. reflexivity.
    + destruct ds; [reflexivity | discriminate].
  - destruct (decode pin) as [d|e] eqn:E.
    + destruct (decodeBatch_from (index + 1) rest) as [ds'|e'] eqn:E'.
      * apply IH in E'. split.
        -- intros [= <-]. cbn [map]. rewrite E'. reflexivity.
        -- destruct ds as [|d0 ds0]; [discriminate|]. cbn [map]. intros [= <- H].
           rewrite E' in H. apply (f_equal (map (fun r => match r with OK x => [x] | Err _ => [] end))) in H.
           rewrite !map_map in H. cbn beta iota in H.
           assert (Hs : forall l : list Decoded, concat (map (fun x => [x]) l) = l)
             by (induction l as [|x l IHl]; cbn; [|rewrite IHl]; reflexivity).
           apply (f_equal (@concat Decoded)) in H. rewrite !Hs in H. subst. reflexivity.
      * split; [discriminate|].
        destruct ds as [|d0 ds0]; [discriminate|]. cbn [map]. intros [= <- H].
        apply (IH (index + 1)%Z ds0) in H. congruence.
    + split; [discriminate|]. destruct ds; discriminate.
Qed.

Lemma decodeBatch_from_first_error (pre : list str) (pin : str) (post : list str) (e : error) :
  forall index : Z,
    Forall (fun c => exists d, decode c = OK d) pre -> decode pin = Err e ->
    decodeBatch_from index (pre ++ pin :: post)
    = Throws (DecodeAtIndex (index + Z.of_nat (length pre)) e).
Proof.
  induction pre as [|c pre IH]; intros index Hpre Hpin.
  - cbn [app decodeBatch_from length]. rewrite Hpin. do 2 f_equal. lia.
  - inversion Hpre as [|? ? (d & Hc) Hrest]; subst.
    cbn [app decodeBatch_from length]. rewrite Hc, (IH (index + 1)%Z Hrest Hpin).
    do 2 f_equal. lia.
Qed.

(** X10 -- [decodeBatch] is all or nothing: it returns exactly when
    [decode] accepts every code, and then returns their decodings in
    order; otherwise it raises an error carrying the 0-based index of the
    first code [decode] rejects, and that code's error. *)
Theorem decodeBatch_all_or_first_error (digipins : list str) :
  (forall ds, decodeBatch digipins = Returns ds <-> map decode digipins = map OK ds) /\
  (forall pre pin post e,
     digipins = pre ++ pin :: post ->
     Forall (fun c => exists d, decode c = OK d) pre -> decode pin = Err e ->
     decodeBatch digipins = Throws (DecodeAtIndex (Z.of_nat (length pre)) e)).
Proof.
  split.
  - intros ds. apply decodeBatch_from_OK.
  - intros pre pin post e -> Hpre Hpin. unfold decodeBatch.
    rewrite (decodeBatch_from_first_error pre pin post e 0 Hpre Hpin). reflexivity.
Qed.

Example decodeBatch_second_invalid :
  decodeBatch [lit "39J"; lit "39X"; lit ""]
  = Throws (DecodeAtIndex 1 (InvalidCharacter "X" 3)).
Proof. reflexivity. Qed.

(* ================================================================== *)
(** ** Subdivisions *)

Lemma upperChar_idem (c : ascii) : upperChar (upperChar c) = upperChar c.
Proof. destruct c as [[] [] [] [] [] [] [] []]; reflexivity. Qed.

Lemma toUpperCase_idem (s : str) : toUpperCase (toUpperCase s) = toUpperCase s.
Proof.
  unfold toUpperCase. rewrite map_map. apply map_ext. intros c. apply upperChar_idem.
Qed.

Lemma normalised_fixed (s : str) :
  let pin := toUpperCase (stripHyphens s) in
  toUpperCase (stripHyphens pin) = pin.
Proof.
  intros pin. unfold pin.
  rewrite (stripHyphens_sanitized (toUpperCase (stripHyphens s)))
    by (apply toUpperCase_sanitized, stripHyphens_is_sanitized).
  apply toUpperCase_idem.
Qed.

Lemma decode_normalised (s : str) :
  decode (toUpperCase (stripHyphens s)) = decode s.
Proof. unfold decode, decodeWith. rewrite (normalised_fixed s). reflexivity. Qed.

Lemma extension_loop_spec (levels : nat) :
  forall (temp : Z) (extension : str),
    exists ext,
      extension_loop levels temp extension = extension ++ ext /\
      length ext = levels /\ Forall inAlphabet ext.
Proof.
  induction levels as [|k IH]; intros temp extension; cbn [extension_loop].
  - exists []. rewrite app_nil_r. repeat split. constructor.
  - destruct (IH (temp / 16)%Z
                (extension ++ [symbolAt (temp mod 16 / 4) ((temp mod 16) mod 4)]))
      as (ext & -> & Hlen & Halpha).
    exists (symbolAt (temp mod 16 / 4) ((temp mod 16) mod 4) :: ext).
    rewrite <- app_assoc. split; [reflexivity|]. split; [cbn [length]; lia|].
    constructor; [|exact Halpha].
    pose proof (Z.mod_pos_bound temp 16 ltac:(lia)).
    apply symbolAt_alphabet.
    + split; [apply Z.div_pos; lia | apply Z.lt_succ_r, Z.div_lt_upper_bound; lia].
    + pose proof (Z.mod_pos_bound (temp mod 16) 4 ltac:(lia)). lia.
Qed.

Lemma decode_loop_alphabet_pin (s : str) (b : Box) (i : Z) :
  decode_loop s i BOUNDS = OK b -> Forall inAlphabet s.
Proof. intros H. apply (decode_loop_OK s i BOUNDS). eauto. Qed.

Lemma decode_extended (code : str) (base : Decoded) (ext : str) :
  decode code = OK base -> Forall inAlphabet ext ->
  let pin := toUpperCase (stripHyphens code) in
  (length pin + length ext <= 10)%nat ->
  exists d,
    decode (pin ++ ext) = OK d /\
    precision d = Z.of_nat (length pin + length ext) /\
    boundsInside (bounds d) (bounds base).
Proof.
  intros Hdec Hext pin Hlen.
  destruct (decode_OK_inv _ _ Hdec) as (Hl & b & Hloop & ->). fold pin in Hl, Hloop.
  pose proof (decode_loop_alphabet_pin _ _ _ Hloop) as Hpin.
  assert (Hall : Forall inAlphabet (pin ++ ext)) by (apply Forall_app; split; assumption).
  assert (Hnorm : toUpperCase (stripHyphens (pin ++ ext)) = pin ++ ext).
  { rewrite (stripHyphens_sanitized _ (sanitized_alphabet _ Hall)).
    apply toUpperCase_alphabet. exact Hall. }
  pose proof (decode_loop_wellFormed _ _ _ _ Hloop BOUNDS_wellFormed) as Hwf.
  destruct (proj2 (decode_loop_OK ext (0 + Z.of_nat (length pin)) b) Hext) as (b' & Hloop').
  assert (Hfull : decode_loop (pin ++ ext) 0 BOUNDS = OK b')
    by (rewrite decode_loop_app, Hloop; exact Hloop').
  exists (decodedOf (pin ++ ext) b'). split; [|split].
  - rewrite <- Hnorm at 2. apply decode_OK_intro; rewrite Hnorm.
    + rewrite length_app. lia.
    + exact Hfull.
  - cbn [precision decodedOf]. rewrite length_app. reflexivity.
  - pose proof (decode_loop_inside _ _ _ _ Hloop' Hwf) as (I1 & I2 & I3 & I4).
    unfold boundsInside. cbn [bounds decodedOf north south east west]. tauto.
Qed.

Lemma subdivisions_loop_spec (pin : str) (k : nat) (P : Decoded -> Prop) :
  (forall i, exists d, decode (pin ++ extension_loop k i []) = OK d /\ P d) ->
  forall (n : nat) (i : Z) (acc : list Decoded),
    Forall P acc ->
    (Z.of_nat (length acc) + Z.of_nat n <= MAX_ARRAY_LENGTH)%Z ->
    exists l,
      subdivisions_loop n i pin k acc = Returns l /\
      length l = (length acc + n)%nat /\ Forall P l.
Proof.
  intros Hstep. induction n as [|n IH]; intros i acc Hacc Hfit; cbn [subdivisions_loop].
  - exists acc. split; [reflexivity|]. split; [lia | exact Hacc].
  - destruct (Hstep i) as (d & -> & Hd).
    destruct (Z.leb_spec MAX_ARRAY_LENGTH (Z.of_nat (length acc))) as [Hfull|_]; [lia|].
    destruct (IH (i + 1)%Z (acc ++ [d])) as (l & Hl & Hlen & HP).
    + apply Forall_app. split; [exact Hacc | repeat constructor; exact Hd].
    + rewrite length_app. cbn [length]. lia.
    + exists l. split; [exact Hl|]. split; [|exact HP].
      rewrite Hlen, length_app. cbn [length]. lia.
Qed.

Lemma getSubDivisions_OK (code : str) (base : Decoded) (T : Z) :
  decode code = OK base -> (precision base < T)%Z -> (T <= 10)%Z ->
  (T - precision base <= 7)%Z ->
  exists l,
    getSubDivisions code T = Returns l /\
    Z.of_nat (length l) = (16 ^ (T - precision base))%Z /\
    Forall (fun d => precision d = T /\ boundsInside (bounds d) (bounds base)) l.
Proof.
  intros Hdec Hlo Hhi Hfit.
  destruct (decode_OK_inv _ _ Hdec) as (Hl & b & Hloop & E).
  set (pin := toUpperCase (stripHyphens code)) in *.
  assert (Hprec : precision base = Z.of_nat (length pin)) by (rewrite E; reflexivity).
  unfold getSubDivisions. fold pin.
  destruct (Z.leb_spec T (Z.of_nat (length pin))); [lia|].
  unfold pin at 1. rewrite decode_normalised, Hdec. fold pin.
  set (k := Z.to_nat (T - Z.of_nat (length pin))).
  assert (Hcount : (0 < 16 ^ Z.of_nat k <= 16 ^ 7)%Z).
  { split; [apply Z.pow_pos_nonneg; lia|].
    apply Z.pow_le_mono_r; unfold k; lia. }
  destruct (subdivisions_loop_spec pin k
              (fun d => precision d = T /\ boundsInside (bounds d) (bounds base)))
    with (n := Z.to_nat (16 ^ Z.of_nat k)) (i := 0%Z) (acc := @nil Decoded)
    as (l & Hret & Hlen & HP).
  - intros i. destruct (extension_loop_spec k i []) as (ext & -> & Hk & Halpha).
    cbn [app].
    destruct (decode_extended code base ext Hdec Halpha) as (d & Hd & Hp & Hin).
    + fold pin. rewrite Hk. unfold k. lia.
    + fold pin in Hd, Hp. exists d. split; [exact Hd|]. split; [|exact Hin].
      rewrite Hp, Hk. unfold k. lia.
  - constructor.
  - cbn [length]. rewrite Z2Nat.id by lia.
    change (16 ^ 7)%Z with 268435456%Z in Hcount.
    change MAX_ARRAY_LENGTH with 4294967295%Z. lia.
  - exists l. split; [exact Hret|]. split; [|exact HP].
    rewrite Hlen. cbn [length Nat.add]. rewrite Z2Nat.id by lia.
    f_equal. unfold k. lia.
Qed.

(** X11 -- [getSubDivisions] of a code [decode] accepts, at a target
    precision above the precision of the code, at most 10 and at most 7
    levels above it (so that the [16^(target - precision)] results fit in
    one array), returns [16^(target - precision)] decoded cells, each of
    the target precision and with bounds inside the bounds of the code. *)
Theorem subdivisions_refine (code : str) (base : Decoded) (T : Z) :
  decode code = OK base -> (precision base < T)%Z -> (T <= 10)%Z ->
  (T - precision base <= 7)%Z ->
  exists l,
    getSubDivisions code T = Returns l /\
    Z.of_nat (length l) = (16 ^ (T - precision base))%Z /\
    Forall (fun d => precision d = T /\ boundsInside (bounds d) (bounds base)) l.
Proof. apply getSubDivisions_OK. Qed.

Lemma subdivisions_refine_witness :
  exists base l,
    decode (lit "39j") = OK base /\
    getSubDivisions (lit "39j") 4 = Returns l /\
    Z.of_nat (length l) = (16 ^ (4 - precision base))%Z /\
    Forall (fun d => precision d = 4%Z /\ boundsInside (bounds d) (bounds base)) l.
Proof.
  destruct (decode (lit "39j")) as [base|e] eqn:H;
    [|vm_compute in H; discriminate H].
  destruct (subdivisions_refine (lit "39j") base 4 H) as (l & H1 & H2 & H3).
  - vm_compute in H. injection H as <-. vm_compute. reflexivity.
  - lia.
  - vm_compute in H. injection H as <-. vm_compute. discriminate.
  - exists base, l. split; [reflexivity|]. auto.
Defined.

(** X12 -- Failures of [getSubDivisions] on a code of ASCII characters,
    with [pin] the code after separator removal and upper-casing: a target
    precision not above the length of [pin] is refused before the code is
    looked at; above it, an error of [decode] on the code is passed on;
    and for a code [decode] accepts, a target above 10 (and at most 2^24,
    the extended code being a string of that many characters) fails with
    the length error of [decode] on the first extended code. *)
Theorem subdivisions_errors (code : str) (T : Z) :
  isASCII code = true ->
  let pin := toUpperCase (stripHyphens code) in
  ((T <= Z.of_nat (length pin))%Z ->
   getSubDivisions code T = Throws TargetPrecisionTooLow) /\
  (forall e, (Z.of_nat (length pin) < T)%Z -> decode code = Err e ->
   getSubDivisions code T = Throws (Codec e)) /\
  (forall base, decode code = OK base -> (10 < T <= 2 ^ 24)%Z ->
   getSubDivisions code T = Throws (Codec (InvalidLength (Z.to_nat T)))).
Proof.
  intros _ pin. unfold getSubDivisions. fold pin. split; [|split].
  - intros H. destruct (Z.leb_spec T (Z.of_nat (length pin))); [reflexivity | lia].
  - intros e H He. destruct (Z.leb_spec T (Z.of_nat (length pin))); [lia|].
    unfold pin at 1. rewrite decode_normalised, He. reflexivity.
  - intros base Hdec (HT & _).
    destruct (decode_OK_inv _ _ Hdec) as (Hl & b & Hloop & E). fold pin in Hl, Hloop.
    destruct (Z.leb_spec T (Z.of_nat (length pin))); [lia|].
    unfold pin at 1. rewrite decode_normalised, Hdec. fold pin.
    set (k := Z.to_nat (T - Z.of_nat (length pin))).
    assert (Hcount : exists n, Z.to_nat (16 ^ Z.of_nat k) = S n).
    { exists (Z.to_nat (16 ^ Z.of_nat k) - 1)%nat.
      pose proof (Z.pow_pos_nonneg 16 (Z.of_nat k) ltac:(lia) ltac:(lia)). lia. }
    destruct Hcount as (n & ->). cbn [subdivisions_loop].
    destruct (extension_loop_spec k 0 []) as (ext & -> & Hk & Halpha). cbn [app].
    pose proof (decode_loop_alphabet_pin _ _ _ Hloop) as Hpin.
    assert (Hall : Forall inAlphabet (pin ++ ext)) by (apply Forall_app; split; assumption).
    unfold decode, decodeWith.
    rewrite (stripHyphens_sanitized _ (sanitized_alphabet _ Hall)),
            (toUpperCase_alphabet _ Hall), length_app, Hk.
    destruct (Nat.ltb_spec 10 (length pin + k)) as [_|Hle]; [|unfold k in Hle; lia].
    rewrite orb_true_r. do 3 f_equal. unfold k. lia.
Qed.

Lemma subdivisions_errors_witness :
  isASCII (lit "39j") = true /\
  getSubDivisions (lit "39j") 3 = Throws TargetPrecisionTooLow /\
  getSubDivisions (lit "39j") 11 = Throws (Codec (InvalidLength 11)).
Proof.
  assert (HA : isASCII (lit "39j") = true) by reflexivity.
  split; [exact HA|].
  destruct (subdivisions_errors (lit "39j") 3 HA) as (H1 & _ & _).
  destruct (subdivisions_errors (lit "39j") 11 HA) as (_ & _ & H3).
  split; [apply H1; vm_compute; discriminate|].
  destruct (decode (lit "39j")) as [base|e] eqn:H;
    [|vm_compute in H; discriminate H].
  apply (H3 base eq_refl). split; [lia | vm_compute; discriminate].
Defined.


(* ================================================================== *)
(** ** Prefixes and containment *)

Lemma symbols_app (n k : nat) (lat lon : Q) :
  forall b : Box,
    symbols (n + k) lat lon b
    = symbols n lat lon b ++ symbols k lat lon (cellOf n lat lon b).
Proof.
  induction n as [|n IH]; intros b; [reflexivity|].
  cbn [Nat.add symbols cellOf app]. rewrite IH. reflexivity.
Qed.

Lemma encode_prefix_aux (lat lon : Q) (p q : Z) :
  contains BOUNDS lat lon -> (1 <= p)%Z -> (p <= q)%Z -> (q <= 10)%Z ->
  exists cp cq,
    encode (Num lat) (Num lon) p = OK cp /\
    encode (Num lat) (Num lon) q = OK cq /\
    stripHyphens cp = firstn (Z.to_nat p) (stripHyphens cq).
Proof.
  intros Hin Hp Hpq Hq. do 2 eexists.
  split; [apply (encode_finite lat lon p Hin); lia|].
  split; [apply (encode_finite lat lon q Hin); lia|].
  rewrite !stripHyphens_withHyphens
    by (apply sanitized_alphabet, symbols_alphabet).
  replace (Z.to_nat q) with (Z.to_nat p + (Z.to_nat q - Z.to_nat p))%nat by lia.
  rewrite symbols_app.
  rewrite <- (symbols_length (Z.to_nat p) lat lon BOUNDS) at 2.
  rewrite firstn_app, firstn_all, Nat.sub_diag. cbn [firstn]. rewrite app_nil_r.
  reflexivity.
Qed.

(** X13 -- The codes of one coordinate are prefixes of one another: for
    precisions [p <= q] in [1,10] and a valid coordinate, the code at
    precision [p] is, separators aside, the first [p] symbols of the code
    at precision [q]. *)
Theorem encode_prefix (lat lon : Q) (p q : Z) :
  contains BOUNDS lat lon -> (1 <= p)%Z -> (p <= q)%Z -> (q <= 10)%Z ->
  exists cp cq,
    encode (Num lat) (Num lon) p = OK cp /\
    encode (Num lat) (Num lon) q = OK cq /\
    stripHyphens cp = firstn (Z.to_nat p) (stripHyphens cq).
Proof. apply encode_prefix_aux. Qed.

Lemma encode_prefix_witness :
  contains BOUNDS 28.6139 77.2090 /\
  exists cp cq,
    encode (Num 28.6139) (Num 77.2090) 4 = OK cp /\
    encode (Num 28.6139) (Num 77.2090) 10 = OK cq /\
    stripHyphens cp = firstn (Z.to_nat 4) (stripHyphens cq).
Proof.
  assert (H : contains BOUNDS 28.6139 77.2090)
    by (unfold contains; repeat split; vm_compute; discriminate).
  split; [exact H|].
  apply (encode_prefix 28.6139 77.2090 4 10 H); lia.
Defined.

Lemma digipinContains_inside (outer inner : str) (dO dI : Decoded) :
  decode outer = OK dO -> decode inner = OK dI ->
  (digipinContains outer inner = OK true <-> boundsInside (bounds dI) (bounds dO)).
Proof.
  intros HO HI. unfold digipinContains, boundsInside. rewrite HO, HI.
  split.
  - intros [= H]. rewrite !andb_true_iff, !Qle_bool_iff in H. tauto.
  - intros H. f_equal. rewrite !andb_true_iff, !Qle_bool_iff. tauto.
Qed.

Lemma prefix_inside (outer inner : str) (dO dI : Decoded) (ext : str) :
  decode outer = OK dO -> decode inner = OK dI ->
  toUpperCase (stripHyphens inner) = toUpperCase (stripHyphens outer) ++ ext ->
  boundsInside (bounds dI) (bounds dO).
Proof.
  intros HO HI Hext.
  destruct (decode_OK_inv _ _ HO) as (_ & bO & LO & ->).
  destruct (decode_OK_inv _ _ HI) as (_ & bI & LI & ->).
  rewrite Hext in LI. rewrite decode_loop_app, LO in LI.
  pose proof (decode_loop_wellFormed _ _ _ _ LO BOUNDS_wellFormed) as Hwf.
  pose proof (decode_loop_inside _ _ _ _ LI Hwf) as (I1 & I2 & I3 & I4).
  unfold boundsInside. cbn [bounds decodedOf north south east west]. tauto.
Qed.

Lemma inside_prefix (outer inner : str) (dO dI : Decoded) :
  decode outer = OK dO -> decode inner = OK dI ->
  boundsInside (bounds dI) (bounds dO) ->
  exists ext, toUpperCase (stripHyphens inner) = toUpperCase (stripHyphens outer) ++ ext.
Proof.
  intros HO HI Hin.
  destruct (decoded_extent _ _ HO) as (nO & PO & _ & XO & _).
  destruct (decoded_extent _ _ HI) as (nI & PI & _ & XI & _).
  destruct (decode_OK_inv _ _ HO) as (_ & bO & LO & EO).
  destruct (decode_OK_inv _ _ HI) as (_ & bI & LI & EI).
  set (pO := toUpperCase (stripHyphens outer)) in *.
  set (pI := toUpperCase (stripHyphens inner)) in *.
  subst dO dI.
  assert (HnO : nO = length pO) by (cbn in PO; lia).
  assert (HnI : nI = length pI) by (cbn in PI; lia).
  unfold boundsInside in Hin.
  cbn [bounds decodedOf north south east west accuracy latDegrees] in Hin, XO, XI.
  destruct Hin as (I1 & I2 & I3 & I4). rewrite qsub_eq in XO, XI.
  assert (Hle : (nO <= nI)%nat).
  { destruct (Nat.le_gt_cases nO nI) as [|Hgt]; [assumption|]. exfalso.
    pose proof (cellWidth_antitone nI nO Hgt). lra. }
  pose proof (decode_loop_wellFormed _ _ _ _ LI BOUNDS_wellFormed) as WI.
  destruct (centre_strictly_inside bI WI) as (P1 & P2 & P3 & P4).
  set (lat := (minLat bI +! maxLat bI) /! 2) in *.
  set (lon := (minLon bI +! maxLon bI) /! 2) in *.
  assert (SO : symbols (length pO) lat lon BOUNDS = pO).
  { apply (symbols_of_interior pO lat lon 0 BOUNDS bO LO BOUNDS_wellFormed).
    unfold strictlyContains. repeat split; lra. }
  assert (SI : symbols (length pI) lat lon BOUNDS = pI).
  { apply (symbols_of_interior pI lat lon 0 BOUNDS bI LI BOUNDS_wellFormed).
    unfold strictlyContains. repeat split; assumption. }
  exists (symbols (length pI - length pO) lat lon (cellOf (length pO) lat lon BOUNDS)).
  transitivity (symbols (length pO + (length pI - length pO)) lat lon BOUNDS).
  - replace (length pO + (length pI - length pO))%nat with (length pI) by lia.
    symmetry. exact SI.
  - rewrite symbols_app, SO. reflexivity.
Qed.

(** X14 -- Containment of cells is the prefix order of codes: for two
    codes [decode] accepts, [digipinContains outer inner] holds exactly
    when the outer code is, separators and case aside, a prefix of the
    inner code. *)
Theorem contains_iff_prefix (outer inner : str) (dO dI : Decoded) :
  decode outer = OK dO -> decode inner = OK dI ->
  (digipinContains outer inner = OK true <->
   exists ext, toUpperCase (stripHyphens inner) = toUpperCase (stripHyphens outer) ++ ext).
Proof.
  intros HO HI. rewrite (digipinContains_inside outer inner dO dI HO HI). split.
  - apply (inside_prefix outer inner dO dI HO HI).
  - intros (ext & Hext). apply (prefix_inside outer inner dO dI ext HO HI Hext).
Qed.

Lemma contains_iff_prefix_witness :
  exists dO dI,
    decode (lit "39j") = OK dO /\ decode (lit "39J-438-TJC7") = OK dI /\
    (digipinContains (lit "39j") (lit "39J-438-TJC7") = OK true <->
     exists ext, toUpperCase (stripHyphens (lit "39J-438-TJC7"))
                 = toUpperCase (stripHyphens (lit "39j")) ++ ext).
Proof.
  destruct (decode (lit "39j")) as [dO|e] eqn:HO;
    [|vm_compute in HO; discriminate HO].
  destruct (decode (lit "39J-438-TJC7")) as [dI|e] eqn:HI;
    [|vm_compute in HI; discriminate HI].
  exists dO, dI. split; [reflexivity|]. split; [reflexivity|].
  apply (contains_iff_prefix _ _ dO dI HO HI).
Defined.

(* ================================================================== *)
(** ** A cell is not its own neighbour *)

Lemma not_own_neighbour (c1 c2 : str) (d : Decoded) :
  decode c1 = OK d -> decode c2 = OK d -> areNeighbors c1 c2 = OK false.
Proof.
  intros H1 H2. unfold areNeighbors, getNeighbors. rewrite H1. f_equal.
  destruct (existsb _ _) eqn:E; [|reflexivity]. exfalso.
  apply existsb_exists in E. destruct E as (K & HK & Heq).
  apply str_eqb_eq in Heq. subst K.
  destruct (visit_all_members _ _ _ _ _ _ HK) as [[] | (dir & Hdir & Hin & Henc)].
  destruct (neighbour_is_adjacent c1 d dir c2 H1 Hdir Hin Henc)
    as (dK & HdK & _ & _ & _ & Hne).
  rewrite H2 in HdK. injection HdK as <-. apply Hne. split; reflexivity.
Qed.

(** X15 -- No cell is its own neighbour: when two codes [decode] to the
    same result, [areNeighbors] of the first and the second is false. *)
Theorem areNeighbors_irreflexive (c1 c2 : str) (d : Decoded) :
  decode c1 = OK d -> decode c2 = OK d -> areNeighbors c1 c2 = OK false.
Proof. apply not_own_neighbour. Qed.

Lemma areNeighbors_irreflexive_witness :
  exists d,
    decode (lit "39j") = OK d /\ decode (lit "39J") = OK d /\
    areNeighbors (lit "39j") (lit "39J") = OK false.
Proof.
  destruct (decode (lit "39j")) as [d|e] eqn:H;
    [|vm_compute in H; discriminate H].
  assert (H2 : decode (lit "39J") = OK d) by (rewrite <- H; vm_compute; reflexivity).
  exists d. split; [reflexivity|]. split; [exact H2|].
  apply (areNeighbors_irreflexive _ _ d H H2).
Defined.

(* ================================================================== *)
(** ** Coordinate validation *)

Lemma encode_loop_error (n : nat) :
  forall (level p : Z) (lat lon a b c d : number) (acc : str) (e : error),
    encode_loop n level p lat lon a b c d acc = Err e -> e = TypeError.
Proof.
  induction n as [|n IH]; intros level p lat lon a b c d acc e; cbn [encode_loop];
    [discriminate|].
  destruct (JS.index DIGIPIN_GRID _) as [gridRow|]; [|intros [= <-]; reflexivity].
  apply IH.
Qed.

Lemma validateCoordinates_encode (lat lon : number) (p : Z) :
  (1 <= p <= 10)%Z ->
  (cv_isValid (validateCoordinates lat lon) = false <->
   encode lat lon p = Err LatitudeOutOfRange \/ encode lat lon p = Err LongitudeOutOfRange).
Proof.
  intros Hp. unfold validateCoordinates, encode. cbn [cv_isValid].
  replace ((p <? 1)%Z || (p >? 10)%Z) with false
    by (symmetry; apply orb_false_iff; split; [apply Z.ltb_ge | rewrite Z.gtb_ltb; apply Z.ltb_ge]; lia).
  destruct (JS.ltb lat (Num (minLat BOUNDS)) || JS.gtb lat (Num (maxLat BOUNDS)));
    [cbn; tauto|].
  destruct (JS.ltb lon (Num (minLon BOUNDS)) || JS.gtb lon (Num (maxLon BOUNDS)));
    [cbn; tauto|].
  cbn [negb andb]. split; [discriminate|].
  intros [H|H]; apply encode_loop_error in H; discriminate.
Qed.

Lemma warning_thresholds :
  fl (JS.add (Num (minLat BOUNDS)) (fl (Num 0.1))) = Num (binary64 2.6) /\
  fl (JS.sub (Num (maxLat BOUNDS)) (fl (Num 0.1))) = Num (binary64 38.4) /\
  fl (JS.add (Num (minLon BOUNDS)) (fl (Num 0.1))) = Num (binary64 63.6) /\
  fl (JS.sub (Num (maxLon BOUNDS)) (fl (Num 0.1))) = Num (binary64 99.4).
Proof. repeat split; vm_compute; reflexivity. Qed.

Lemma near_boundary (x lo hi : Q) :
  JS.ltb (Num x) (Num lo) || JS.gtb (Num x) (Num hi) = true <-> x < lo \/ hi < x.
Proof.
  unfold JS.gtb, JS.ltb. rewrite orb_true_iff, !Qltb_lt. reflexivity.
Qed.

Lemma warnings_of (latNear lonNear : bool) :
  (In LatitudeNearBoundary
      ((if latNear then [LatitudeNearBoundary] else [])
       ++ (if lonNear then [LongitudeNearBoundary] else [])) <-> latNear = true) /\
  (In LongitudeNearBoundary
      ((if latNear then [LatitudeNearBoundary] else [])
       ++ (if lonNear then [LongitudeNearBoundary] else [])) <-> lonNear = true).
Proof.
  destruct latNear, lonNear; cbn; split; split; intros H;
    try reflexivity; try discriminate H; try tauto;
    repeat (destruct H as [H|H]; try discriminate H); try contradiction.
Qed.

(** X16 -- [validateCoordinates] rejects exactly the coordinates on which
    [encode] (at a valid precision) raises an out-of-range error, and it
    is valid exactly when it lists no error.  A NaN latitude or longitude
    causes neither an error nor a warning for its axis.  For a finite
    coordinate the near-boundary warning is given exactly below the double
    nearest 2.6 and above the double nearest 38.4 (latitude), 63.6 and
    99.4 (longitude): these are the values of [2.5 + 0.1], [38.5 - 0.1],
    [63.5 + 0.1] and [99.5 - 0.1] in binary64. *)
Theorem validateCoordinates_matches_encode (lat lon : number) (p : Z) :
  (1 <= p <= 10)%Z ->
  (cv_isValid (validateCoordinates lat lon) = false <->
   encode lat lon p = Err LatitudeOutOfRange \/ encode lat lon p = Err LongitudeOutOfRange) /\
  (cv_isValid (validateCoordinates lat lon) = true <->
   cv_errors (validateCoordinates lat lon) = []) /\
  (lat = NaN ->
   ~ In LatitudeOutOfBounds (cv_errors (validateCoordinates lat lon)) /\
   ~ In LatitudeNearBoundary (cv_warnings (validateCoordinates lat lon))) /\
  (lon = NaN ->
   ~ In LongitudeOutOfBounds (cv_errors (validateCoordinates lat lon)) /\
   ~ In LongitudeNearBoundary (cv_warnings (validateCoordinates lat lon))) /\
  (forall x, lat = Num x ->
     (In LatitudeNearBoundary (cv_warnings (validateCoordinates lat lon))
      <-> x < binary64 2.6 \/ binary64 38.4 < x)) /\
  (forall y, lon = Num y ->
     (In LongitudeNearBoundary (cv_warnings (validateCoordinates lat lon))
      <-> y < binary64 63.6 \/ binary64 99.4 < y)).
Proof.
  intros Hp. split; [apply (validateCoordinates_encode lat lon p Hp)|].
  destruct warning_thresholds as (T1 & T2 & T3 & T4).
  split; [|split; [|split; [|split]]].
  - unfold validateCoordinates. cbn [cv_isValid cv_errors].
    destruct (JS.ltb lat (Num (minLat BOUNDS)) || JS.gtb lat (Num (maxLat BOUNDS)));
      destruct (JS.ltb lon (Num (minLon BOUNDS)) || JS.gtb lon (Num (maxLon BOUNDS)));
      cbn; split; congruence.
  - intros ->. unfold validateCoordinates. cbn [cv_errors cv_warnings].
    rewrite T1, T2, T3, T4.
    change (JS.ltb NaN ?a || JS.gtb NaN ?b) with false. cbn [app].
    split.
    + destruct (JS.ltb lon _ || JS.gtb lon _); cbn; intros H;
        repeat (destruct H as [H|H]; try discriminate H); contradiction.
    + destruct (JS.ltb lon _ || JS.gtb lon _); cbn; intros H;
        repeat (destruct H as [H|H]; try discriminate H); contradiction.
  - intros ->. unfold validateCoordinates. cbn [cv_errors cv_warnings].
    rewrite T1, T2, T3, T4.
    assert (N : forall a b, JS.ltb NaN a || JS.gtb NaN b = false).
    { intros a b. unfold JS.gtb. destruct a, b; reflexivity. }
    rewrite !N, !app_nil_r.
    split.
    + destruct (JS.ltb lat _ || JS.gtb lat _); cbn; intros H;
        repeat (destruct H as [H|H]; try discriminate H); contradiction.
    + destruct (JS.ltb lat _ || JS.gtb lat _); cbn; intros H;
        repeat (destruct H as [H|H]; try discriminate H); contradiction.
  - intros x ->. unfold validateCoordinates. cbn [cv_warnings].
    rewrite T1, T2, T3, T4.
    rewrite (proj1 (warnings_of _ _)). apply near_boundary.
  - intros y ->. unfold validateCoordinates. cbn [cv_warnings].
    rewrite T1, T2, T3, T4.
    rewrite (proj2 (warnings_of _ _)). apply near_boundary.
Qed.

Lemma validateCoordinates_matches_encode_witness :
  (cv_isValid (validateCoordinates (Num 91) NaN) = false <->
   encode (Num 91) NaN 10 = Err LatitudeOutOfRange
   \/ encode (Num 91) NaN 10 = Err LongitudeOutOfRange) /\
  (In LatitudeNearBoundary (cv_warnings (validateCoordinates (Num 91) NaN))
   <-> 91 < binary64 2.6 \/ binary64 38.4 < 91).
Proof.
  assert (Hp : (1 <= 10 <= 10)%Z) by lia.
  destruct (validateCoordinates_matches_encode (Num 91) NaN 10 Hp)
    as (H1 & _ & _ & _ & H5 & _).
  split; [exact H1 | exact (H5 91 eq_refl)].
Defined.

(** At the double 99.4 the longitude is not above [99.5 - 0.1]: no
    warning. *)
Example validateCoordinates_at_threshold :
  validateCoordinates (Num 30) (Num (binary64 99.4))
  = {| cv_isValid := true; cv_errors := []; cv_warnings := [] |}.
Proof. vm_compute. reflexivity. Qed.

(* ================================================================== *)
(** ** Bounding box of a list of codes *)

Lemma boundingBox_loop_Num (l : list str) :
  forall s n w e : Q,
    Forall decodable l ->
    exists s' n' w' e',
      boundingBox_loop l (Num s) (Num n) (Num w) (Num e)
      = Returns (Num s', Num n', Num w', Num e') /\
      (s' <= s /\ n <= n' /\ w' <= w /\ e <= e') /\
      (forall c d, In c l -> decode c = OK d ->
         boundsInside (bounds d) {| north := n'; south := s'; east := e'; west := w' |}) /\
      (s' = s \/ attained south s' l) /\ (n' = n \/ attained north n' l) /\
      (w' = w \/ attained west w' l) /\ (e' = e \/ attained east e' l).
Proof.
  induction l as [|c l IH]; intros s n w e Hall; cbn [boundingBox_loop].
  - exists s, n, w, e. split; [reflexivity|].
    split; [repeat split; apply Qle_refl|]. split; [intros c d []|]. tauto.
  - inversion Hall as [|? ? (d & Hd) Hrest]; subst. rewrite Hd.
    unfold JS.min, JS.max, JS.ltb.
    set (s1 := if Qltb (south (bounds d)) s then south (bounds d) else s).
    set (n1 := if Qltb n (north (bounds d)) then north (bounds d) else n).
    set (w1 := if Qltb (west (bounds d)) w then west (bounds d) else w).
    set (e1 := if Qltb e (east (bounds d)) then east (bounds d) else e).
    assert (Es : (if Qltb (south (bounds d)) s then Num (south (bounds d)) else Num s) = Num s1)
      by (unfold s1; destruct (Qltb (south (bounds d)) s); reflexivity).
    assert (En : (if Qltb n (north (bounds d)) then Num (north (bounds d)) else Num n) = Num n1)
      by (unfold n1; destruct (Qltb n (north (bounds d))); reflexivity).
    assert (Ew : (if Qltb (west (bounds d)) w then Num (west (bounds d)) else Num w) = Num w1)
      by (unfold w1; destruct (Qltb (west (bounds d)) w); reflexivity).
    assert (Ee : (if Qltb e (east (bounds d)) then Num (east (bounds d)) else Num e) = Num e1)
      by (unfold e1; destruct (Qltb e (east (bounds d))); reflexivity).
    rewrite Es, En, Ew, Ee.
    destruct (IH s1 n1 w1 e1 Hrest)
      as (s' & n' & w' & e' & -> & (M1 & M2 & M3 & M4) & Hcov & T1 & T2 & T3 & T4).
    assert (Bs : s1 <= s /\ s1 <= south (bounds d) /\ (s1 = s \/ s1 = south (bounds d))).
    { unfold s1. destruct (Qltb (south (bounds d)) s) eqn:E;
        [apply Qltb_lt in E | apply Qltb_ge in E]; repeat split; try lra; tauto. }
    assert (Bn : n <= n1 /\ north (bounds d) <= n1 /\ (n1 = n \/ n1 = north (bounds d))).
    { unfold n1. destruct (Qltb n (north (bounds d))) eqn:E;
        [apply Qltb_lt in E | apply Qltb_ge in E]; repeat split; try lra; tauto. }
    assert (Bw : w1 <= w /\ w1 <= west (bounds d) /\ (w1 = w \/ w1 = west (bounds d))).
    { unfold w1. destruct (Qltb (west (bounds d)) w) eqn:E;
        [apply Qltb_lt in E | apply Qltb_ge in E]; repeat split; try lra; tauto. }
    assert (Be : e <= e1 /\ east (bounds d) <= e1 /\ (e1 = e \/ e1 = east (bounds d))).
    { unfold e1. destruct (Qltb e (east (bounds d))) eqn:E;
        [apply Qltb_lt in E | apply Qltb_ge in E]; repeat split; try lra; tauto. }
    clearbody s1 n1 w1 e1.
    destruct Bs as (Bs1 & Bs2 & Bs3). destruct Bn as (Bn1 & Bn2 & Bn3).
    destruct Bw as (Bw1 & Bw2 & Bw3). destruct Be as (Be1 & Be2 & Be3).
    exists s', n', w', e'. split; [reflexivity|].
    split; [repeat split; lra|]. split; [|repeat split].
    + intros c0 d0 [<- | Hin] Hd0.
      * rewrite Hd in Hd0. injection Hd0 as <-.
        unfold boundsInside. cbn [north south east west]. repeat split; lra.
      * apply (Hcov c0 d0 Hin Hd0).
    + destruct T1 as [-> | (c0 & d0 & Hin & Hd0 & E)].
      * destruct Bs3 as [-> | ->]; [left; reflexivity|].
        right. exists c, d. split; [left; reflexivity|]. split; [exact Hd | reflexivity].
      * right. exists c0, d0. split; [right; exact Hin|]. split; assumption.
    + destruct T2 as [-> | (c0 & d0 & Hin & Hd0 & E)].
      * destruct Bn3 as [-> | ->]; [left; reflexivity|].
        right. exists c, d. split; [left; reflexivity|]. split; [exact Hd | reflexivity].
      * right. exists c0, d0. split; [right; exact Hin|]. split; assumption.
    + destruct T3 as [-> | (c0 & d0 & Hin & Hd0 & E)].
      * destruct Bw3 as [-> | ->]; [left; reflexivity|].
        right. exists c, d. split; [left; reflexivity|]. split; [exact Hd | reflexivity].
      * right. exists c0, d0. split; [right; exact Hin|]. split; assumption.
    + destruct T4 as [-> | (c0 & d0 & Hin & Hd0 & E)].
      * destruct Be3 as [-> | ->]; [left; reflexivity|].
        right. exists c, d. split; [left; reflexivity|]. split; [exact Hd | reflexivity].
      * right. exists c0, d0. split; [right; exact Hin|]. split; assumption.
Qed.

Lemma boundingBox_loop_first_error (pre : list str) (c : str) (post : list str) (e : error) :
  forall s n w x : number,
    Forall decodable pre -> decode c = Err e ->
    boundingBox_loop (pre ++ c :: post) s n w x = Throws (Codec e).
Proof.
  induction pre as [|c0 pre IH]; intros s n w x Hpre Hc; cbn [app boundingBox_loop].
  - rewrite Hc. reflexivity.
  - inversion Hpre as [|? ? (d & Hd) Hrest]; subst. rewrite Hd. apply IH; assumption.
Qed.

(** X17 -- [getBoundingBox]: the empty list is refused; a list holding
    a code [decode] rejects fails with the error of the first such code;
    for a non-empty list of codes [decode] accepts the result is a
    rectangle of finite numbers that contains the bounds of every code,
    each of whose edges is the edge of the cell of some code of the list,
    with the midpoint as centre. *)
Theorem boundingBox_covers (digipins : list str) :
  (digipins = [] -> getBoundingBox digipins = Throws EmptyDigipins) /\
  (forall pre c post e,
     digipins = pre ++ c :: post -> Forall decodable pre -> decode c = Err e ->
     getBoundingBox digipins = Throws (Codec e)) /\
  (digipins <> [] -> Forall decodable digipins ->
   exists s n w e : Q,
     getBoundingBox digipins
     = Returns {| bb_north := Num n; bb_south := Num s;
                  bb_east := Num e; bb_west := Num w;
                  bb_center_latitude := Num ((s +! n) /! 2);
                  bb_center_longitude := Num ((w +! e) /! 2) |} /\
     (forall c d, In c digipins -> decode c = OK d ->
        boundsInside (bounds d) {| north := n; south := s; east := e; west := w |}) /\
     attained south s digipins /\ attained north n digipins /\
     attained west w digipins /\ attained east e digipins).
Proof.
  split; [intros ->; reflexivity|]. split.
  - intros pre c post e -> Hpre Hc. unfold getBoundingBox.
    destruct (length (pre ++ c :: post) =? 0)%nat eqn:E.
    + apply Nat.eqb_eq in E. rewrite length_app in E. cbn [length] in E. lia.
    + rewrite (boundingBox_loop_first_error pre c post e _ _ _ _ Hpre Hc). reflexivity.
  - intros Hne Hall. destruct digipins as [|c l]; [congruence|].
    inversion Hall as [|? ? (d & Hd) Hrest]; subst.
    unfold getBoundingBox. cbn [length Nat.eqb boundingBox_loop]. rewrite Hd.
    change (JS.min PosInf (Num ?x)) with (Num x).
    change (JS.max NegInf (Num ?x)) with (Num x).
    destruct (boundingBox_loop_Num l (south (bounds d)) (north (bounds d))
                (west (bounds d)) (east (bounds d)) Hrest)
      as (s & n & w & e & -> & (M1 & M2 & M3 & M4) & Hcov & T1 & T2 & T3 & T4).
    exists s, n, w, e. split; [reflexivity|]. split; [|repeat split].
    + intros c0 d0 [<- | Hin] Hd0.
      * rewrite Hd in Hd0. injection Hd0 as <-.
        unfold boundsInside. cbn [north south east west]. repeat split; assumption.
      * apply (Hcov c0 d0 Hin Hd0).
    + destruct T1 as [-> | (c0 & d0 & Hin & Hd0 & E)].
      * exists c, d. split; [left; reflexivity|]. split; [exact Hd | reflexivity].
      * exists c0, d0. split; [right; exact Hin|]. split; assumption.
    + destruct T2 as [-> | (c0 & d0 & Hin & Hd0 & E)].
      * exists c, d. split; [left; reflexivity|]. split; [exact Hd | reflexivity].
      * exists c0, d0. split; [right; exact Hin|]. split; assumption.
    + destruct T3 as [-> | (c0 & d0 & Hin & Hd0 & E)].
      * exists c, d. split; [left; reflexivity|]. split; [exact Hd | reflexivity].
      * exists c0, d0. split; [right; exact Hin|]. split; assumption.
    + destruct T4 as [-> | (c0 & d0 & Hin & Hd0 & E)].
      * exists c, d. split; [left; reflexivity|]. split; [exact Hd | reflexivity].
      * exists c0, d0. split; [right; exact Hin|]. split; assumption.
Qed.

(* ================================================================== *)
(** ** The members of a generated grid *)

Lemma stepped_eq (start step : Q) (k : nat) :
  stepped start step k == start + inject_Z (Z.of_nat k) * step.
Proof.
  induction k as [|k IH].
  - cbn [stepped Z.of_nat]. change (inject_Z 0) with 0. ring.
  - cbn [stepped]. rewrite qadd_eq, IH, Nat2Z.inj_succ.
    unfold Z.succ. rewrite inject_Z_succ. ring.
Qed.

Lemma lt_passes (x stop step : Q) (k : nat) :
  0 < step ->
  (k < passes x stop step)%nat <-> stepped x step k <= stop.
Proof.
  intros Hstep. rewrite stepped_eq. unfold passes.
  set (t := (stop - x) / step).
  assert (Et : t * step == stop - x) by (unfold t; field; lra).
  assert (Hk : inject_Z (Z.of_nat k) <= t <-> x + inject_Z (Z.of_nat k) * step <= stop).
  { split; intros H.
    - assert (inject_Z (Z.of_nat k) * step <= t * step)
        by (apply Qmult_le_compat_r; lra).
      lra.
    - apply Qmult_le_r with (z := step); [exact Hstep|]. lra. }
  rewrite <- Hk.
  assert (Hf : inject_Z (Z.of_nat k) <= t <-> (Z.of_nat k <= Qfloor t)%Z).
  { split; intros H.
    - apply Qfloor_resp_le in H. rewrite Qfloor_Z in H. exact H.
    - apply Qle_trans with (inject_Z (Qfloor t)); [|apply Qfloor_le].
      rewrite <- Zle_Qle. exact H. }
  rewrite Hf. lia.
Qed.

(** A counted loop is a fold over the numbers of its passes. *)
Lemma forRange_fold {St : Type} (x0 step stop : Q) (body : Q -> St -> St) :
  0 < step ->
  forall (n off : nat) (s : St),
    passes (stepped x0 step off) stop step = n ->
    forRange n (stepped x0 step off) stop step body s
    = fold_left (fun s k => body (stepped x0 step k) s) (seq off n) s.
Proof.
  intros Hstep. induction n as [|n IH]; intros off s Hn; [reflexivity|].
  assert (Hx : stepped x0 step off <= stop).
  { destruct (Qlt_le_dec stop (stepped x0 step off)) as [H|H]; [|exact H].
    rewrite (passes_stop _ stop step Hstep H) in Hn. discriminate Hn. }
  rewrite (passes_step _ stop step Hstep Hx) in Hn. injection Hn as Hn.
  cbn [forRange seq fold_left]. rewrite (proj2 (Qle_bool_iff _ _) Hx).
  apply (IH (S off) _ Hn).
Qed.

Lemma fold_left_pointwise {A B : Type} (f g : A -> B -> A) :
  (forall a b, f a b = g a b) ->
  forall (l : list B) (s : A), fold_left f l s = fold_left g l s.
Proof.
  intros H. induction l as [|b l IH]; intros s; [reflexivity|].
  cbn [fold_left]. rewrite H. apply IH.
Qed.

Lemma setAdd_In (x : str) (set : list str) (c : str) :
  In c (setAdd x set) <-> In c set \/ c = x.
Proof.
  unfold setAdd. destruct (existsb (str_eqb x) set) eqn:E.
  - apply existsb_exists in E. destruct E as (y & Hy & Exy).
    apply str_eqb_eq in Exy. subst y. split; [tauto|].
    intros [H| ->]; assumption.
  - rewrite in_app_iff. cbn [In]. split.
    + intros [H|[<-|[]]]; [left; exact H | right; reflexivity].
    + intros [H| ->]; [left; exact H | right; left; reflexivity].
Qed.

Lemma setAdd_NoDup (x : str) (set : list str) :
  NoDup set -> NoDup (setAdd x set).
Proof.
  intros Hnd. unfold setAdd. destruct (existsb (str_eqb x) set) eqn:E; [exact Hnd|].
  apply (Permutation_NoDup (Permutation_cons_append set x)).
  constructor; [|exact Hnd].
  intros Hin.
  assert (Ht : existsb (str_eqb x) set = true).
  { apply existsb_exists. exists x. split; [exact Hin | apply str_eqb_eq; reflexivity]. }
  congruence.
Qed.

(** A fold whose every step keeps a set duplicate-free and adds exactly
    the elements [R a] relates to the item [a]. *)
Lemma fold_members {A : Type} (F : list str -> A -> list str) (R : A -> str -> Prop) :
  (forall a s, NoDup s -> NoDup (F s a)) ->
  (forall a s c, In c (F s a) <-> In c s \/ R a c) ->
  forall (l : list A) (s : list str),
    (NoDup s -> NoDup (fold_left F l s)) /\
    (forall c, In c (fold_left F l s) <-> In c s \/ exists a, In a l /\ R a c).
Proof.
  intros HN HI. induction l as [|a l IH]; intros s; cbn [fold_left].
  - split; [auto|]. intros c. split; [auto|].
    intros [H|(a & [] & _)]; exact H.
  - destruct (IH (F s a)) as [IN II]. split.
    + intros H. apply IN, HN, H.
    + intros c. rewrite II, HI. split.
      * intros [[H|H]|(b & Hb & Hr)].
        -- left; exact H.
        -- right; exists a; split; [left; reflexivity | exact H].
        -- right; exists b; split; [right; exact Hb | exact Hr].
      * intros [H|(b & [<-|Hb] & Hr)].
        -- left; left; exact H.
        -- left; right; exact Hr.
        -- right; exists b; split; assumption.
Qed.

Lemma generateGrid_accepts (bounds : Bounds) (precision : Z) :
  validBox bounds ->
  generateGrid bounds precision
  = OK (fold_left
          (fun digipins i =>
             fold_left
               (fun digipins j =>
                  let lat := stepped (latStart bounds precision) (gridCellSize precision) i in
                  let lon := stepped (lonStart bounds precision) (gridCellSize precision) j in
                  if inBOUNDS lat lon then
                    match encode (Num lat) (Num lon) precision with
                    | OK digipin => setAdd digipin digipins
                    | Err _ => digipins
                    end
                  else digipins)
               (seq 0 (passes (lonStart bounds precision) (east bounds) (gridCellSize precision)))
               digipins)
          (seq 0 (passes (latStart bounds precision) (north bounds) (gridCellSize precision)))
          []).
Proof.
  intros (V1 & V2 & V3 & V4 & V5 & V6). unfold generateGrid.
  replace (Qle_bool (north bounds) (south bounds) || Qle_bool (east bounds) (west bounds))
    with false.
  2:{ symmetry. apply orb_false_iff. split; apply not_true_is_false; intros H;
        apply Qle_bool_iff in H; lra. }
  replace (Qltb (south bounds) (minLat BOUNDS) || Qltb (maxLat BOUNDS) (north bounds)
           || Qltb (west bounds) (minLon BOUNDS) || Qltb (maxLon BOUNDS) (east bounds))
    with false.
  2:{ symmetry. rewrite !orb_false_iff. repeat split; apply Qltb_ge; assumption. }
  cbv zeta. fold (latStart bounds precision). fold (lonStart bounds precision).
  pose proof (gridCellSize_pos precision) as Hpos.
  f_equal.
  rewrite (forRange_fold (latStart bounds precision) (gridCellSize precision)
             (north bounds) _ Hpos _ 0%nat [] eq_refl).
  apply fold_left_pointwise. intros digipins i.
  match goal with
  | |- forRange _ _ _ _ ?body _ = _ =>
      exact (forRange_fold (lonStart bounds precision) (gridCellSize precision)
               (east bounds) body Hpos _ 0%nat digipins eq_refl)
  end.
Qed.

Lemma generateGrid_members_aux (bounds : Bounds) (precision : Z) :
  validBox bounds ->
  exists l, generateGrid bounds precision = OK l /\ NoDup l /\
            forall c, In c l <-> exists i j, visited bounds precision i j c.
Proof.
  intros HV. rewrite (generateGrid_accepts _ _ HV). eexists. split; [reflexivity|].
  pose proof (gridCellSize_pos precision) as Hpos.
  pose (Rin := fun (i j : nat) (c : str) =>
    inBOUNDS (stepped (latStart bounds precision) (gridCellSize precision) i)
             (stepped (lonStart bounds precision) (gridCellSize precision) j) = true /\
    encode (Num (stepped (latStart bounds precision) (gridCellSize precision) i))
           (Num (stepped (lonStart bounds precision) (gridCellSize precision) j))
           precision = OK c).
  pose (G := fun (i : nat) (digipins : list str) (j : nat) =>
    let lat := stepped (latStart bounds precision) (gridCellSize precision) i in
    let lon := stepped (lonStart bounds precision) (gridCellSize precision) j in
    if inBOUNDS lat lon then
      match encode (Num lat) (Num lon) precision with
      | OK digipin => setAdd digipin digipins
      | Err _ => digipins
      end
    else digipins).
  assert (GN : forall i j s, NoDup s -> NoDup (G i s j)).
  { intros i j s Hs. unfold G. cbv zeta.
    destruct (inBOUNDS _ _); [|exact Hs].
    destruct (encode _ _ _); [apply setAdd_NoDup|]; exact Hs. }
  assert (GI : forall i j s c, In c (G i s j) <-> In c s \/ Rin i j c).
  { intros i j s c. unfold G, Rin. cbv zeta.
    destruct (inBOUNDS _ _).
    - destruct (encode _ _ _) as [x|e].
      + rewrite setAdd_In. split.
        * intros [H| ->]; [left; exact H | right; split; reflexivity].
        * intros [H|[_ H]]; [left; exact H | right; congruence].
      + split; [tauto|]. intros [H|[_ H]]; [exact H | discriminate H].
    - split; [tauto|]. intros [H|[H _]]; [exact H | discriminate H]. }
  set (mLon := passes (lonStart bounds precision) (east bounds) (gridCellSize precision)).
  set (mLat := passes (latStart bounds precision) (north bounds) (gridCellSize precision)).
  change (NoDup (fold_left (fun digipins i => fold_left (G i) (seq 0 mLon) digipins)
                   (seq 0 mLat) []) /\
          forall c, In c (fold_left (fun digipins i => fold_left (G i) (seq 0 mLon) digipins)
                            (seq 0 mLat) [])
                    <-> exists i j, visited bounds precision i j c).
  destruct (fold_members
              (fun digipins i => fold_left (G i) (seq 0 mLon) digipins)
              (fun i c => exists j, In j (seq 0 mLon) /\ Rin i j c)
              (fun i s => proj1 (fold_members (G i) (Rin i) (GN i) (GI i) (seq 0 mLon) s))
              (fun i s => proj2 (fold_members (G i) (Rin i) (GN i) (GI i) (seq 0 mLon) s))
              (seq 0 mLat) []) as [HN HI].
  split; [apply HN; constructor|].
  intros c. rewrite HI. unfold visited, Rin. cbv zeta. split.
  - intros [[]|(i & Hi & j & Hj & HB & HE)].
    exists i, j. apply in_seq in Hi, Hj.
    split; [apply (lt_passes _ _ _ _ Hpos); unfold mLat in Hi; lia|].
    split; [apply (lt_passes _ _ _ _ Hpos); unfold mLon in Hj; lia|].
    split; assumption.
  - intros (i & j & Hi & Hj & HB & HE). right.
    apply (lt_passes _ _ _ _ Hpos) in Hi, Hj.
    exists i. split; [apply in_seq; unfold mLat; lia|].
    exists j. split; [apply in_seq; unfold mLon; lia|].
    split; assumption.
Qed.



(** X19 -- [generateGrid] does not check its precision: on a rectangle
    it accepts, a precision below 1, or above 10 and at most 25, gives the
    empty list, each [encode] having thrown inside the loop's [try].  (Up
    to precision 25 every value the loops compute is an integer below 2^53
    times the pitch [9 * 2^(4 - 2 * precision)], hence exact in
    binary64.) *)
Theorem generateGrid_precision_unchecked (bounds : Bounds) (precision : Z) :
  validBox bounds ->
  (precision < 1 \/ 10 < precision <= 25)%Z ->
  generateGrid bounds precision = OK [].
Proof.
  intros HV Hp.
  destruct (generateGrid_members_aux bounds precision HV) as (l & E & _ & HI).
  rewrite E. f_equal.
  destruct l as [|c l]; [reflexivity|]. exfalso.
  destruct (proj1 (HI c) (or_introl eq_refl)) as (i & j & _ & _ & _ & HE).
  unfold encode in HE.
  replace ((precision <? 1)%Z || (precision >? 10)%Z) with true in HE; [discriminate HE|].
  symmetry. apply orb_true_iff. rewrite Z.ltb_lt, Z.gtb_ltb, Z.ltb_lt. lia.
Qed.

Lemma generateGrid_precision_unchecked_witness :
  validBox {| north := 20; south := 10; east := 80; west := 70 |} /\
  generateGrid {| north := 20; south := 10; east := 80; west := 70 |} 11 = OK [].
Proof.
  assert (HV : validBox {| north := 20; south := 10; east := 80; west := 70 |})
    by (unfold validBox; repeat split; vm_compute; (reflexivity || discriminate)).
  split; [exact HV|].
  assert (Hp : (11 < 1 \/ 10 < 11 <= 25)%Z) by lia.
  exact (generateGrid_precision_unchecked _ 11 HV Hp).
Defined.

(* ================================================================== *)
(** ** Intersection of cells *)

Lemma decoded_geometry (code : str) (d : Decoded) :
  decode code = OK d ->
  exists n : nat,
    precision d = Z.of_nat n /\
    north (bounds d) - south (bounds d) == cellWidth n /\
    east (bounds d) - west (bounds d) == cellWidth n /\
    2 * latitude d == south (bounds d) + north (bounds d) /\
    2 * longitude d == west (bounds d) + east (bounds d).
Proof.
  intros Hdec. destruct (decode_OK_inv _ _ Hdec) as (Hlen & b & Hloop & ->).
  set (pin := toUpperCase (stripHyphens code)) in *.
  exists (length pin). split; [reflexivity|].
  pose proof (decode_loop_aligned _ _ 0 _ _ Hloop BOUNDS_aligned) as Ha.
  destruct (aligned_extent _ _ Ha) as (Xlat & Xlon).
  cbn [bounds decodedOf north south east west latitude longitude]. qexact.
  split; [exact Xlat|]. split; [exact Xlon|]. split; field.
Qed.

Lemma unit_offset (z : Z) : (-1 <= z <= 1)%Z -> z = (-1)%Z \/ z = 0%Z \/ z = 1%Z.
Proof. lia. Qed.

Lemma neighbour_touches (code K : str) (d : Decoded) (dir : Q * Q) :
  decode code = OK d ->
  In dir (directions (north (bounds d) -! south (bounds d))
                     (east (bounds d) -! west (bounds d))) ->
  contains BOUNDS (latitude d +! fst dir) (longitude d +! snd dir) ->
  encode (Num (latitude d +! fst dir)) (Num (longitude d +! snd dir)) (precision d) = OK K ->
  digipinsIntersect code K = OK true /\ digipinContains code K = OK false.
Proof.
  intros Hdec Hdir Hin Henc.
  destruct (neighbour_is_adjacent code d dir K Hdec Hdir Hin Henc)
    as (dK & HdK & Hp & Elat & Elon & _).
  destruct (direction_cases _ _ _ Hdir) as (dlat & dlon & Blat & Blon & Hnz & Fd & Sd).
  rewrite qsub_eq in Fd, Sd. rewrite Fd in Elat. rewrite Sd in Elon.
  destruct (decoded_geometry _ _ Hdec) as (n & Pn & W1 & W2 & C1 & C2).
  destruct (decoded_geometry _ _ HdK) as (n' & Pn' & W1' & W2' & C1' & C2').
  assert (En : n' = n) by lia. subst n'.
  pose proof (cellWidth_pos n) as Hw.
  unfold digipinsIntersect, digipinContains. rewrite Hdec, HdK. cbv zeta.
  set (W := cellWidth n) in *.
  set (s := south (bounds d)) in *. set (t := north (bounds d)) in *.
  set (w := west (bounds d)) in *. set (e := east (bounds d)) in *.
  set (s' := south (bounds dK)) in *. set (t' := north (bounds dK)) in *.
  set (w' := west (bounds dK)) in *. set (e' := east (bounds dK)) in *.
  set (la := latitude d) in *. set (lo := longitude d) in *.
  set (la' := latitude dK) in *. set (lo' := longitude dK) in *.
  clearbody W s t w e s' t' w' e' la lo la' lo'.
  destruct (unit_offset _ Blat) as [-> | [-> | ->]];
    destruct (unit_offset _ Blon) as [-> | [-> | ->]];
    try (exfalso; lia);
    change (inject_Z (-1)) with (-(1)) in *; change (inject_Z 0) with 0 in *;
    change (inject_Z 1) with 1 in *;
    (split; f_equal;
     [ apply negb_true_iff; rewrite !orb_false_iff; repeat split; apply Qltb_ge; lra
     | apply not_true_is_false; intros H;
       rewrite !andb_true_iff, !Qle_bool_iff in H; lra ]).
Qed.

(** X20 -- every code [getNeighbors] returns names a cell that
    [digipinsIntersect] reports as intersecting the input cell, although
    the two share only an edge or a corner (the comparison is not
    strict), and that [digipinContains] reports as not contained in it. *)
Theorem neighbors_intersect (code : str) (l : list str) :
  getNeighbors code = OK l ->
  forall K, In K l ->
    digipinsIntersect code K = OK true /\ digipinContains code K = OK false.
Proof.
  intros Hn K HK. unfold getNeighbors in Hn.
  destruct (decode code) as [d|err] eqn:Hdec; [|discriminate Hn].
  set (nb := fold_left _ _ _) in Hn. assert (E : l = nb) by congruence.
  subst l. unfold nb in HK.
  destruct (visit_all_members _ _ _ _ _ _ HK) as [[] | (dir & Hdir & Hin & Henc)].
  exact (neighbour_touches code K d dir Hdec Hdir Hin Henc).
Qed.

Lemma neighbors_intersect_witness :
  exists l, getNeighbors (lit "F") = OK l /\
    forall K, In K l ->
      digipinsIntersect (lit "F") K = OK true /\ digipinContains (lit "F") K = OK false.
Proof.
  destruct (getNeighbors (lit "F")) as [l|e] eqn:Hn; [|vm_compute in Hn; discriminate Hn].
  exists l. split; [reflexivity|].
  exact (neighbors_intersect (lit "F") l Hn).
Defined.

(** X21 -- on two codes [decode] accepts, [digipinsIntersect] does not
    depend on the order of its arguments, holds of a code and itself, and
    holds whenever [digipinContains] does. *)
Theorem intersect_symmetric (a b : str) (da db : Decoded) :
  decode a = OK da -> decode b = OK db ->
  digipinsIntersect a b = digipinsIntersect b a /\
  digipinsIntersect a a = OK true /\
  (digipinContains a b = OK true -> digipinsIntersect a b = OK true).
Proof.
  intros Ha Hb.
  destruct (decoded_geometry _ _ Ha) as (n & _ & W1 & W2 & _).
  destruct (decoded_geometry _ _ Hb) as (m & _ & V1 & V2 & _).
  pose proof (cellWidth_pos n) as Hn. pose proof (cellWidth_pos m) as Hm.
  unfold digipinsIntersect, digipinContains. rewrite Ha, Hb. cbv zeta.
  split; [|split].
  - f_equal. f_equal.
    destruct (Qltb (east (bounds da)) (west (bounds db)));
      destruct (Qltb (east (bounds db)) (west (bounds da)));
      destruct (Qltb (north (bounds da)) (south (bounds db)));
      destruct (Qltb (north (bounds db)) (south (bounds da))); reflexivity.
  - f_equal. apply negb_true_iff. rewrite !orb_false_iff.
    repeat split; apply Qltb_ge; lra.
  - intros H. injection H as H. rewrite !andb_true_iff, !Qle_bool_iff in H.
    f_equal. apply negb_true_iff. rewrite !orb_false_iff.
    repeat split; apply Qltb_ge; lra.
Qed.

Lemma intersect_symmetric_witness :
  digipinsIntersect (lit "F") (lit "FC") = digipinsIntersect (lit "FC") (lit "F") /\
  digipinsIntersect (lit "F") (lit "F") = OK true /\
  (digipinContains (lit "F") (lit "FC") = OK true ->
   digipinsIntersect (lit "F") (lit "FC") = OK true).
Proof.
  destruct (decode (lit "F")) as [da|e] eqn:Ha; [|vm_compute in Ha; discriminate Ha].
  destruct (decode (lit "FC")) as [db|e] eqn:Hb; [|vm_compute in Hb; discriminate Hb].
  exact (intersect_symmetric (lit "F") (lit "FC") da db Ha Hb).
Defined.
